(** * code_tree_generator: the attributed graph and the syntax-tree walk

    A shallow embedding of [src/graph.py] (classes [Node] and [Graph]) and of
    the graph-building part of [src/file_parser.py] (class [ASTFileParser]:
    [parse], [_parse_node], [_handle_call], [_call_to_import],
    [_handle_import], [_handle_definition], [_resolve_imports], and the
    two id readers [get_node_text] and [get_node_type]).

    Python objects are mutable and shared, so [Node] objects live in a heap
    (a list, indexed by allocation order) and are designated by references;
    the adjacency dictionary of a node and the [parent] link hold references,
    as in the source, where [_adjacent] is keyed by object identity.

    The source recurses without a bound of its own in [get_descendants],
    in [_call_to_import] and in [_parse_node]; the interpreter ends such a
    recursion with a [RecursionError].  Each of the three takes the number
    of frames it may still use as an argument, [depth]; the frames of the
    calls that do not recurse are not counted. *)

From Stdlib Require Import Ascii.
From stdpp Require Import base option list strings gmap pretty relations.
From stdpp Require Import options.

Local Open Scope Z_scope.
Local Open Scope nat_scope.

(** ** Insertion-ordered dictionaries

    A Python [dict] iterates in insertion order and an assignment to an
    existing key keeps the key's position.  The dictionaries the source
    iterates over ([_adjacent], the per-file table of calls) are modelled as
    association lists with exactly that discipline. *)
Module PyDict.
Section dict.
Context {K V : Type} `{EqDecision K}.

Fixpoint get (k : K) (d : list (K * V)) : option V :=
  match d with
  | [] => None
  | (k', v) :: d' => if decide (k = k') then Some v else get k d'
  end.

Fixpoint set (k : K) (v : V) (d : list (K * V)) : list (K * V) :=
  match d with
  | [] => [(k, v)]
  | (k', v') :: d' =>
      if decide (k = k') then (k, v) :: d' else (k', v') :: set k v d'
  end.

Definition keys (d : list (K * V)) : list K := d.*1.

End dict.
End PyDict.

(** ** Outcomes of a Python call

    A call either returns a value or raises.  Mutations made before the
    exception is raised persist, so an outcome is paired with the state. *)
Inductive exn : Type :=
  | Exception (msg : string)
  | KeyError
  | IndexError
  | AttributeError
  | UnboundLocalError
  | RecursionError
  | NonTermination
  | DanglingRef.

Inductive res (A : Type) : Type :=
  | Ok (a : A)
  | Raise (e : exn).
Arguments Ok {A} a.
Arguments Raise {A} e.

Section monad.
Context {S : Type}.

Definition M (A : Type) : Type := S → res A * S.

Definition ret {A} (a : A) : M A := λ s, (Ok a, s).

Definition bind {A B} (m : M A) (k : A → M B) : M B :=
  λ s, match m s with
       | (Ok a, s') => k a s'
       | (Raise e, s') => (Raise e, s')
       end.

Definition raise {A} (e : exn) : M A := λ s, (Raise e, s).

Definition gets {A} (f : S → A) : M A := λ s, (Ok (f s), s).

Definition modify (f : S → S) : M unit := λ s, (Ok tt, f s).

(** [o] is a value the interpreter always has; [None] would be a reference
    to no object, which Python cannot express. *)
Definition deref {A} (o : option A) : M A :=
  match o with Some a => ret a | None => raise DanglingRef end.

Definition or_raise {A} (e : exn) (o : option A) : M A :=
  match o with Some a => ret a | None => raise e end.
End monad.

Declare Scope py_scope.
Delimit Scope py_scope with py.
Notation "'let*' x ':=' m 'in' k" := (bind m (λ x, k))
  (at level 10, x pattern, m at level 100, k at level 200) : py_scope.
Notation "m ';;' k" := (bind m (λ _, k))
  (at level 100, k at level 200, right associativity) : py_scope.
Local Open Scope py_scope.

(** ** [graph.py]: class [Node] *)

Abbreviation ref := nat (only parsing).
Definition point : Type := nat * nat.
(** The edge weight; every caller in the repository uses the default, 1. *)
Abbreviation weight := Z (only parsing).

Record Node : Type := mkNode {
  _id : string;
  _start : point;
  _end : point;
  _file : string;
  _text : option string;
  _type : option string;
  _var_name : option string;
  _adjacent : list (ref * weight);
  _parent : option ref;
}.

Abbreviation heap := (list Node) (only parsing).

(** [Node.__init__]: a fresh object with an empty adjacency dictionary. *)
Definition Node_init (id : string) (start end_ : point) (file : string)
    (text type var_name : option string) (parent : option ref) : Node :=
  {| _id := id; _start := start; _end := end_; _file := file;
     _text := text; _type := type; _var_name := var_name;
     _adjacent := []; _parent := parent |}.

(** Python truthiness of an [Optional[str]]: [None] and [""] are falsy. *)
Definition truthy (o : option string) : bool :=
  match o with
  | Some (String _ _) => true
  | _ => false
  end.

(** The read accessors [x if x else ""]; the result is a Python value, that
    is [None] or a string, whence the option. *)
Definition text (n : Node) : option string :=
  if truthy (_text n) then _text n else Some "".
Definition type (n : Node) : option string :=
  if truthy (_type n) then _type n else Some "".
Definition var_name (n : Node) : option string :=
  if truthy (_var_name n) then _var_name n else Some "".

Definition set_text (v : option string) (n : Node) : Node :=
  {| _id := _id n; _start := _start n; _end := _end n; _file := _file n;
     _text := v; _type := _type n; _var_name := _var_name n;
     _adjacent := _adjacent n; _parent := _parent n |}.
Definition set_var_name (v : option string) (n : Node) : Node :=
  {| _id := _id n; _start := _start n; _end := _end n; _file := _file n;
     _text := _text n; _type := _type n; _var_name := v;
     _adjacent := _adjacent n; _parent := _parent n |}.
Definition set_parent (v : option ref) (n : Node) : Node :=
  {| _id := _id n; _start := _start n; _end := _end n; _file := _file n;
     _text := _text n; _type := _type n; _var_name := _var_name n;
     _adjacent := _adjacent n; _parent := v |}.
Definition set_adjacent (a : list (ref * weight)) (n : Node) : Node :=
  {| _id := _id n; _start := _start n; _end := _end n; _file := _file n;
     _text := _text n; _type := _type n; _var_name := _var_name n;
     _adjacent := a; _parent := _parent n |}.

(** [add_neighbor]: [self._adjacent[neighbor] = weight]. *)
Definition add_neighbor (neighbor : ref) (w : weight) (n : Node) : Node :=
  set_adjacent (PyDict.set neighbor w (_adjacent n)) n.

Definition get_connections (n : Node) : list ref := PyDict.keys (_adjacent n).

Definition get_weight (neighbor : ref) (n : Node) : res weight :=
  match PyDict.get neighbor (_adjacent n) with
  | Some w => Ok w
  | None => Raise KeyError
  end.

(** The body of the [for] loop of [get_descendants], given the recursive call. *)
Fixpoint descendants_loop (rec : ref → res (list ref)) (ns : list ref)
    (descendants : list ref) : res (list ref) :=
  match ns with
  | [] => Ok descendants
  | neighbor :: ns' =>
      match rec neighbor with
      | Ok ds => descendants_loop rec ns' (descendants ++ neighbor :: ds)
      | Raise e => Raise e
      end
  end.

(** [get_descendants]; [depth] bounds the depth of the recursion, which in
    Python ends in a [RecursionError] once the interpreter's limit is hit. *)
Fixpoint get_descendants (depth : nat) (h : heap) (r : ref) : res (list ref) :=
  match depth with
  | 0 => Raise RecursionError
  | S depth' =>
      match h !! r with
      | None => Raise DanglingRef
      | Some n =>
          descendants_loop (get_descendants depth' h) (get_connections n) []
      end
  end.

(** ** [graph.py]: class [Graph] *)

Record Graph : Type := mkGraph {
  vert_dict : gmap string ref;
  num_vertices : nat;
}.

Record store : Type := mkStore {
  objs : heap;
  graph : Graph;
}.

Definition Graph_init : Graph := {| vert_dict := ∅; num_vertices := 0 |}.

Definition upd_graph (f : Graph → Graph) (s : store) : store :=
  {| objs := objs s; graph := f (graph s) |}.
Definition upd_objs (f : heap → heap) (s : store) : store :=
  {| objs := f (objs s); graph := graph s |}.

(** Allocation of a [Node] object: the call [N(...)]. *)
Definition new_node (n : Node) : M (S := store) ref :=
  λ s, (Ok (length (objs s)), upd_objs (λ h, h ++ [n]) s).

Definition read (r : ref) : M (S := store) Node :=
  let* h := gets objs in deref (h !! r).

Definition add_vertex (node : ref) : M (S := store) string :=
  let* n := read node in
  (match _parent n with
   | Some p =>
       let* pn := read p in
       let* vd := gets (λ s, vert_dict (graph s)) in
       if decide (is_Some (vd !! _id pn)) then ret tt
       else raise (Exception ("Parent " +:+ _id pn +:+ " not in graph."))
   | None => ret tt
   end);;
  modify (upd_graph (λ g,
    {| vert_dict := <[_id n := node]> (vert_dict g);
       num_vertices := num_vertices g + 1 |}));;
  ret (_id n).

Definition get_vertex (id : string) : M (S := store) (option ref) :=
  gets (λ s, vert_dict (graph s) !! id).

Definition add_edge (from_ to_ : string) (w : weight) (bi : bool)
    : M (S := store) unit :=
  let* vd := gets (λ s, vert_dict (graph s)) in
  match vd !! from_ with
  | None => raise (Exception ("Vertex " +:+ from_ +:+ " not in graph."))
  | Some rf =>
      match vd !! to_ with
      | None => raise (Exception ("Vertex " +:+ to_ +:+ " not in graph."))
      | Some rt =>
          modify (upd_objs (alter (add_neighbor rt w) rf));;
          if bi then modify (upd_objs (alter (add_neighbor rf w) rt))
          else ret tt
      end
  end.

Definition get_parent (id : string) : M (S := store) (option ref) :=
  let* vd := gets (λ s, vert_dict (graph s)) in
  let* r := or_raise KeyError (vd !! id) in
  let* n := read r in
  ret (_parent n).

(** The [while node.parent:] loop of [get_highest_attribute].  [steps] bounds
    the number of iterations; a run that exhausts it stands for a loop that
    does not end (only a cycle of [parent] links does that). *)
Fixpoint climb (steps : nat) (h : heap) (node : ref) : res ref :=
  match h !! node with
  | None => Raise DanglingRef
  | Some n =>
      match _parent n with
      | None => Ok node
      | Some p =>
          match h !! p with
          | None => Raise DanglingRef
          | Some pn =>
              if decide (type pn = Some "attribute") then
                match steps with
                | 0 => Raise NonTermination
                | S steps' => climb steps' h p
                end
              else Ok node
          end
      end
  end.

Definition get_highest_attribute (id : string) : M (S := store) (option ref) :=
  let* vd := gets (λ s, vert_dict (graph s)) in
  let* node := or_raise KeyError (vd !! id) in
  let* n := read node in
  match _parent n with
  | Some _ =>
      λ s, match climb (length (objs s)) (objs s) node with
           | Ok r => (Ok (Some r), s)
           | Raise e => (Raise e, s)
           end
  | None => ret None
  end.

(** One iteration of the loop of [delete_graph]. *)
Definition clear_node (n : Node) : Node := set_adjacent [] (set_parent None n).

Definition delete_graph : M (S := store) unit :=
  let* vd := gets (λ s, vert_dict (graph s)) in
  modify (upd_objs (λ h,
    foldl (λ h' kv, alter clear_node kv.2 h') h (map_to_list vd)));;
  modify (upd_graph (λ _, {| vert_dict := ∅; num_vertices := 0 |})).

(** ** The syntax tree handed over by the external parser

    A tree-sitter node as [file_parser.py] reads it: its kind tag, whether it
    is named, the source text of its span (already decoded), its span, and
    its ordered children, named and unnamed alike. *)
Unset Elimination Schemes.
Inductive ts_node : Type :=
  | TSNode (ty : string) (named : bool) (txt : string)
           (start_point end_point : point) (children : list ts_node).
Set Elimination Schemes.

Definition ts_type (n : ts_node) : string :=
  match n with TSNode ty _ _ _ _ _ => ty end.
Definition ts_is_named (n : ts_node) : bool :=
  match n with TSNode _ named _ _ _ _ => named end.
Definition ts_text (n : ts_node) : string :=
  match n with TSNode _ _ txt _ _ _ => txt end.
Definition ts_start_point (n : ts_node) : point :=
  match n with TSNode _ _ _ sp _ _ => sp end.
Definition ts_end_point (n : ts_node) : point :=
  match n with TSNode _ _ _ _ ep _ => ep end.
Definition ts_children (n : ts_node) : list ts_node :=
  match n with TSNode _ _ _ _ _ cs => cs end.

(** ** String operations of the source *)

(** [c in s] *)
Fixpoint str_in (c : ascii) (s : string) : bool :=
  match s with
  | EmptyString => false
  | String a s' => if decide (a = c) then true else str_in c s'
  end.

(** [s.rfind(c)]; [None] stands for Python's -1. *)
Fixpoint rfind (c : ascii) (s : string) : option nat :=
  match s with
  | EmptyString => None
  | String a s' =>
      match rfind c s' with
      | Some i => Some (S i)
      | None => if decide (a = c) then Some 0 else None
      end
  end.

(** [s[:n]] for a non-negative [n] *)
Fixpoint str_take (n : nat) (s : string) : string :=
  match n, s with
  | S n', String a s' => String a (str_take n' s')
  | _, _ => EmptyString
  end.

(** [s[:s.rfind(c)]]; with no [c] in [s] the index is -1 and the slice drops
    the last character. *)
Definition slice_to_rfind (c : ascii) (s : string) : string :=
  match rfind c s with
  | Some i => str_take i s
  | None => str_take (String.length s - 1) s
  end.

(** ** [file_parser.py]: class [ASTFileParser] *)

(** The fields of the parser that the walk and the resolution touch.  The
    syntax tree is an argument of [parse]; the tables that no method writes
    ([_assignments], [_classes], the delayed queues) are left out. *)
Record parser : Type := mkParser {
  _AST : store;
  _counts : gmap string nat;
  _function_calls : gmap string (list (string * string));
  _imports : gmap string (gmap string (string * string));
  _function_definitions : gmap string (gmap string string);
  _edges_to_add : list (string * string);
}.

Definition upd_AST (f : store → store) (p : parser) : parser :=
  {| _AST := f (_AST p); _counts := _counts p;
     _function_calls := _function_calls p; _imports := _imports p;
     _function_definitions := _function_definitions p;
     _edges_to_add := _edges_to_add p |}.
Definition upd_counts (f : gmap string nat → gmap string nat) (p : parser) : parser :=
  {| _AST := _AST p; _counts := f (_counts p);
     _function_calls := _function_calls p; _imports := _imports p;
     _function_definitions := _function_definitions p;
     _edges_to_add := _edges_to_add p |}.
Definition upd_function_calls
    (f : gmap string (list (string * string)) → gmap string (list (string * string)))
    (p : parser) : parser :=
  {| _AST := _AST p; _counts := _counts p;
     _function_calls := f (_function_calls p); _imports := _imports p;
     _function_definitions := _function_definitions p;
     _edges_to_add := _edges_to_add p |}.
Definition upd_imports
    (f : gmap string (gmap string (string * string)) → gmap string (gmap string (string * string)))
    (p : parser) : parser :=
  {| _AST := _AST p; _counts := _counts p;
     _function_calls := _function_calls p; _imports := f (_imports p);
     _function_definitions := _function_definitions p;
     _edges_to_add := _edges_to_add p |}.
Definition upd_function_definitions
    (f : gmap string (gmap string string) → gmap string (gmap string string))
    (p : parser) : parser :=
  {| _AST := _AST p; _counts := _counts p;
     _function_calls := _function_calls p; _imports := _imports p;
     _function_definitions := f (_function_definitions p);
     _edges_to_add := _edges_to_add p |}.
Definition upd_edges_to_add
    (f : list (string * string) → list (string * string)) (p : parser) : parser :=
  {| _AST := _AST p; _counts := _counts p;
     _function_calls := _function_calls p; _imports := _imports p;
     _function_definitions := _function_definitions p;
     _edges_to_add := f (_edges_to_add p) |}.

(** A method of the graph run on the parser's [_AST]. *)
Definition on_AST {A} (m : M (S := store) A) : M (S := parser) A :=
  λ p, let '(r, s') := m (_AST p) in (r, upd_AST (λ _, s') p).

(** [__init__] followed by [_init_tracking]. *)
Definition parser_init : parser :=
  {| _AST := {| objs := []; graph := Graph_init |};
     _counts := ∅; _function_calls := ∅; _imports := ∅;
     _function_definitions := ∅; _edges_to_add := [] |}.

Section ASTFileParser.
(** [self._filepath], fixed at construction, and the class attribute
    [BUILTINS = dir(__builtins__)], whose content is the interpreter's. *)
Variable _filepath : string.
Variable BUILTINS : list string.

(** [_call_to_import]; [depth] bounds the recursion as in
    [get_descendants]: it is the number of frames that the interpreter
    still grants, and a call that finds none left raises [RecursionError].
    The graph argument of the source is unused. *)
Fixpoint _call_to_import (depth : nat) (function_call id : string)
    : M (S := parser) unit :=
  match depth with
  | 0 => raise RecursionError
  | S depth' =>
      let* imports := gets _imports in
      match imports !! _filepath ≫= (.!! function_call) with
      | Some target =>
          modify (upd_edges_to_add (λ l, l ++ [(id, target.1)]))
      | None =>
          if str_in "."%char function_call then
            _call_to_import depth' (slice_to_rfind "."%char function_call) id
          else ret tt
      end
  end.

(** [d[_filepath][k] = v], creating the per-file dictionary on first use,
    for an unordered and for an insertion-ordered inner dictionary. *)
Definition record {V} (k : string) (v : V) (d : gmap string (gmap string V))
    : gmap string (gmap string V) :=
  match d !! _filepath with
  | None => <[_filepath := {[k := v]}]> d
  | Some inner => <[_filepath := <[k := v]> inner]> d
  end.

Definition record_call (k v : string) (d : gmap string (list (string * string)))
    : gmap string (list (string * string)) :=
  match d !! _filepath with
  | None => <[_filepath := [(k, v)]]> d
  | Some inner => <[_filepath := PyDict.set k v inner]> d
  end.

Definition child (i : nat) (node : ts_node) : M (S := parser) ts_node :=
  or_raise IndexError (ts_children node !! i).

(** [node.parent] followed by an attribute access: [None] has none. *)
Definition parent_of (up : option ts_node) : M (S := parser) ts_node :=
  or_raise AttributeError up.

(** [_handle_call]; [depth] is what is left for the recursion of
    [_call_to_import], which it starts. *)
Definition _handle_call (depth : nat) (node : ts_node) (id : string)
    : M (S := parser) unit :=
  let* callee := child 0 node in
  let function_name := ts_text callee in
  modify (upd_function_calls (record_call function_name id));;
  _call_to_import depth function_name id.

(** [_handle_import].  [up] is [node.parent] and [idx] the position of
    [node] among the children of [up], so that
    [node.parent.children[1] == node] reads [idx = 1]. *)
Definition _handle_import (node : ts_node) (up : option ts_node) (idx : nat)
    (id : string) : M (S := parser) unit :=
  if decide (ts_type node = "aliased_import") then
    let* p := parent_of up in
    let* import_path :=
      if decide (ts_type p = "import_from_statement") then
        let* m := child 1 p in
        let* c0 := child 0 node in
        ret (Some (ts_text m +:+ "." +:+ ts_text c0))
      else if decide (ts_type p = "import_statement") then
        let* c0 := child 0 node in
        ret (Some (ts_text c0))
      else ret None in
    let* c2 := child 2 node in
    let* import_path := or_raise UnboundLocalError import_path in
    modify (upd_imports (record (ts_text c2) (id, import_path)))
  else if decide (ts_type node = "dotted_name") then
    let* p := parent_of up in
    let* skip :=
      if decide (ts_type p = "import_from_statement") then
        let* _ := child 1 p in ret (bool_decide (idx = 1))
      else ret false in
    if (skip : bool) then ret tt
    else
      let* import_path :=
        if decide (ts_type p = "import_from_statement") then
          let* m := child 1 p in ret (Some (ts_text m))
        else if decide (ts_type p = "import_statement") then ret (Some "")
        else ret None in
      let* import_path := or_raise UnboundLocalError import_path in
      modify (upd_imports (record (ts_text node) (id, import_path)))
  else raise UnboundLocalError.

Definition _handle_definition (node : ts_node) (id : string)
    : M (S := parser) unit :=
  let* c1 := child 1 node in
  modify (upd_function_definitions (record (ts_text c1) id)).

(** The text captured for a node: the first three [if]s of [_parse_node]. *)
Definition capture_text (node : ts_node) : M (S := parser) (option string) :=
  let text :=
    if ts_is_named node && bool_decide (length (ts_children node) = 0)
    then Some (ts_text node) else None in
  let* text :=
    if decide (ts_type node = "binary_operator") then
      let* op := child 1 node in ret (Some (ts_text op))
    else ret text in
  if decide (ts_type node = "attribute") then ret (Some (ts_text node))
  else ret text.

(** [name = node.type if not text else node.type + ' | ' + text] *)
Definition display_name (node : ts_node) (text : option string) : string :=
  if truthy text then ts_type node +:+ " | " +:+ default "" text
  else ts_type node.

(** The node id: the file path for the root, a counter suffix otherwise. *)
Definition assign_id (node : ts_node) (name : string) : M (S := parser) string :=
  if decide (ts_type node = "module") then
    ret (ts_type node +:+ " | " +:+ _filepath)
  else
    let* counts := gets _counts in
    match counts !! name with
    | None =>
        modify (upd_counts <[name := 0]>);;
        ret (name +:+ "_" +:+ pretty 0)
    | Some c =>
        modify (upd_counts <[name := c + 1]>);;
        ret (name +:+ "_" +:+ pretty (c + 1))
    end.

(** The first half of the statements of [_parse_node] that precede its
    [for] loop: naming, creation of the object [n_], insertion in the
    graph, and the variable name of an identifier.  Returns [n_], the id
    that [add_vertex] returned and the final value of [name]. *)
Definition insert_node (node : ts_node) (last_node : option ref)
    (filename : string) : M (S := parser) (ref * string * string) :=
  let* text := capture_text node in
  let* name := assign_id node (display_name node text) in
  let* n_ := on_AST (new_node
    (Node_init name (ts_start_point node) (ts_end_point node) filename
       None (Some (ts_type node)) None last_node)) in
  (if truthy text then on_AST (modify (upd_objs (alter (set_text text) n_)))
   else ret tt);;
  let* id := on_AST (add_vertex n_) in
  (if decide (ts_type node = "identifier") then
     on_AST (modify (upd_objs (alter (set_var_name (Some (ts_text node))) n_)))
   else ret tt);;
  ret (n_, id, name).

(** The second half: the three handlers, each under its guard. *)
Definition dispatch_handlers (depth : nat) (node : ts_node)
    (up : option ts_node) (idx : nat) (name : string) : M (S := parser) unit :=
  (if decide (ts_type node = "call") then
     let* callee := child 0 node in
     if decide (ts_text callee ∈ BUILTINS) then ret tt
     else _handle_call depth node name
   else ret tt);;
  (if decide (ts_type node = "aliased_import") then
     _handle_import node up idx name
   else if decide (ts_type node = "dotted_name") then
     let* p := parent_of up in
     if String.prefix "import" (ts_type p) then _handle_import node up idx name
     else ret tt
   else ret tt);;
  (if decide (ts_type node = "function_definition"
              ∨ ts_type node = "class_definition") then
     _handle_definition node name
   else ret tt).

Definition visit (depth : nat) (node : ts_node) (up : option ts_node)
    (idx : nat) (last_node : option ref) (filename : string)
    : M (S := parser) (ref * string) :=
  let* (n_, id, name) := insert_node node last_node filename in
  dispatch_handlers depth node up idx name;;
  ret (n_, id).

(** [for child in node.children: body], with the position of the child. *)
Definition for_each_child (body : ts_node → nat → M (S := parser) unit)
    : list ts_node → nat → M (S := parser) unit :=
  fix loop (cs : list ts_node) (i : nat) : M (S := parser) unit :=
    match cs with
    | [] => ret tt
    | c :: cs' => body c i;; loop cs' (S i)
    end.

(** [_parse_node].  The graph argument of the source is always [self._AST];
    [up] and [idx] give [node.parent] and the position of [node] in it.
    The function calls itself once per level of the tree: [depth] is the
    number of frames that the interpreter still grants when it is called,
    as in [get_descendants] and [_call_to_import]; with none left the call
    raises [RecursionError], and what is left inside the call is what its
    own calls, to itself and to [_handle_call], can use.  As there, only
    the frames of the functions that recurse are counted. *)
Fixpoint _parse_node (depth : nat) (node : ts_node) (up : option ts_node)
    (idx : nat) (last_node : option ref) (filename : string) {struct node}
    : M (S := parser) string :=
  match depth with
  | 0 => raise RecursionError
  | S depth' =>
      match node with
      | TSNode _ _ _ _ _ children =>
          let* (n_, id) := visit depth' node up idx last_node filename in
          for_each_child (λ c i,
            if ts_is_named c then
              let* to_id_ :=
                _parse_node depth' c (Some node) i (Some n_) filename in
              let* n_id := on_AST (let* n := read n_ in ret (_id n)) in
              on_AST (add_edge n_id to_id_ 1%Z false)
            else ret tt) children 0;;
          ret id
      end
  end.

(** The body of the first loop of [_resolve_imports]. *)
Definition link_definition (function_name : string) : M (S := parser) unit :=
  let* defs := gets _function_definitions in
  if decide (defs = ∅) then ret tt
  else
    let* file_defs := or_raise KeyError (defs !! _filepath) in
    match file_defs !! function_name with
    | None => ret tt
    | Some definition =>
        let* calls := gets _function_calls in
        let* file_calls := or_raise KeyError (calls !! _filepath) in
        let* call := or_raise KeyError (PyDict.get function_name file_calls) in
        on_AST (add_edge call definition 1%Z false);;
        on_AST (add_edge definition call 1%Z false)
    end.

(** The first loop, over the names of the calls. *)
Fixpoint link_definitions (names : list string) : M (S := parser) unit :=
  match names with
  | [] => ret tt
  | function_name :: names' =>
      link_definition function_name;;
      link_definitions names'
  end.

(** The second loop, over the queued call-to-import edges. *)
Fixpoint add_import_edges (edges : list (string * string)) : M (S := parser) unit :=
  match edges with
  | [] => ret tt
  | (edge_from, edge_to) :: edges' =>
      on_AST (add_edge edge_from edge_to 1%Z false);;
      add_import_edges edges'
  end.

Definition _resolve_imports : M (S := parser) unit :=
  let* calls := gets _function_calls in
  if decide (calls = ∅) then ret tt
  else
    let* file_calls := or_raise KeyError (calls !! _filepath) in
    link_definitions (PyDict.keys file_calls);;
    let* edges := gets _edges_to_add in
    add_import_edges edges.

Definition parse (depth : nat) (root : ts_node) : M (S := parser) string :=
  let* root_id := _parse_node depth root None 0 None _filepath in
  _resolve_imports;;
  ret root_id.
End ASTFileParser.

(** * Vocabulary of the properties *)

(** [edge h a b]: the object [a] has [b] among its outgoing neighbours. *)
Definition edge (h : heap) (a b : ref) : Prop :=
  ∃ n, h !! a = Some n ∧ b ∈ get_connections n.

(** [attr_parent h a b]: [b] is the parent of [a] and an [attribute] node,
    the condition under which [get_highest_attribute] moves from [a] to [b]. *)
Definition attr_parent (h : heap) (a b : ref) : Prop :=
  ∃ n pn, h !! a = Some n ∧ _parent n = Some b ∧ h !! b = Some pn ∧
          type pn = Some "attribute".

(** Every reference held by an object of the heap designates an object of
    the heap, as any reference of a running program does. *)
Definition heap_closed (h : heap) : Prop :=
  ∀ a n, h !! a = Some n →
    (∀ b, b ∈ get_connections n → b < length h) ∧
    (∀ p, _parent n = Some p → p < length h).

(** No object reachable from [r] lies on a cycle of the relation [R]. *)
Definition acyclic_from (R : ref → ref → Prop) (r : ref) : Prop :=
  ∀ x, rtc R r x → ¬ tc R x x.

(** A walk along [R] that starts at [x] and visits [p] in order. *)
Fixpoint is_path (R : ref → ref → Prop) (x : ref) (p : list ref) : Prop :=
  match p with
  | [] => True
  | y :: p' => R x y ∧ is_path R y p'
  end.

(** Depth-first pre-order listing of what is reachable from a node: each
    neighbour, in dictionary order, followed by its own listing. *)
Inductive dfs (h : heap) : ref → list ref → Prop :=
  | dfs_node x n l :
      h !! x = Some n → dfs_forest h (get_connections n) l → dfs h x l
with dfs_forest (h : heap) : list ref → list ref → Prop :=
  | dfs_nil : dfs_forest h [] []
  | dfs_cons y ys ly l :
      dfs h y ly → dfs_forest h ys l → dfs_forest h (y :: ys) (y :: ly ++ l).

(** [has_edge s a b]: in the graph of [s], the node registered under id [a]
    has the node registered under id [b] as an outgoing neighbour. *)
Definition has_edge (s : store) (a b : string) : Prop :=
  ∃ ra rb n, vert_dict (graph s) !! a = Some ra ∧
             vert_dict (graph s) !! b = Some rb ∧
             objs s !! ra = Some n ∧ rb ∈ get_connections n.

(** [registered s id]: the vertex table of [s] has the id. *)
Definition registered (s : store) (id : string) : Prop :=
  is_Some (vert_dict (graph s) !! id).

(** The vertex table only holds references to objects of the heap. *)
Definition store_wf (s : store) : Prop :=
  ∀ id r, vert_dict (graph s) !! id = Some r → r < length (objs s).

(** [grows p p']: [p'] is [p] with, possibly, more edges; the tables, the
    counters and the vertex table are the same. *)
Definition grows (p p' : parser) : Prop :=
  _counts p' = _counts p ∧
  _function_calls p' = _function_calls p ∧
  _imports p' = _imports p ∧
  _function_definitions p' = _function_definitions p ∧
  _edges_to_add p' = _edges_to_add p ∧
  graph (_AST p') = graph (_AST p) ∧
  _id <$> objs (_AST p') = _id <$> objs (_AST p) ∧
  ∀ x y, has_edge (_AST p) x y → has_edge (_AST p') x y.

Definition store_wf_b (s : store) : bool :=
  bool_decide (map_Forall (λ _ r, r < length (objs s)) (vert_dict (graph s))).

(** Every call site whose name has a definition is registered, and so is
    the definition. *)
Definition calls_registered_b (s : store) (file_calls : list (string * string))
    (file_defs : gmap string string) : bool :=
  forallb (λ '(g, c),
    match file_defs !! g with
    | Some d => bool_decide (registered s c) && bool_decide (registered s d)
    | None => true
    end) file_calls.

(** ** The walk, seen from outside *)

(** The text [capture_text] returns; it does not depend on the parser. *)
Definition text_of (node : ts_node) : res (option string) :=
  if decide (ts_type node = "binary_operator") then
    match ts_children node !! 1 with
    | Some op => Ok (Some (ts_text op))
    | None => Raise IndexError
    end
  else if decide (ts_type node = "attribute") then Ok (Some (ts_text node))
  else if ts_is_named node && bool_decide (length (ts_children node) = 0)
  then Ok (Some (ts_text node))
  else Ok None.

(** The counter that [assign_id] gives to the next node named [name]. *)
Definition next_count (counts : gmap string nat) (name : string) : nat :=
  match counts !! name with
  | None => 0
  | Some c => c + 1
  end.

(** The id that [assign_id] returns. *)
Definition node_id (fp : string) (node : ts_node) (name : string)
    (counts : gmap string nat) : string :=
  if decide (ts_type node = "module") then "module | " +:+ fp
  else name +:+ "_" +:+ pretty (next_count counts name).

(** The ids of the objects of the parser, in allocation order. *)
Definition ids (p : parser) : list string := _id <$> objs (_AST p).

(** The tree nodes that [_parse_node] visits, in the order of the visits:
    the node itself, then what is visited below each named child. *)
Fixpoint visited (node : ts_node) : list ts_node :=
  match node with
  | TSNode _ _ _ _ _ children =>
      node :: flat_map (λ c, if ts_is_named c then visited c else []) children
  end.

(** What is visited below the children [cs] of a node. *)
Definition visited_below (cs : list ts_node) : list ts_node :=
  flat_map (λ c, if ts_is_named c then visited c else []) cs.

(** [same_tables p p']: the counters and the four tables agree. *)
Definition same_tables (p p' : parser) : Prop :=
  _counts p' = _counts p ∧
  _function_calls p' = _function_calls p ∧
  _imports p' = _imports p ∧
  _function_definitions p' = _function_definitions p ∧
  _edges_to_add p' = _edges_to_add p.

(** The callee under which the visit of [node] records a call: the node is
    a call and its callee is not a built-in. *)
Definition handled_callee (B : list string) (node : ts_node) : option string :=
  if decide (ts_type node = "call") then
    match ts_children node !! 0 with
    | Some callee =>
        if decide (ts_text callee ∈ B) then None else Some (ts_text callee)
    | None => None
    end
  else None.

(** ** Uniqueness of the ids *)

(** The ids are pairwise distinct, and each is the id of a root or carries a
    counter that the table of counters has reached. *)
Definition ids_fresh (fp : string) (p : parser) : Prop :=
  NoDup (ids p) ∧
  ∀ id, id ∈ ids p →
    id = "module | " +:+ fp ∨
    ∃ name (c0 c : nat), id = name +:+ "_" +:+ pretty c0 ∧
                         _counts p !! name = Some c ∧ c0 ≤ c.

(** The kind of the node does not start with the word module: the grammar
    has one such kind, [module], and only the root of a tree has it. *)
Definition plain_kind (node : ts_node) : Prop :=
  String.prefix "module" (ts_type node) = false.

(** The name under which a node is counted. *)
Definition name_of (node : ts_node) : string :=
  match text_of node with
  | Ok text => display_name node text
  | Raise _ => ts_type node
  end.

(** The number of nodes of [vs], other than a [module], named [name]. *)
Definition count_before (vs : list ts_node) (name : string) : nat :=
  length (filter (λ m, ts_type m ≠ "module" ∧ name_of m = name) vs).

(** The id of a node visited after the nodes [before]: the file path for a
    [module]; otherwise the name and the number of earlier nodes of that
    name. *)
Definition label (fp : string) (before : list ts_node) (node : ts_node) : string :=
  if decide (ts_type node = "module") then "module | " +:+ fp
  else name_of node +:+ "_" +:+ pretty (count_before before (name_of node)).

Definition labels (fp : string) (vs : list ts_node) : list string :=
  imap (λ k node, label fp (take k vs) node) vs.

(** The objects of [p] are those of the nodes [vs], in order, and the
    counters of [p] count the names of [vs]. *)
Definition labelled (fp : string) (vs : list ts_node) (p : parser) : Prop :=
  ids p = labels fp vs ∧
  ∀ name, next_count (_counts p) name = count_before vs name.

(** ** What the tables hold *)

(** The vertex table maps each id to an object that carries it. *)
Definition store_ok (s : store) : Prop :=
  ∀ id r, vert_dict (graph s) !! id = Some r → (_id <$> objs s) !! r = Some id.

(** [mentioned fp p x]: some table of the file, or the queue of edges,
    holds the node id [x]. *)
Definition mentioned (fp : string) (p : parser) (x : string) : Prop :=
  (∃ fc g, _function_calls p !! fp = Some fc ∧ (g, x) ∈ fc) ∨
  (∃ fd g, _function_definitions p !! fp = Some fd ∧ fd !! g = Some x) ∨
  (∃ table q path, _imports p !! fp = Some table ∧
                   table !! q = Some (x, path)) ∨
  (∃ y, (x, y) ∈ _edges_to_add p) ∨
  (∃ y, (y, x) ∈ _edges_to_add p).

(** Every id held by a table is registered in the graph. *)
Definition mentions_registered (fp : string) (p : parser) : Prop :=
  ∀ x, mentioned fp p x → registered (_AST p) x.

(** No built-in is a key of the table of calls. *)
Definition no_builtin_call (fp : string) (B : list string) (p : parser) : Prop :=
  ∀ fc b, _function_calls p !! fp = Some fc → b ∈ B → PyDict.get b fc = None.

(** The tables have no other key than the file, and an edge is queued only
    once a call is recorded. *)
Definition keyed (fp : string) (p : parser) : Prop :=
  (∀ k, is_Some (_function_calls p !! k) → k = fp) ∧
  (∀ k, is_Some (_function_definitions p !! k) → k = fp) ∧
  (_edges_to_add p = [] ∨ is_Some (_function_calls p !! fp)).

(** What every walk maintains, whatever it has visited. *)
Definition sound (fp : string) (B : list string) (p : parser) : Prop :=
  store_ok (_AST p) ∧ mentions_registered fp p ∧ no_builtin_call fp B p.

(** The three ways in which a table holds a node id: as a call site (a
    value of the table of calls, the source of a queued edge), as a
    definition, as an import (in the table of imports, or the target of a
    queued edge). *)
Inductive role : Type := Caller | Definer | Importer.

Definition mentions (fp : string) (p : parser) (ro : role) (x : string) : Prop :=
  match ro with
  | Caller =>
      (∃ fc g, _function_calls p !! fp = Some fc ∧ (g, x) ∈ fc) ∨
      (∃ y, (x, y) ∈ _edges_to_add p)
  | Definer =>
      ∃ fd g, _function_definitions p !! fp = Some fd ∧ fd !! g = Some x
  | Importer =>
      (∃ table q path, _imports p !! fp = Some table ∧
                       table !! q = Some (x, path)) ∨
      (∃ y, (y, x) ∈ _edges_to_add p)
  end.

(** The nodes whose visit records their id, by role. *)
Definition plays (B : list string) (ro : role) (node : ts_node) : Prop :=
  match ro with
  | Caller => is_Some (handled_callee B node)
  | Definer =>
      ts_type node = "function_definition" ∨ ts_type node = "class_definition"
  | Importer =>
      ts_type node = "aliased_import" ∨ ts_type node = "dotted_name"
  end.

(** Every id held by a table is the id of a visited node of that role. *)
Definition recorded (fp : string) (B : list string) (vs : list ts_node)
    (p : parser) : Prop :=
  ∀ ro x, mentions fp p ro x →
          ∃ k node, vs !! k = Some node ∧ plays B ro node ∧
                    ids p !! k = Some x.

(** The ids of the call sites of [g] among the visited nodes, in order. *)
Definition call_site_ids (fp : string) (B : list string) (vs : list ts_node)
    (g : string) : list string :=
  omap (λ '(node, id),
          if decide (handled_callee B node = Some g) then Some id else None)
       (zip vs (labels fp vs)).

(** The table of calls holds, for each name, its last call site. *)
Definition last_wins (fp : string) (B : list string) (vs : list ts_node)
    (p : parser) : Prop :=
  ∀ g, _function_calls p !! fp ≫= PyDict.get g = last (call_site_ids fp B vs g).

(** What a walk that returns has established, [vs] being what it visited. *)
Definition observed (fp : string) (B : list string) (vs : list ts_node)
    (p : parser) : Prop :=
  labelled fp vs p ∧ recorded fp B vs p ∧ last_wins fp B vs p.

(** The parser of [fp] after the walk of [root], and after the resolution
    that follows it in [parse]. *)
Definition walked (fp : string) (B : list string) (depth : nat)
    (root : ts_node) : parser :=
  (_parse_node fp B depth root None 0 None fp parser_init).2.
Definition resolved (fp : string) (B : list string) (depth : nat)
    (root : ts_node) : parser :=
  (parse fp B depth root parser_init).2.

(** [has_edge], computed. *)
Definition has_edge_b (s : store) (a b : string) : bool :=
  match vert_dict (graph s) !! a, vert_dict (graph s) !! b with
  | Some ra, Some rb =>
      match objs s !! ra with
      | Some n => bool_decide (rb ∈ get_connections n)
      | None => false
      end
  | _, _ => false
  end.

(** The edges that [_resolve_imports] is to install: between the call site
    and the definition of a name that has both, in the two directions, and
    the queued edges from calls to imports. *)
Definition planned (fp : string) (p : parser) (x y : string) : Prop :=
  (∃ fc fd g, _function_calls p !! fp = Some fc ∧
              _function_definitions p !! fp = Some fd ∧
              PyDict.get g fc = Some x ∧ fd !! g = Some y) ∨
  (∃ fc fd g, _function_calls p !! fp = Some fc ∧
              _function_definitions p !! fp = Some fd ∧
              PyDict.get g fc = Some y ∧ fd !! g = Some x) ∨
  (x, y) ∈ _edges_to_add p.

(** ** Dotted names, as the specification words them *)

(** The positions of the character [c] in [s], in increasing order. *)
Fixpoint positions (c : ascii) (s : string) : list nat :=
  match s with
  | EmptyString => []
  | String a s' =>
      (if decide (a = c) then [0] else []) ++ (S <$> positions c s')
  end.

(** The name itself, then the name with its last dotted segment dropped,
    and so on down to the first segment. *)
Definition dotted_prefixes (s : string) : list string :=
  s :: ((λ i, str_take i s) <$> reverse (positions "." s)).

(** The first of the candidates that the table binds. *)
Fixpoint first_bound {V} (table : gmap string V) (candidates : list string)
    : option V :=
  match candidates with
  | [] => None
  | q :: candidates' =>
      match table !! q with
      | Some v => Some v
      | None => first_bound table candidates'
      end
  end.

(** A parser that has seen [import numpy] (node [dotted_name_0]) in [a.py]. *)
Definition numpy_imported : parser :=
  upd_imports (λ _, {["a.py" := {["numpy" := ("dotted_name_0", "")]}]})
    parser_init.

(** ** Sample syntax trees *)

Definition named_leaf (ty txt : string) : ts_node :=
  TSNode ty true txt (0, 0) (0, 0) [].
Definition token (txt : string) : ts_node :=
  TSNode txt false txt (0, 0) (0, 0) [].
Definition named_node (ty txt : string) (cs : list ts_node) : ts_node :=
  TSNode ty true txt (0, 0) (0, 0) cs.

Definition call_of (callee : ts_node) (txt : string) : ts_node :=
  named_node "expression_statement" txt
    [named_node "call" txt
       [callee; named_node "argument_list" "()" [token "("; token ")"]]].

(** The tree of
<<
import os
def f():
    os.getcwd()
f()
>> *)
Definition example_tree : ts_node :=
  named_node "module" "import os ..." [
    named_node "import_statement" "import os"
      [token "import"; named_node "dotted_name" "os" [named_leaf "identifier" "os"]];
    named_node "function_definition" "def f(): os.getcwd()" [
      token "def"; named_leaf "identifier" "f";
      named_node "parameters" "()" [token "("; token ")"]; token ":";
      named_node "block" "os.getcwd()" [
        call_of (named_node "attribute" "os.getcwd"
                   [named_leaf "identifier" "os"; token ".";
                    named_leaf "identifier" "getcwd"]) "os.getcwd()"]];
    call_of (named_leaf "identifier" "f") "f()"].

(** The tree of
<<
import foo
foo()
foo()
>> *)
Definition twice_tree : ts_node :=
  named_node "module" "import foo ..." [
    named_node "import_statement" "import foo"
      [token "import";
       named_node "dotted_name" "foo" [named_leaf "identifier" "foo"]];
    call_of (named_leaf "identifier" "foo") "foo()";
    call_of (named_leaf "identifier" "foo") "foo()"].

(** The tree of
<<
def print(): pass
print()
>>
where [print] is taken as a built-in. *)
Definition builtin_tree : ts_node :=
  named_node "module" "def print(): pass ..." [
    named_node "function_definition" "def print(): pass" [
      token "def"; named_leaf "identifier" "print";
      named_node "parameters" "()" [token "("; token ")"]; token ":";
      named_node "block" "pass" [named_leaf "pass_statement" "pass"]];
    call_of (named_leaf "identifier" "print") "print()"].

(** The parser of [a.py] after the walk of that tree, before resolution. *)
Definition example_walked : parser :=
  (_parse_node "a.py" ["print"; "len"] 1000 example_tree None 0 None "a.py"
     parser_init).2.

(** Two distinct objects carrying the same id, the first one registered. *)
Definition twin (parent : option ref) : Node :=
  Node_init "a" (0, 0) (0, 0) "f.py" None None None parent.
Definition twin_store : store :=
  {| objs := [twin None; twin None];
     graph := {| vert_dict := {["a" := 0]}; num_vertices := 1 |} |}.

(** A parent, with an edge to its child, and the child; both registered. *)
Definition family_store : store :=
  {| objs := [ mkNode "r" (0, 0) (1, 0) "f.py" None (Some "module") None
                 [(1, 1%Z)] None;
               mkNode "c" (0, 0) (0, 1) "f.py" (Some "x") (Some "identifier")
                 (Some "x") [] (Some 0) ];
     graph := {| vert_dict := {["r" := 0; "c" := 1]}; num_vertices := 2 |} |}.

(** A chain [x.y.z] of attribute nodes under a call: 3 is the innermost
    attribute, 1 the outermost, 0 the call. *)
Definition attribute_chain : store :=
  {| objs := [ mkNode "call_0" (0, 0) (0, 9) "f.py" None (Some "call") None
                 [(1, 1%Z)] None;
               mkNode "attribute | x.y.z_0" (0, 0) (0, 5) "f.py"
                 (Some "x.y.z") (Some "attribute") None [(2, 1%Z)] (Some 0);
               mkNode "attribute | x.y_0" (0, 0) (0, 3) "f.py"
                 (Some "x.y") (Some "attribute") None [(3, 1%Z)] (Some 1);
               mkNode "identifier | x_0" (0, 0) (0, 1) "f.py"
                 (Some "x") (Some "identifier") (Some "x") [] (Some 2) ];
     graph := {| vert_dict := {[ "call_0" := 0; "attribute | x.y.z_0" := 1;
                                 "attribute | x.y_0" := 2;
                                 "identifier | x_0" := 3 ]};
                 num_vertices := 4 |} |}.

(** Executable checks that imply the three conditions above. *)
Definition heap_closed_b (h : heap) : bool :=
  forallb (λ n,
    forallb (λ b, bool_decide (b < length h)) (get_connections n) &&
    match _parent n with
    | Some p => bool_decide (p < length h)
    | None => true
    end) h.

(** Every parent was allocated before its child. *)
Definition parents_older_b (h : heap) : bool :=
  forallb (λ '(a, n),
    match _parent n with
    | Some p => bool_decide (p < a)
    | None => true
    end) (imap pair h).

(** Every edge leads to an object allocated later. *)
Definition edges_forward_b (h : heap) : bool :=
  forallb (λ '(a, n),
    forallb (λ b, bool_decide (a < b)) (get_connections n)) (imap pair h).

(** A diamond: 0 has edges to 1 and 2, which both have an edge to 3. *)
Definition diamond : heap :=
  [ mkNode "a" (0, 0) (0, 0) "f.py" None None None [(1, 1%Z); (2, 1%Z)] None;
    mkNode "b" (0, 0) (0, 0) "f.py" None None None [(3, 1%Z)] (Some 0);
    mkNode "c" (0, 0) (0, 0) "f.py" None None None [(3, 1%Z)] (Some 0);
    mkNode "d" (0, 0) (0, 0) "f.py" None None None [] (Some 1) ].

(** ** Further vocabulary *)

(** A registered object and an unregistered one that carries the same id
    and holds an edge to the first. *)
Definition orphan_store : store :=
  {| objs := [ twin None;
               mkNode "a" (0, 0) (0, 0) "f.py" None None None [(0, 1%Z)] (Some 0) ];
     graph := {| vert_dict := {["a" := 0]}; num_vertices := 1 |} |}.

(** Two [attribute] objects, each the parent of the other. *)
Definition attribute_loop : store :=
  {| objs := [ mkNode "x" (0, 0) (0, 0) "f.py" None (Some "attribute") None
                 [] (Some 1);
               mkNode "y" (0, 0) (0, 0) "f.py" None (Some "attribute") None
                 [] (Some 0) ];
     graph := {| vert_dict := {["x" := 0; "y" := 1]}; num_vertices := 2 |} |}.

(** [rebinds fp d d' key v]: the table [d'] is [d] with, in the dictionary
    of the file [fp], [key] bound to [v]; every other key of that
    dictionary and every other file are as in [d]. *)
Definition rebinds {V} (fp : string) (d d' : gmap string (gmap string V))
    (key : string) (v : V) : Prop :=
  d' !! fp ≫= (.!! key) = Some v ∧
  (∀ k, k ≠ key → d' !! fp ≫= (.!! k) = d !! fp ≫= (.!! k)) ∧
  (∀ f, f ≠ fp → d' !! f = d !! f).

(** The same for the insertion-ordered table of calls. *)
Definition rebinds_call (fp : string) (d d' : gmap string (list (string * string)))
    (key v : string) : Prop :=
  d' !! fp ≫= PyDict.get key = Some v ∧
  (∀ k, k ≠ key → d' !! fp ≫= PyDict.get k = d !! fp ≫= PyDict.get k) ∧
  (∀ f, f ≠ fp → d' !! f = d !! f).

(** The node [division as d] of [from __future__ import division as d],
    and its parent. *)
Definition future_alias : ts_node :=
  named_node "aliased_import" "division as d"
    [named_node "dotted_name" "division" [named_leaf "identifier" "division"];
     token "as"; named_leaf "identifier" "d"].
Definition future_import : ts_node :=
  named_node "future_import_statement" "from __future__ import division as d"
    [token "from"; token "__future__"; token "import"; future_alias].

(** The node [os] of [import os], and its parent. *)
Definition os_name : ts_node :=
  named_node "dotted_name" "os" [named_leaf "identifier" "os"].
Definition import_os : ts_node :=
  named_node "import_statement" "import os" [token "import"; os_name].

(** [wired s a b]: both ids are registered and the object of [a], if the
    heap has it, holds the object of [b] as a neighbour of weight 1: the
    state in which [add_edge a b] has nothing left to do. *)
Definition wired (s : store) (a b : string) : Prop :=
  ∃ ra rb, vert_dict (graph s) !! a = Some ra ∧
           vert_dict (graph s) !! b = Some rb ∧
           ∀ n, objs s !! ra = Some n →
                PyDict.get rb (_adjacent n) = Some 1%Z.

(** [replays m]: a run of [m] that returns keeps the tables and what is
    wired, and [m] run again on any parser with these tables in which
    everything the run left wired is wired, returns and changes nothing. *)
Definition replays (m : M (S := parser) unit) : Prop :=
  ∀ p p', m p = (Ok tt, p') →
    same_tables p p' ∧
    (∀ a b, wired (_AST p) a b → wired (_AST p') a b) ∧
    ∀ q, same_tables p q →
         (∀ a b, wired (_AST p') a b → wired (_AST q) a b) →
         m q = (Ok tt, q).

(** A parser whose table of calls only knows another file, with a queued
    edge and a definition of its own. *)
Definition foreign_calls : parser :=
  upd_function_calls (λ _, {["b.py" := [("f", "call_0")]]}) parser_init.

(** The object that [_parse_node] makes for [node], once it is named [id]:
    the span and the kind of the node, the captured text when it is not
    empty, the text of the node as variable name when the node is an
    identifier, no neighbour yet. *)
Definition fresh_object (node : ts_node) (id : string) (text : option string)
    (last : option ref) (filename : string) : Node :=
  {| _id := id; _start := ts_start_point node; _end := ts_end_point node;
     _file := filename;
     _text := if truthy text then text else None;
     _type := Some (ts_type node);
     _var_name := if decide (ts_type node = "identifier")
                  then Some (ts_text node) else None;
     _adjacent := []; _parent := last |}.

(** The positions, in the order of the visits, of the named children among
    [cs], the first node visited below them having position [off]. *)
Fixpoint child_refs (off : nat) (cs : list ts_node) : list nat :=
  match cs with
  | [] => []
  | c :: cs' =>
      if ts_is_named c then off :: child_refs (off + length (visited c)) cs'
      else child_refs off cs'
  end.

(** An adjacency dictionary that gives each of [rs] the weight 1. *)
Definition unit_weights (rs : list ref) : list (ref * weight) :=
  (λ r, (r, 1%Z)) <$> rs.

(** The vertex table maps the id of each object to that object. *)
Definition indexed (p : parser) : Prop :=
  ∀ k id, ids p !! k = Some id → vert_dict (graph (_AST p)) !! id = Some k.

(** [built_at fn h k node]: the object at position [k] of the heap [h] is
    the object of [node], with the objects of the named children of [node]
    as neighbours, in order and with weight 1, each of them having the
    object at [k] as parent. *)
Definition built_at (fn : string) (h : heap) (k : nat) (node : ts_node) : Prop :=
  ∃ n text, h !! k = Some n ∧ text_of node = Ok text ∧
    n = set_adjacent (unit_weights (child_refs (S k) (ts_children node)))
          (fresh_object node (_id n) text (_parent n) fn) ∧
    ∀ r, r ∈ child_refs (S k) (ts_children node) →
         ∃ c, h !! r = Some c ∧ _parent c = Some k.

(** What a walk of [node] that returns [id] has made of the parser [p]:
    one object per visited node, allocated in the order of the visits after
    the objects of [p], which are untouched; the first is the object of
    [node], with parent [last] and id [id]; every new object with a parent
    was allocated after it. *)
Definition shape_post (fp fn : string) (last : option ref) (p : parser)
    (node : ts_node) (id : string) (p' : parser) : Prop :=
  length (objs (_AST p')) = length (objs (_AST p)) + length (visited node) ∧
  (∀ k, k < length (objs (_AST p)) →
        objs (_AST p') !! k = objs (_AST p) !! k) ∧
  (∀ j node', visited node !! j = Some node' →
     built_at fn (objs (_AST p')) (length (objs (_AST p)) + j) node') ∧
  (∃ n, objs (_AST p') !! length (objs (_AST p)) = Some n ∧
        _parent n = last ∧ _id n = id) ∧
  (∀ k n q, length (objs (_AST p)) ≤ k → objs (_AST p') !! k = Some n →
             _parent n = Some q → q < k) ∧
  indexed p' ∧ ids_fresh fp p' ∧
  num_vertices (graph (_AST p')) =
    num_vertices (graph (_AST p)) + length (visited node).

(** [extends p p']: the vertex table is the same and the objects of [p']
    are those of [p], each with the same attributes and parent, and with
    the neighbours it had, possibly followed by more, all of weight 1 and
    all registered. *)
Definition extends (p p' : parser) : Prop :=
  graph (_AST p') = graph (_AST p) ∧
  length (objs (_AST p')) = length (objs (_AST p)) ∧
  ∀ k n, objs (_AST p) !! k = Some n →
    ∃ n', objs (_AST p') !! k = Some n' ∧
          set_adjacent [] n' = set_adjacent [] n ∧
          ∀ rs, _adjacent n = unit_weights rs →
                ∃ more, _adjacent n' = unit_weights (rs ++ more) ∧
                        ∀ r, r ∈ more →
                             ∃ x, vert_dict (graph (_AST p)) !! x = Some r.

(** ** [file_parser.py]: reading a node id back

    The two local functions of [_csv_features_to_vectors] that recover the
    kind and the text of a node from its id, with the string operations
    they use. *)

(** [s.find(sub)]; [None] stands for -1, and [sub in s] is [s.find(sub)]
    being found. *)
Fixpoint str_find (sub s : string) : option nat :=
  if String.prefix sub s then Some 0
  else match s with
       | EmptyString => None
       | String _ s' => S <$> str_find sub s'
       end.

(** [s[n:]] for a non-negative [n] *)
Fixpoint str_drop (n : nat) (s : string) : string :=
  match n, s with
  | S n', String _ s' => str_drop n' s'
  | _, _ => s
  end.

(** [s.split(sep)] for a non-empty [sep]: the pieces between the
    occurrences of [sep], found from left to right without overlap.  Each
    occurrence consumes a character at least, so that [fuel], the length of
    [s] plus one, is never exhausted. *)
Fixpoint split_fuel (fuel : nat) (sep s : string) : list string :=
  match fuel with
  | 0 => [s]
  | S fuel' =>
      match str_find sep s with
      | Some i =>
          str_take i s
            :: split_fuel fuel' sep (str_drop (i + String.length sep) s)
      | None => [s]
      end
  end.
Definition split (sep s : string) : list string :=
  split_fuel (S (String.length s)) sep s.

Definition newline : ascii := ascii_of_nat 10.

(** A character of the class [[0-9]]. *)
Definition is_digit (a : ascii) : bool :=
  bool_decide (48 ≤ nat_of_ascii a ≤ 57).

(** [[0-9]*$] matched against the whole of [t]: digits up to the end of the
    string, or up to a newline that is its last character. *)
Fixpoint digits_then_end (t : string) : bool :=
  match t with
  | EmptyString => true
  | String a t' =>
      if is_digit a then digits_then_end t'
      else bool_decide (a = newline ∧ t' = "")
  end.

(** [_[0-9]+$] matched against the whole of [t]. *)
Definition counter_suffix (t : string) : bool :=
  match t with
  | String a (String b t') =>
      bool_decide (a = "_"%char) && is_digit b && digits_then_end t'
  | _ => false
  end.

(** [re.match] of the pattern made of the two groups [.*] and [_[0-9]+$],
    as the matcher runs it: the greedy first group takes the longest prefix
    free of newlines after which the rest of [s] matches the second group,
    trying the prefix of length [n], then the shorter ones.  The result is
    the first group; [None] is no match. *)
Fixpoint re_match_counter_from (n : nat) (s : string) : option string :=
  if negb (str_in newline (str_take n s)) && counter_suffix (str_drop n s)
  then Some (str_take n s)
  else match n with
       | 0 => None
       | S n' => re_match_counter_from n' s
       end.
Definition re_match_counter (s : string) : option string :=
  re_match_counter_from (String.length s) s.

(** Every character of [t] is of the class [[0-9]]. *)
Fixpoint all_digits (t : string) : bool :=
  match t with
  | EmptyString => true
  | String a t' => is_digit a && all_digits t'
  end.

Definition get_node_text (node_id : string) : res string :=
  match str_find " | " node_id with
  | None => Ok ""
  | Some _ =>
      match split " | " node_id !! 1 with
      | None => Raise IndexError
      | Some piece =>
          match re_match_counter piece with
          | None => Ok piece
          | Some group => Ok group
          end
      end
  end.

Definition get_node_type (node_id : string) : res string :=
  match str_find " | " node_id with
  | None => Ok (slice_to_rfind "_" node_id)
  | Some _ =>
      match split " | " node_id !! 0 with
      | None => Raise IndexError
      | Some piece => Ok piece
      end
  end.

(** ** Trees that have what the walk indexes *)

Definition has_child (i : nat) (node : ts_node) : bool :=
  bool_decide (is_Some (ts_children node !! i)).

(** An import node sits under a statement that binds [import_path], and
    the children that [_handle_import] indexes exist; a [dotted_name] has a
    parent. *)
Definition import_ok (node : ts_node) (up : option ts_node) : bool :=
  if decide (ts_type node = "aliased_import") then
    match up with
    | None => false
    | Some p =>
        has_child 2 node &&
        (if decide (ts_type p = "import_from_statement")
         then has_child 1 p && has_child 0 node
         else if decide (ts_type p = "import_statement") then has_child 0 node
         else false)
    end
  else if decide (ts_type node = "dotted_name") then
    match up with
    | None => false
    | Some p =>
        if String.prefix "import" (ts_type p) then
          if decide (ts_type p = "import_from_statement") then has_child 1 p
          else bool_decide (ts_type p = "import_statement")
        else true
    end
  else true.

(** [node_ok node up]: the children that the statements of [_parse_node]
    index on [node], whose parent is [up], exist: the operator of a binary
    operator, the callee of a call, the name of a definition, and what an
    import needs. *)
Definition node_ok (node : ts_node) (up : option ts_node) : bool :=
  (if decide (ts_type node = "binary_operator") then has_child 1 node
   else true) &&
  (if decide (ts_type node = "call") then has_child 0 node else true) &&
  import_ok node up &&
  (if decide (ts_type node = "function_definition"
              ∨ ts_type node = "class_definition")
   then has_child 1 node else true).

(** [node_ok] for [node] and for every node visited below it. *)
Fixpoint tree_ok (node : ts_node) (up : option ts_node) : bool :=
  match node with
  | TSNode _ _ _ _ _ children =>
      node_ok node up &&
      forallb (λ c, if ts_is_named c then tree_ok c (Some node) else true)
        children
  end.

(** The frames that [_call_to_import] is sure to find enough for the call
    that [node] is, if it is one that is handled: one more than the callee
    text has characters. *)
Definition call_frames (B : list string) (node : ts_node) : nat :=
  match handled_callee B node with
  | Some g => S (String.length g)
  | None => 0
  end.

(** [frames own node]: one frame for each level of the tree under [node],
    named children only, and, on top of the level of each node, the [own]
    frames of that node. *)
Fixpoint frames (own : ts_node → nat) (node : ts_node) : nat :=
  match node with
  | TSNode _ _ _ _ _ children =>
      S (own node `max`
         max_list_with (λ c, if ts_is_named c then frames own c else 0)
           children)
  end.

(** [last_ok p last]: the object [last], if any, is in the heap and its id
    is registered. *)
Definition last_ok (p : parser) (last : option ref) : Prop :=
  ∀ l, last = Some l →
       ∃ n, objs (_AST p) !! l = Some n ∧ registered (_AST p) (_id n).

(** [keeps p p']: what is registered in [p] is registered in [p'], and the
    objects of [p] are in [p'], with their ids. *)
Definition keeps (p p' : parser) : Prop :=
  (∀ x, registered (_AST p) x → registered (_AST p') x) ∧
  (∀ k n, objs (_AST p) !! k = Some n →
          ∃ n', objs (_AST p') !! k = Some n' ∧ _id n' = _id n).

(** * Properties *)

(** ** Insertion-ordered dictionaries *)
Section pydict_facts.
Context {K V : Type} `{EqDecision K}.
Implicit Types (k : K) (v : V) (d : list (K * V)).

Lemma get_set_eq k v d : PyDict.get k (PyDict.set k v d) = Some v.
Proof.
  induction d as [|[k' v'] d IH]; simpl.
  - by rewrite decide_True.
  - destruct (decide (k = k')) as [->|Hne]; simpl.
    + by rewrite decide_True.
    + by rewrite decide_False.
Qed.

Lemma get_set_ne k k' v d :
  k ≠ k' → PyDict.get k' (PyDict.set k v d) = PyDict.get k' d.
Proof.
  intros Hne. induction d as [|[k0 v0] d IH]; simpl.
  - by rewrite decide_False.
  - destruct (decide (k = k0)) as [->|Hne0]; simpl.
    + by rewrite !decide_False.
    + by rewrite IH.
Qed.

Lemma get_Some_elem_of k v d : PyDict.get k d = Some v → (k, v) ∈ d.
Proof.
  induction d as [|[k' v'] d IH]; simpl; [done|].
  destruct (decide (k = k')) as [->|Hne].
  - intros [= ->]. left.
  - intros Hg. right. by apply IH.
Qed.

Lemma get_None_key k d : PyDict.get k d = None ↔ k ∉ PyDict.keys d.
Proof.
  unfold PyDict.keys. induction d as [|[k' v'] d IH]; simpl.
  - split; [intros _; apply not_elem_of_nil|done].
  - rewrite not_elem_of_cons. destruct (decide (k = k')) as [->|Hne].
    + split; [done|]. by intros [? _].
    + rewrite IH. tauto.
Qed.

Lemma key_get_is_Some k d : k ∈ PyDict.keys d → is_Some (PyDict.get k d).
Proof.
  intros Hk. destruct (PyDict.get k d) eqn:Hg; [by eexists|].
  by apply get_None_key in Hg.
Qed.

Lemma get_Some_key k v d : PyDict.get k d = Some v → k ∈ PyDict.keys d.
Proof.
  intros Hg. destruct (decide (k ∈ PyDict.keys d)) as [|Hn]; [done|].
  apply get_None_key in Hn. congruence.
Qed.

Lemma keys_set_elem_of k v d k' :
  k' ∈ PyDict.keys (PyDict.set k v d) ↔ k' = k ∨ k' ∈ PyDict.keys d.
Proof.
  unfold PyDict.keys. induction d as [|[k0 v0] d IH]; simpl.
  - rewrite list_elem_of_singleton. split; [auto|].
    intros [?|?%elem_of_nil]; done.
  - destruct (decide (k = k0)) as [->|Hne]; simpl.
    + rewrite !elem_of_cons. tauto.
    + rewrite !elem_of_cons, IH. tauto.
Qed.
End pydict_facts.

(** ** The accessors of [Node] *)

(** C10: the accessors [text], [type] and [var_name] of a node never return
    the absent marker; each returns the stored string, and the empty string
    when the field is unset. *)
Theorem accessors_return_strings (n : Node) :
  text n = Some (default "" (_text n)) ∧
  type n = Some (default "" (_type n)) ∧
  var_name n = Some (default "" (_var_name n)) ∧
  text n ≠ None ∧ type n ≠ None ∧ var_name n ≠ None ∧
  text (set_text None n) = Some "" ∧
  type (Node_init (_id n) (_start n) (_end n) (_file n) (_text n) None
          (_var_name n) (_parent n)) = Some "" ∧
  var_name (set_var_name None n) = Some "".
Proof.
  unfold text, type, var_name.
  destruct n as [i s e f [[|a t]|] [[|b y]|] [[|c v]|] adj p]; simpl;
    repeat split; done.
Qed.

(** ** Running the monad *)

Ltac unfold_M :=
  cbv [bind ret gets modify raise deref or_raise read on_AST]; simpl.

Lemma bind_Ok {S A B} (m : M (S := S) A) (k : A → M B) s a s' :
  m s = (Ok a, s') → bind m k s = k a s'.
Proof. unfold bind. by intros ->. Qed.

Lemma bind_Raise {S A B} (m : M (S := S) A) (k : A → M B) s e s' :
  m s = (Raise e, s') → bind m k s = (Raise e, s').
Proof. unfold bind. by intros ->. Qed.

Lemma bind_inv_Ok {S A B} (m : M (S := S) A) (k : A → M B) s b s2 :
  bind m k s = (Ok b, s2) → ∃ a s1, m s = (Ok a, s1) ∧ k a s1 = (Ok b, s2).
Proof.
  unfold bind. destruct (m s) as [[a|e] s1]; [|done]. intros Hk. eauto.
Qed.

(** ** [Graph.add_vertex] *)

(** C4, as the claim states it, fails: a second object whose id is already
    registered is accepted by [add_vertex]. *)
Lemma add_vertex_duplicate_accepted :
  ¬ (∀ (s : store) (node r0 : ref) (n : Node),
       objs s !! node = Some n →
       vert_dict (graph s) !! _id n = Some r0 → r0 ≠ node →
       ∃ e, (add_vertex node s).1 = Raise e).
Proof.
  intros H.
  destruct (H twin_store 1 0 (twin None)) as [e He]; [done..|].
  vm_compute in He. discriminate.
Qed.

(** C4, amended: [add_vertex] fails only for a parent that is not
    registered.  With an id that is already registered it returns the id,
    makes the id designate the new object in place of the old one, leaves
    every other id alone and counts one more vertex. *)
Theorem add_vertex_overwrites (s : store) (node r0 : ref) (n : Node) :
  objs s !! node = Some n →
  vert_dict (graph s) !! _id n = Some r0 →
  match _parent n with
  | Some p => ∃ pn, objs s !! p = Some pn ∧
                    is_Some (vert_dict (graph s) !! _id pn)
  | None => True
  end →
  ∃ s', add_vertex node s = (Ok (_id n), s') ∧
        objs s' = objs s ∧
        vert_dict (graph s') !! _id n = Some node ∧
        (∀ id, id ≠ _id n →
           vert_dict (graph s') !! id = vert_dict (graph s) !! id) ∧
        num_vertices (graph s') = num_vertices (graph s) + 1.
Proof.
  intros Hn _ Hp. unfold add_vertex. unfold_M. rewrite Hn. simpl.
  destruct (_parent n) as [p|].
  - destruct Hp as (pn & Hpn & Hreg). rewrite Hpn. simpl.
    rewrite decide_True by done. simpl.
    eexists. split; [done|]. simpl. split_and!; [done| |intros; simpl|done].
    + apply lookup_insert_eq.
    + by apply lookup_insert_ne.
  - simpl. eexists. split; [done|]. simpl.
    split_and!; [done| |intros; simpl|done].
    + apply lookup_insert_eq.
    + by apply lookup_insert_ne.
Qed.

Lemma add_vertex_overwrites_witness :
  ∃ s', add_vertex 1 twin_store = (Ok "a", s') ∧
        objs s' = objs twin_store ∧
        vert_dict (graph s') !! "a" = Some 1 ∧
        (∀ id, id ≠ "a" →
           vert_dict (graph s') !! id = vert_dict (graph twin_store) !! id) ∧
        num_vertices (graph s') = 2.
Proof.
  exact (add_vertex_overwrites twin_store 1 0 (twin None)
           eq_refl eq_refl I).
Defined.

(** ** [Graph.delete_graph] *)

Lemma foldl_clear_length (l : list (string * ref)) (h : heap) :
  length (foldl (λ h' kv, alter clear_node kv.2 h') h l) = length h.
Proof.
  revert h. induction l as [|kv l IH]; intros h; simpl; [done|].
  by rewrite IH, length_alter.
Qed.

Lemma foldl_clear_lookup (l : list (string * ref)) (h : heap) (r : ref) :
  foldl (λ h' kv, alter clear_node kv.2 h') h l !! r =
    if decide (r ∈ l.*2) then clear_node <$> h !! r else h !! r.
Proof.
  revert h. induction l as [|[k r'] l IH]; intros h; csimpl; [done|].
  rewrite IH, list_lookup_alter.
  destruct (decide (r ∈ l.*2)), (decide (r ∈ r' :: l.*2)) as [|Hn],
    (decide (r' = r)); subst; try done;
    try (by destruct (h !! _));
    exfalso; rewrite ?elem_of_cons in *; intuition congruence.
Qed.

(** C8: after [delete_graph], every object that was registered in the
    vertex table has no parent and an empty adjacency dictionary, the vertex
    table is empty and the vertex counter is zero. *)
Theorem delete_graph_clears (s : store) :
  ∃ s', delete_graph s = (Ok tt, s') ∧
        vert_dict (graph s') = ∅ ∧
        num_vertices (graph s') = 0 ∧
        length (objs s') = length (objs s) ∧
        ∀ id r n, vert_dict (graph s) !! id = Some r →
                  objs s !! r = Some n →
                  ∃ n', objs s' !! r = Some n' ∧
                        _parent n' = None ∧ _adjacent n' = [] ∧
                        get_connections n' = [].
Proof.
  unfold delete_graph. unfold_M. eexists. split; [done|]. simpl.
  split_and!; [done|done|apply foldl_clear_length|].
  intros id r n Hreg Hn. rewrite foldl_clear_lookup.
  rewrite decide_True.
  - rewrite Hn. simpl. eexists. split; [done|]. done.
  - apply list_elem_of_fmap. exists (id, r). split; [done|].
    by apply elem_of_map_to_list.
Qed.

Lemma delete_graph_clears_witness :
  ∃ s', delete_graph family_store = (Ok tt, s') ∧
        vert_dict (graph s') = ∅ ∧ num_vertices (graph s') = 0 ∧
        ∃ n', objs s' !! 0 = Some n' ∧ _parent n' = None ∧ _adjacent n' = [].
Proof.
  destruct (delete_graph_clears family_store) as (s' & Hrun & Hvd & Hnum & _ & Hall).
  exists s'. split_and!; [done..|].
  destruct (Hall "r" 0 _ eq_refl eq_refl) as (n' & Hn' & Hp & Ha & _).
  by exists n'.
Defined.

(** ** Long walks in a finite heap run into a cycle *)

Section paths.
Context (R : ref → ref → Prop).

Lemma is_path_split x l1 y l2 :
  is_path R x (l1 ++ y :: l2) → tc R x y ∧ is_path R y l2.
Proof.
  revert x. induction l1 as [|a l1 IH]; intros x; simpl.
  - intros [Hxy Hp]. split; [by apply tc_once|done].
  - intros [Hxa Hp]. destruct (IH _ Hp) as [Hay Hp']. split; [|done].
    by eapply tc_l.
Qed.

Lemma is_path_bound (n : nat) x p :
  (∀ a b, R a b → b < n) → is_path R x p → Forall (λ y, y < n) p.
Proof.
  intros Hb. revert x. induction p as [|y p IH]; intros x; simpl; [done|].
  intros [Hxy Hp]. constructor; [by eapply Hb|by eapply IH].
Qed.

Lemma not_NoDup_split (l : list ref) :
  ¬ NoDup l → ∃ l1 y l2 l3, l = l1 ++ y :: l2 ++ y :: l3.
Proof.
  induction l as [|a l IH]; intros Hnd.
  - destruct Hnd. constructor.
  - destruct (decide (a ∈ l)) as [Hin|Hin].
    + apply list_elem_of_split in Hin as (l2 & l3 & ->).
      by exists [], a, l2, l3.
    + destruct IH as (l1 & y & l2 & l3 & ->).
      { intros Hl. apply Hnd. by constructor. }
      by exists (a :: l1), y, l2, l3.
Qed.

Lemma bounded_NoDup_length (n : nat) (l : list ref) :
  Forall (λ y, y < n) l → NoDup l → length l ≤ n.
Proof.
  intros Hb Hnd. trans (length (seq 0 n)); [|by rewrite length_seq].
  apply submseteq_length, NoDup_submseteq; [done|].
  intros y Hy. rewrite Forall_forall in Hb. apply elem_of_seq.
  specialize (Hb y Hy). lia.
Qed.

(** A walk of [n] steps among objects below [n] passes twice through one
    of them. *)
Lemma long_path_cycle (n : nat) x p :
  (∀ a b, R a b → b < n) → x < n → is_path R x p → n ≤ length p →
  ∃ y, rtc R x y ∧ tc R y y.
Proof.
  intros Hb Hx Hp Hlen.
  destruct (not_NoDup_split (x :: p)) as (l1 & y & l2 & l3 & Heq).
  { intros Hnd. apply (bounded_NoDup_length n) in Hnd.
    - simpl in Hnd. lia.
    - constructor; [done|]. by eapply is_path_bound. }
  exists y. destruct l1 as [|a l1]; simplify_eq/=.
  - split; [done|]. by apply is_path_split in Hp as [? _].
  - apply is_path_split in Hp as [Hxy Hp].
    apply is_path_split in Hp as [Hyy _].
    split; [by apply tc_rtc|done].
Qed.
End paths.

(** ** [Graph.get_highest_attribute] *)

Lemma attr_parent_bound h a b : attr_parent h a b → b < length h.
Proof. intros (n & pn & _ & _ & Hb & _). by eapply lookup_lt_Some. Qed.

Lemma climb_spec (steps : nat) (h : heap) (x : ref) :
  heap_closed h → x < length h →
  match climb steps h x with
  | Ok r => rtc (attr_parent h) x r ∧ ∀ y, ¬ attr_parent h r y
  | Raise e => ∃ p, length p = S steps ∧ is_path (attr_parent h) x p
  end.
Proof.
  intros Hcl. revert x. induction steps as [|k IH]; intros x Hx.
  all: destruct (lookup_lt_is_Some_2 h x Hx) as [n Hn].
  all: destruct (_parent n) as [p|] eqn:Hp.
  all: try (assert (p < length h) as Hlt by (by eapply (Hcl x n)));
       try (destruct (lookup_lt_is_Some_2 h p Hlt) as [pn Hpn]).
  all: simpl; rewrite Hn, Hp, ?Hpn.
  all: try destruct (decide (type pn = Some "attribute")) as [Hty|Hty].
  - exists [p]. split; [done|]. simpl. split; [|done]. by exists n, pn.
  - split; [done|]. intros y (n' & pn' & ? & ? & ? & ?). simplify_eq.
  - split; [done|]. intros y (n' & pn' & ? & ? & ? & ?). simplify_eq.
  - assert (attr_parent h x p) as Hxp by (by exists n, pn).
    specialize (IH p Hlt). destruct (climb k h p) as [r|e].
    + destruct IH as [Hr Hstop]. split; [by eapply rtc_l|done].
    + destruct IH as (q & Hlen & Hq). exists (p :: q). simpl.
      split; [by rewrite Hlen|done].
  - split; [done|]. intros y (n' & pn' & ? & ? & ? & ?). simplify_eq.
  - split; [done|]. intros y (n' & pn' & ? & ? & ? & ?). simplify_eq.
Qed.

(** C7, amended: for a registered id above which the chain of [attribute]
    parents runs into no cycle, [get_highest_attribute] follows the parent
    links upward as long as the parent is an [attribute] node and returns
    the node where that walk stops, the highest of the chain; a node without
    a parent yields [None]. *)
Theorem get_highest_attribute_spec (s : store) (id : string) (node : ref) (n : Node) :
  heap_closed (objs s) →
  acyclic_from (attr_parent (objs s)) node →
  vert_dict (graph s) !! id = Some node →
  objs s !! node = Some n →
  ∃ result, get_highest_attribute id s = (Ok result, s) ∧
    match _parent n with
    | None => result = None
    | Some _ => ∃ r, result = Some r ∧
                     rtc (attr_parent (objs s)) node r ∧
                     ∀ y, ¬ attr_parent (objs s) r y
    end.
Proof.
  intros Hcl Hac Hid Hn. unfold get_highest_attribute. unfold_M.
  rewrite Hid. simpl. rewrite Hn. simpl.
  destruct (_parent n) as [p|] eqn:Hp; [|by eexists].
  assert (node < length (objs s)) as Hlt by (by eapply lookup_lt_Some).
  pose proof (climb_spec (length (objs s)) (objs s) node Hcl Hlt) as Hc.
  destruct (climb (length (objs s)) (objs s) node) as [r|e].
  - eexists. split; [done|]. by exists r.
  - exfalso. destruct Hc as (q & Hlen & Hq).
    destruct (long_path_cycle (attr_parent (objs s)) (length (objs s)) node q)
      as (y & Hy & Hyy); [apply attr_parent_bound|done|done|lia|].
    by apply (Hac y).
Qed.

(** ** Checking the side conditions on a concrete heap *)

Lemma heap_closed_b_sound h : heap_closed_b h = true → heap_closed h.
Proof.
  unfold heap_closed_b. rewrite <-Is_true_true, forallb_True, Forall_forall.
  intros Hall a n Hn.
  specialize (Hall n (list_elem_of_lookup_2 _ _ _ Hn)).
  apply andb_True in Hall as [Hadj Hpar]. split.
  - intros b Hb. rewrite forallb_True, Forall_forall in Hadj.
    specialize (Hadj b Hb). by apply bool_decide_unpack in Hadj.
  - intros p Hp. rewrite Hp in Hpar. by apply bool_decide_unpack in Hpar.
Qed.

Lemma imap_pair_elem_of {A} (l : list A) a x :
  l !! a = Some x → (a, x) ∈ imap pair l.
Proof. intros Hl. apply elem_of_lookup_imap. eauto. Qed.

Lemma tc_decreasing (R : ref → ref → Prop) x y :
  (∀ a b, R a b → b < a) → tc R x y → y < x.
Proof.
  intros Hdec. induction 1 as [x y Hxy|x y z Hxy _ IH].
  - by apply Hdec.
  - apply Hdec in Hxy. lia.
Qed.

Lemma tc_increasing (R : ref → ref → Prop) x y :
  (∀ a b, R a b → a < b) → tc R x y → x < y.
Proof.
  intros Hinc. induction 1 as [x y Hxy|x y z Hxy _ IH].
  - by apply Hinc.
  - apply Hinc in Hxy. lia.
Qed.

Lemma parents_older_acyclic h r :
  parents_older_b h = true → acyclic_from (attr_parent h) r.
Proof.
  unfold parents_older_b. rewrite <-Is_true_true, forallb_True, Forall_forall.
  intros Hall x _ Hxx. apply (tc_decreasing _ x x) in Hxx; [lia|].
  intros a b (n & pn & Hn & Hp & _).
  specialize (Hall (a, n) (imap_pair_elem_of _ _ _ Hn)). simpl in Hall.
  rewrite Hp in Hall. by apply bool_decide_unpack in Hall.
Qed.

Lemma edges_forward_acyclic h r :
  edges_forward_b h = true → acyclic_from (edge h) r.
Proof.
  unfold edges_forward_b. rewrite <-Is_true_true, forallb_True, Forall_forall.
  intros Hall x _ Hxx. apply (tc_increasing _ x x) in Hxx; [lia|].
  intros a b (n & Hn & Hb).
  specialize (Hall (a, n) (imap_pair_elem_of _ _ _ Hn)). simpl in Hall.
  rewrite forallb_True, Forall_forall in Hall.
  specialize (Hall b Hb). by apply bool_decide_unpack in Hall.
Qed.

(** C7, as the claim states it, fails: not every registered id gets an
    answer.  The two objects of [attribute_loop] are registered, each is an
    [attribute] node and the parent of the other (the state after
    [x.parent = y], with [y] created as a child of [x]), and the loop of
    [get_highest_attribute] does not end on them, however many iterations
    it is given. *)
Lemma get_highest_attribute_parent_loop :
  vert_dict (graph attribute_loop) !! "x" = Some 0 ∧
  (∀ steps, climb steps (objs attribute_loop) 0 = Raise NonTermination) ∧
  ¬ (∀ (s : store) (id : string) (node : ref) (n : Node),
       heap_closed (objs s) →
       vert_dict (graph s) !! id = Some node →
       objs s !! node = Some n →
       ∃ result, (get_highest_attribute id s).1 = Ok result).
Proof.
  split_and!.
  - reflexivity.
  - assert (∀ steps,
      climb steps (objs attribute_loop) 0 = Raise NonTermination ∧
      climb steps (objs attribute_loop) 1 = Raise NonTermination) as Hloop.
    { induction steps as [|k [IH0 IH1]]; split; simpl;
        first [done|exact IH0|exact IH1]. }
    intros steps. apply Hloop.
  - intros H.
    destruct (H attribute_loop "x" 0
                (mkNode "x" (0, 0) (0, 0) "f.py" None (Some "attribute") None
                   [] (Some 1))) as [result Hresult].
    + by apply heap_closed_b_sound.
    + reflexivity.
    + reflexivity.
    + vm_compute in Hresult. discriminate.
Qed.

Lemma get_highest_attribute_spec_witness :
  ∃ result,
    get_highest_attribute "identifier | x_0" attribute_chain
      = (Ok result, attribute_chain) ∧
    ∃ r, result = Some r ∧
         rtc (attr_parent (objs attribute_chain)) 3 r ∧
         ∀ y, ¬ attr_parent (objs attribute_chain) r y.
Proof.
  exact (get_highest_attribute_spec attribute_chain "identifier | x_0" 3 _
           (heap_closed_b_sound (objs attribute_chain) eq_refl)
           (parents_older_acyclic (objs attribute_chain) 3 eq_refl)
           eq_refl eq_refl).
Defined.

(** ** [Node.get_descendants] *)

Lemma edge_bound h a b : heap_closed h → edge h a b → b < length h.
Proof. intros Hcl (n & Hn & Hb). destruct (Hcl a n Hn) as [Hadj _]. auto. Qed.

Lemma tc_first_step {A} (R : relation A) x y :
  tc R x y ↔ ∃ z, R x z ∧ rtc R z y.
Proof.
  split.
  - destruct 1 as [x y Hxy|x z y Hxz Hzy]; [by exists y|].
    exists z. split; [done|]. by apply tc_rtc.
  - intros (z & Hxz & Hzy). eapply tc_rtc_r; [by apply tc_once|done].
Qed.

Lemma descendants_loop_Ok rec ns acc l :
  descendants_loop rec ns acc = Ok l →
  ∃ lss, Forall2 (λ nb ds, rec nb = Ok ds) ns lss ∧
         l = acc ++ concat (zip_with cons ns lss).
Proof.
  revert acc. induction ns as [|nb ns IH]; intros acc; simpl.
  - intros [= <-]. exists []. split; [constructor|]. by rewrite app_nil_r.
  - destruct (rec nb) as [ds|e] eqn:Hnb; [|done]. intros Hl.
    destruct (IH _ Hl) as (lss & Hall & ->). exists (ds :: lss).
    split; [by constructor|]. simpl. by rewrite <-app_assoc.
Qed.

Lemma descendants_loop_Raise rec ns acc e :
  descendants_loop rec ns acc = Raise e → ∃ nb, nb ∈ ns ∧ rec nb = Raise e.
Proof.
  revert acc. induction ns as [|nb ns IH]; intros acc; simpl; [done|].
  destruct (rec nb) as [ds|e'] eqn:Hnb.
  - intros Hl. destruct (IH _ Hl) as (z & Hz & Hr). exists z.
    split; [by right|done].
  - intros [= ->]. exists nb. split; [left|done].
Qed.

Lemma descendants_loop_complete rec ns acc lss :
  Forall2 (λ nb ds, rec nb = Ok ds) ns lss →
  descendants_loop rec ns acc = Ok (acc ++ concat (zip_with cons ns lss)).
Proof.
  intros Hall. revert acc.
  induction Hall as [|nb ds ns lss Hnb _ IH]; intros acc; simpl.
  - by rewrite app_nil_r.
  - rewrite Hnb, IH. by rewrite <-app_assoc.
Qed.

Lemma descendants_loop_stuck rec ns acc z :
  (∀ nb e, nb ∈ ns → rec nb = Raise e → e = RecursionError) →
  z ∈ ns → rec z = Raise RecursionError →
  descendants_loop rec ns acc = Raise RecursionError.
Proof.
  intros Hexn Hz Hrz. revert acc.
  induction ns as [|nb ns IH]; intros acc; simpl.
  - by apply elem_of_nil in Hz.
  - destruct (rec nb) as [ds|e] eqn:Hnb.
    + apply IH.
      * intros nb' e' Hin. apply Hexn. by right.
      * apply elem_of_cons in Hz as [->|Hz]; [congruence|done].
    + f_equal. eapply Hexn; [left|done].
Qed.

Lemma get_descendants_mono depth depth' h x l :
  depth ≤ depth' → get_descendants depth h x = Ok l →
  get_descendants depth' h x = Ok l.
Proof.
  revert depth' x l. induction depth as [|d IH]; intros depth' x l Hle; [done|].
  destruct depth' as [|d']; [lia|]. simpl.
  destruct (h !! x) as [n|]; [|done]. intros Hl.
  apply descendants_loop_Ok in Hl as (lss & Hall & ->).
  apply descendants_loop_complete.
  eapply Forall2_impl; [done|]. simpl. intros nb ds. apply IH. lia.
Qed.

Lemma get_descendants_Raise depth h x e :
  heap_closed h → x < length h →
  get_descendants depth h x = Raise e →
  e = RecursionError ∧ ∃ p, length p = depth ∧ is_path (edge h) x p.
Proof.
  intros Hcl. revert x. induction depth as [|d IH]; intros x Hx; simpl.
  - intros [= <-]. split; [done|]. by exists [].
  - destruct (lookup_lt_is_Some_2 h x Hx) as [n Hn]. rewrite Hn.
    intros (nb & Hnb & Hr)%descendants_loop_Raise.
    assert (edge h x nb) as Hedge by (by exists n).
    destruct (IH nb (edge_bound _ _ _ Hcl Hedge) Hr) as (-> & p & Hlen & Hp).
    split; [done|]. exists (nb :: p). simpl. split; [by rewrite Hlen|done].
Qed.

Lemma zip_with_cons_dfs_forest h ns lss :
  Forall2 (dfs h) ns lss → dfs_forest h ns (concat (zip_with cons ns lss)).
Proof.
  induction 1 as [|nb ds ns lss Hnb _ IH]; simpl; [constructor|].
  by constructor.
Qed.

Lemma get_descendants_dfs depth h x l :
  get_descendants depth h x = Ok l → dfs h x l.
Proof.
  revert x l. induction depth as [|d IH]; intros x l; simpl; [done|].
  destruct (h !! x) as [n|] eqn:Hn; [|done].
  intros (lss & Hall & ->)%descendants_loop_Ok. simpl.
  econstructor; [done|]. apply zip_with_cons_dfs_forest.
  eapply Forall2_impl; [done|]. apply IH.
Qed.

Lemma elem_of_concat_zip_cons (ns : list ref) (lss : list (list ref)) y :
  length ns = length lss →
  y ∈ concat (zip_with cons ns lss) ↔
  ∃ i nb ds, ns !! i = Some nb ∧ lss !! i = Some ds ∧ (y = nb ∨ y ∈ ds).
Proof.
  revert lss. induction ns as [|nb ns IH]; intros [|ds lss] Hlen;
    simplify_eq/=.
  - split; [by intros ?%elem_of_nil|]. by intros (i & ? & ? & ? & _).
  - rewrite elem_of_cons, elem_of_app, (IH lss) by done. split.
    + intros [->|[Hy|(i & nb' & ds' & H1 & H2 & H3)]].
      * exists 0, nb, ds. auto.
      * exists 0, nb, ds. auto.
      * exists (S i), nb', ds'. auto.
    + intros ([|i] & nb' & ds' & H1 & H2 & H3); simplify_eq/=.
      * destruct H3; auto.
      * right; right. by exists i, nb', ds'.
Qed.

Lemma get_descendants_reach depth h x l :
  get_descendants depth h x = Ok l → ∀ y, y ∈ l ↔ tc (edge h) x y.
Proof.
  revert x l. induction depth as [|d IH]; intros x l; simpl; [done|].
  destruct (h !! x) as [n|] eqn:Hn; [|done].
  intros (lss & Hall & ->)%descendants_loop_Ok y. simpl.
  rewrite elem_of_concat_zip_cons by (by eapply Forall2_length).
  rewrite tc_first_step. split.
  - intros (i & nb & ds & Hnb & Hds & Hy).
    exists nb. split.
    { exists n. split; [done|]. by eapply list_elem_of_lookup_2. }
    pose proof (Forall2_lookup_lr _ _ _ _ _ _ Hall Hnb Hds) as Hrec.
    destruct Hy as [->|Hy]; [done|].
    apply tc_rtc. by apply (IH _ _ Hrec).
  - intros (z & (n' & Hn' & Hz) & Hzy). simplify_eq.
    apply list_elem_of_lookup_1 in Hz as [i Hi].
    destruct (Forall2_lookup_l _ _ _ _ _ Hall Hi) as (ds & Hds & Hrec).
    exists i, z, ds. split_and!; [done..|].
    apply rtc_tc in Hzy as [->|Hzy]; [by left|].
    right. by apply (IH _ _ Hrec).
Qed.

Lemma get_descendants_cycle depth h x :
  heap_closed h → x < length h →
  (∃ y, rtc (edge h) x y ∧ tc (edge h) y y) →
  get_descendants depth h x = Raise RecursionError.
Proof.
  intros Hcl. revert x. induction depth as [|d IH]; intros x Hx Hcyc; [done|].
  simpl. destruct (lookup_lt_is_Some_2 h x Hx) as [n Hn]. rewrite Hn.
  assert (∃ z, edge h x z ∧ ∃ y, rtc (edge h) z y ∧ tc (edge h) y y)
    as (z & Hxz & Hz).
  { destruct Hcyc as (y & Hxy & Hyy).
    apply rtc_tc in Hxy as [->|Hxy].
    - pose proof Hyy as Hyy'. apply tc_first_step in Hyy' as (z & Hyz & Hzy).
      exists z. split; [done|]. by exists y.
    - apply tc_first_step in Hxy as (z & Hxz & Hzy).
      exists z. split; [done|]. by exists y. }
  pose proof Hxz as (n' & Hn' & Hzin). simplify_eq.
  apply (descendants_loop_stuck _ _ _ z); [|done|].
  - intros nb e Hnb Hr.
    assert (edge h x nb) as Hedge by (by exists n).
    by apply (get_descendants_Raise d h nb e Hcl (edge_bound _ _ _ Hcl Hedge)).
  - apply IH; [|done]. by eapply edge_bound.
Qed.

(** C9: from a node whose reachable part of the graph has no cycle,
    [get_descendants] returns, and lists in depth-first order exactly the
    nodes reachable through one or more outgoing edges; when a cycle is
    reachable the recursion never returns a list, whatever depth it is
    given. *)
Theorem get_descendants_acyclic (h : heap) (r : ref) :
  heap_closed h → r < length h →
  (acyclic_from (edge h) r →
   ∃ l, (∀ depth, length h ≤ depth → get_descendants depth h r = Ok l) ∧
        dfs h r l ∧ ∀ y, y ∈ l ↔ tc (edge h) r y) ∧
  ((∃ x, rtc (edge h) r x ∧ tc (edge h) x x) →
   ∀ depth, get_descendants depth h r = Raise RecursionError).
Proof.
  intros Hcl Hr. split.
  - intros Hac.
    destruct (get_descendants (length h) h r) as [l|e] eqn:Hrun.
    + exists l. split_and!.
      * intros depth Hle. by eapply get_descendants_mono.
      * by eapply get_descendants_dfs.
      * by eapply get_descendants_reach.
    + exfalso.
      apply get_descendants_Raise in Hrun as (_ & p & Hlen & Hp); [|done..].
      destruct (long_path_cycle (edge h) (length h) r p) as (y & Hy & Hyy);
        [intros a b; by apply edge_bound|done|done|lia|].
      by apply (Hac y).
  - intros Hcyc depth. by apply get_descendants_cycle.
Qed.

Lemma get_descendants_acyclic_witness :
  (∃ l, (∀ depth, length diamond ≤ depth →
           get_descendants depth diamond 0 = Ok l) ∧
        dfs diamond 0 l ∧ ∀ y, y ∈ l ↔ tc (edge diamond) 0 y) ∧
  get_descendants 4 diamond 0 = Ok [1; 3; 2; 3].
Proof.
  split; [|reflexivity].
  apply (get_descendants_acyclic diamond 0
           (heap_closed_b_sound diamond eq_refl)).
  - simpl. lia.
  - apply (edges_forward_acyclic diamond 0 eq_refl).
Defined.

(** ** [_call_to_import] and the dotted prefixes *)

Lemma str_in_rfind c s : str_in c s = true ↔ is_Some (rfind c s).
Proof.
  induction s as [|a s IH]; simpl.
  - split; [done|]. by intros [? ?].
  - destruct (decide (a = c)) as [->|Hne].
    + split; [|done]. intros _. destruct (rfind c s); by eexists.
    + rewrite IH. destruct (rfind c s); [done|].
      split; intros [? ?]; done.
Qed.

Lemma positions_rfind c s :
  positions c s =
    match rfind c s with
    | Some i => positions c (str_take i s) ++ [i]
    | None => []
    end.
Proof.
  induction s as [|a s IH]; simpl; [done|].
  rewrite IH. destruct (rfind c s) as [i|]; simpl.
  - rewrite fmap_app, app_assoc. done.
  - destruct (decide (a = c)); done.
Qed.

Lemma length_str_take i s : String.length (str_take i s) ≤ i.
Proof.
  revert s. induction i as [|i IH]; intros [|a s]; simpl; try lia.
  specialize (IH s). lia.
Qed.

Lemma str_take_take j i s :
  j ≤ i → str_take j (str_take i s) = str_take j s.
Proof.
  revert i s. induction j as [|j IH]; intros [|i] [|a s] Hle; simpl;
    try done; try lia.
  rewrite IH; [done|lia].
Qed.

Lemma positions_lt c s j : j ∈ positions c s → j < String.length s.
Proof.
  revert j. induction s as [|a s IH]; intros j; simpl.
  - by intros ?%elem_of_nil.
  - rewrite elem_of_app, list_elem_of_fmap.
    intros [Hj|(k & -> & Hk)].
    + destruct (decide (a = c)); [|by apply elem_of_nil in Hj].
      apply list_elem_of_singleton in Hj as ->. lia.
    + specialize (IH k Hk). lia.
Qed.

Lemma rfind_lt c s i : rfind c s = Some i → i < String.length s.
Proof.
  intros Hr. apply (positions_lt c). rewrite positions_rfind, Hr.
  apply elem_of_app. right. by apply list_elem_of_singleton.
Qed.

Lemma length_slice_to_rfind c s :
  str_in c s = true →
  String.length (slice_to_rfind c s) < String.length s.
Proof.
  intros [i Hi]%str_in_rfind. unfold slice_to_rfind. rewrite Hi.
  pose proof (length_str_take i s). pose proof (rfind_lt c s i Hi). lia.
Qed.

(** The candidates of a name are the name and, when it has a dot, the
    candidates of what precedes its last dot. *)
Lemma dotted_prefixes_unfold s :
  dotted_prefixes s =
    s :: (if str_in "." s then dotted_prefixes (slice_to_rfind "." s) else []).
Proof.
  unfold dotted_prefixes, slice_to_rfind. f_equal.
  rewrite (positions_rfind "." s).
  destruct (str_in "." s) eqn:Hin.
  - apply str_in_rfind in Hin as [i Hi]. rewrite Hi.
    rewrite reverse_app. simpl. f_equal.
    apply list_fmap_ext. intros k j Hj%list_elem_of_lookup_2.
    rewrite str_take_take; [done|].
    apply elem_of_reverse, positions_lt in Hj.
    pose proof (length_str_take i s). lia.
  - destruct (rfind "." s) eqn:Hr; [|done].
    assert (str_in "." s = true) by (apply str_in_rfind; eauto). congruence.
Qed.

(** C2: [_call_to_import] never raises; it tries the callee name and then
    each shorter dotted prefix, and queues one edge from the call to the
    import node of the first candidate bound in the file's imports; when no
    candidate is bound the parser is left as it was. *)
Theorem call_to_import_resolves (fp : string) (depth : nat)
    (function_call id : string) (p : parser) :
  String.length function_call < depth →
  _call_to_import fp depth function_call id p =
    (Ok tt,
     match first_bound (default ∅ (_imports p !! fp))
                       (dotted_prefixes function_call) with
     | Some target => upd_edges_to_add (λ l, l ++ [(id, target.1)]) p
     | None => p
     end).
Proof.
  revert function_call.
  induction depth as [|d IH]; intros function_call Hlen; [lia|].
  rewrite dotted_prefixes_unfold.
  specialize (IH (slice_to_rfind "." function_call)).
  simpl. unfold_M.
  destruct (_imports p !! fp) as [table|] eqn:Htable; simpl in *.
  - destruct (table !! function_call) as [target|]; [done|].
    destruct (str_in "." function_call) eqn:Hin; [|done].
    apply IH. apply length_slice_to_rfind in Hin. lia.
  - rewrite lookup_empty.
    destruct (str_in "." function_call) eqn:Hin; [|done].
    apply IH. apply length_slice_to_rfind in Hin. lia.
Qed.

Lemma call_to_import_resolves_witness :
  dotted_prefixes "numpy.array" = ["numpy.array"; "numpy"] ∧
  _call_to_import "a.py" 12 "numpy.array" "call_0" numpy_imported =
    (Ok tt,
     upd_edges_to_add (λ l, l ++ [("call_0", "dotted_name_0")]) numpy_imported).
Proof.
  split; [reflexivity|].
  exact (call_to_import_resolves "a.py" 12 "numpy.array" "call_0"
           numpy_imported (le_n 12)).
Defined.

(** ** [Graph.add_edge] *)

Lemma ids_alter (f : Node → Node) (i : nat) (h : heap) :
  (∀ n, _id (f n) = _id n) → _id <$> alter f i h = _id <$> h.
Proof.
  intros Hf. apply list_eq. intros k.
  rewrite !list_lookup_fmap, list_lookup_alter.
  case_decide; [|done]. subst. destruct (h !! k); simpl; [|done].
  by rewrite Hf.
Qed.

Lemma ids_length (h h' : heap) : _id <$> h' = _id <$> h → length h' = length h.
Proof. intros Heq. by rewrite <-(length_fmap _id h'), Heq, length_fmap. Qed.

Lemma get_connections_add_neighbor rb w n x :
  x ∈ get_connections (add_neighbor rb w n) ↔ x = rb ∨ x ∈ get_connections n.
Proof. unfold get_connections, add_neighbor. simpl. apply keys_set_elem_of. Qed.

Lemma has_edge_alter s ra rb w x y :
  has_edge s x y → has_edge (upd_objs (alter (add_neighbor rb w) ra) s) x y.
Proof.
  intros (rx & ry & n & Hx & Hy & Hn & Hin).
  destruct (decide (ra = rx)) as [->|Hne].
  - exists rx, ry, (add_neighbor rb w n). simpl. split_and!; [done..| |].
    + by rewrite list_lookup_alter, decide_True, Hn.
    + apply get_connections_add_neighbor. by right.
  - exists rx, ry, n. simpl. split_and!; [done..| |done].
    by rewrite list_lookup_alter_ne.
Qed.

Lemma has_edge_new s a b ra rb w :
  vert_dict (graph s) !! a = Some ra → vert_dict (graph s) !! b = Some rb →
  ra < length (objs s) →
  has_edge (upd_objs (alter (add_neighbor rb w) ra) s) a b.
Proof.
  intros Ha Hb [n Hn]%lookup_lt_is_Some_2.
  exists ra, rb, (add_neighbor rb w n). simpl. split_and!; [done..| |].
  - by rewrite list_lookup_alter, decide_True, Hn.
  - apply get_connections_add_neighbor. by left.
Qed.

Lemma add_edge_Ok s a b w ra rb :
  vert_dict (graph s) !! a = Some ra → vert_dict (graph s) !! b = Some rb →
  add_edge a b w false s = (Ok tt, upd_objs (alter (add_neighbor rb w) ra) s).
Proof. intros Ha Hb. unfold add_edge. unfold_M. by rewrite Ha, Hb. Qed.

Lemma add_edge_cases s a b w :
  (∃ e, add_edge a b w false s = (Raise e, s)) ∨
  (∃ ra rb, vert_dict (graph s) !! a = Some ra ∧
            vert_dict (graph s) !! b = Some rb ∧
            add_edge a b w false s
              = (Ok tt, upd_objs (alter (add_neighbor rb w) ra) s)).
Proof.
  destruct (vert_dict (graph s) !! a) as [ra|] eqn:Ha.
  - destruct (vert_dict (graph s) !! b) as [rb|] eqn:Hb.
    + right. exists ra, rb. split_and!; [done..|]. by apply add_edge_Ok.
    + left. unfold add_edge. unfold_M. rewrite Ha, Hb. by eexists.
  - left. unfold add_edge. unfold_M. rewrite Ha. by eexists.
Qed.

(** ** [_resolve_imports] *)

Lemma grows_refl p : grows p p.
Proof. by repeat split. Qed.

Lemma grows_trans p1 p2 p3 : grows p1 p2 → grows p2 p3 → grows p1 p3.
Proof.
  intros (?&?&?&?&?&?&?&H12) (?&?&?&?&?&?&?&H23).
  repeat split; try congruence. intros x y Hxy. by apply H23, H12.
Qed.

Lemma upd_AST_id p : upd_AST (λ _, _AST p) p = p.
Proof. by destruct p. Qed.

Lemma on_AST_add_edge_grows a b w p :
  grows p (on_AST (add_edge a b w false) p).2.
Proof.
  unfold on_AST.
  destruct (add_edge_cases (_AST p) a b w) as [[e ->]|(ra & rb & _ & _ & ->)];
    simpl.
  - rewrite upd_AST_id. apply grows_refl.
  - repeat split; simpl; try done.
    + by apply ids_alter.
    + apply has_edge_alter.
Qed.

Lemma on_AST_add_edge_Ok a b w p :
  store_wf (_AST p) → registered (_AST p) a → registered (_AST p) b →
  ∃ p', on_AST (add_edge a b w false) p = (Ok tt, p') ∧ grows p p' ∧
        has_edge (_AST p') a b.
Proof.
  intros Hwf [ra Ha] [rb Hb]. unfold on_AST.
  rewrite (add_edge_Ok _ _ _ _ ra rb) by done.
  eexists. split; [done|]. split.
  - pose proof (on_AST_add_edge_grows a b w p) as Hg. unfold on_AST in Hg.
    by rewrite (add_edge_Ok _ _ _ _ ra rb) in Hg.
  - simpl. apply has_edge_new; [done..|]. by eapply Hwf.
Qed.

Lemma grows_store_wf p p' : grows p p' → store_wf (_AST p) → store_wf (_AST p').
Proof.
  intros (_&_&_&_&_&Hg&Hlen%ids_length&_) Hwf id r.
  rewrite Hg, Hlen. apply Hwf.
Qed.

Lemma grows_registered p p' id :
  grows p p' → registered (_AST p) id → registered (_AST p') id.
Proof. intros (_&_&_&_&_&Hg&_) Hr. unfold registered. by rewrite Hg. Qed.

Section resolution.
Context (fp : string).

Lemma link_definitions_spec names p file_calls file_defs :
  store_wf (_AST p) →
  _function_calls p !! fp = Some file_calls →
  _function_definitions p !! fp = Some file_defs →
  (∀ g c d, PyDict.get g file_calls = Some c → file_defs !! g = Some d →
            registered (_AST p) c ∧ registered (_AST p) d) →
  names ⊆ PyDict.keys file_calls →
  ∃ p', link_definitions fp names p = (Ok tt, p') ∧ grows p p' ∧
        ∀ g c d, g ∈ names → PyDict.get g file_calls = Some c →
                 file_defs !! g = Some d →
                 has_edge (_AST p') c d ∧ has_edge (_AST p') d c.
Proof.
  revert p. induction names as [|g names IH]; intros p Hwf Hc Hd Hreg Hsub.
  { exists p. split; [done|]. split; [apply grows_refl|].
    intros g c d Hg. by apply elem_of_nil in Hg. }
  assert (∃ p1, link_definition fp g p = (Ok tt, p1) ∧ grows p p1 ∧
      ∀ c d, PyDict.get g file_calls = Some c → file_defs !! g = Some d →
             has_edge (_AST p1) c d ∧ has_edge (_AST p1) d c)
    as (p1 & Hstep & Hg1 & Hedges).
  { unfold link_definition. unfold_M. rewrite decide_False; last first.
    { intros Hempty. rewrite Hempty, lookup_empty in Hd. done. }
    rewrite Hd. simpl. destruct (file_defs !! g) as [d|] eqn:Hgd.
    - rewrite Hc. simpl.
      destruct (key_get_is_Some g file_calls) as [c Hgc].
      { apply Hsub. left. }
      rewrite Hgc. simpl. destruct (Hreg g c d Hgc Hgd) as [Hrc Hrd].
      destruct (on_AST_add_edge_Ok c d 1%Z p Hwf Hrc Hrd)
        as (p1 & Hrun1 & Hg1 & He1).
      fold (on_AST (add_edge c d 1%Z false) p). rewrite Hrun1.
      destruct (on_AST_add_edge_Ok d c 1%Z p1) as (p2 & Hrun2 & Hg2 & He2).
      { by eapply grows_store_wf. }
      { by eapply grows_registered. }
      { by eapply grows_registered. }
      fold (on_AST (add_edge d c 1%Z false) p1). rewrite Hrun2.
      exists p2. split; [done|]. split; [by eapply grows_trans|].
      intros c' d' ? ?. simplify_eq. split; [|done].
      destruct Hg2 as (_&_&_&_&_&_&_&Hmono). by apply Hmono.
    - exists p. split; [done|]. split; [apply grows_refl|]. done. }
  destruct (IH p1) as (p' & Hrun & Hg' & Hall).
  { by eapply grows_store_wf. }
  { destruct Hg1 as (_&->&_). done. }
  { destruct Hg1 as (_&_&_&->&_). done. }
  { intros g' c d Hgc Hgd. destruct (Hreg g' c d Hgc Hgd).
    split; by eapply grows_registered. }
  { intros x Hx. apply Hsub. by right. }
  exists p'. split.
  { cbn [link_definitions]. by rewrite (bind_Ok _ _ _ _ _ Hstep). }
  split; [by eapply grows_trans|].
  intros g' c d [->|Hin]%elem_of_cons Hgc Hgd; [|by eapply Hall].
  destruct (Hedges c d Hgc Hgd) as [H1 H2].
  destruct Hg' as (_&_&_&_&_&_&_&Hmono). split; by apply Hmono.
Qed.

Lemma add_import_edges_grows edges p :
  grows p (add_import_edges edges p).2.
Proof.
  revert p. induction edges as [|[a b] edges IH]; intros p; simpl.
  { apply grows_refl. }
  pose proof (on_AST_add_edge_grows a b 1%Z p) as Hg.
  unfold bind. destruct (on_AST (add_edge a b 1%Z false) p) as [[[]|e] p1];
    simpl in *; [|done].
  eapply grows_trans; [done|]. apply IH.
Qed.

Lemma add_import_edges_Ok edges p :
  store_wf (_AST p) →
  (∀ a b, (a, b) ∈ edges → registered (_AST p) a ∧ registered (_AST p) b) →
  (add_import_edges edges p).1 = Ok tt.
Proof.
  revert p. induction edges as [|[a b] edges IH]; intros p Hwf Hreg; [done|].
  simpl. destruct (Hreg a b) as [Ha Hb]; [left|].
  destruct (on_AST_add_edge_Ok a b 1%Z p Hwf Ha Hb) as (p1 & Hrun & Hg & _).
  rewrite (bind_Ok _ _ _ _ _ Hrun). apply IH.
  - by eapply grows_store_wf.
  - intros a' b' Hin. destruct (Hreg a' b'); [by right|].
    split; by eapply grows_registered.
Qed.
End resolution.

(** C3: when a name [f] has a call site [call] in the calls table and a
    definition [def] in the definitions table of the file,
    [_resolve_imports] leaves the graph with an edge from [call] to [def]
    and an edge from [def] to [call]; it returns normally when the queued
    import edges join registered nodes too. *)
Theorem resolve_imports_links (fp : string) (p : parser)
    (file_calls : list (string * string)) (file_defs : gmap string string)
    (f call def : string) :
  store_wf (_AST p) →
  _function_calls p !! fp = Some file_calls →
  _function_definitions p !! fp = Some file_defs →
  (∀ g c d, PyDict.get g file_calls = Some c → file_defs !! g = Some d →
            registered (_AST p) c ∧ registered (_AST p) d) →
  PyDict.get f file_calls = Some call →
  file_defs !! f = Some def →
  has_edge (_AST (_resolve_imports fp p).2) call def ∧
  has_edge (_AST (_resolve_imports fp p).2) def call ∧
  ((∀ a b, (a, b) ∈ _edges_to_add p →
           registered (_AST p) a ∧ registered (_AST p) b) →
   (_resolve_imports fp p).1 = Ok tt).
Proof.
  intros Hwf Hc Hd Hreg Hcall Hdef.
  destruct (link_definitions_spec fp (PyDict.keys file_calls) p file_calls
              file_defs Hwf Hc Hd Hreg) as (p1 & Hrun & Hg1 & Hall); [done|].
  destruct (Hall f call def) as [H1 H2]; [by eapply get_Some_key|done..|].
  assert (_resolve_imports fp p = add_import_edges (_edges_to_add p) p1) as ->.
  { unfold _resolve_imports. unfold_M. rewrite decide_False; last first.
    { intros Hempty. rewrite Hempty, lookup_empty in Hc. done. }
    rewrite Hc. simpl. rewrite Hrun.
    destruct Hg1 as (_&_&_&_&->&_). done. }
  pose proof (add_import_edges_grows (_edges_to_add p) p1)
    as (_&_&_&_&_&_&_&Hmono).
  split_and!; [by apply Hmono..|].
  intros Hq. apply add_import_edges_Ok.
  - by eapply grows_store_wf.
  - intros a b Hin. destruct (Hq a b Hin). split; by eapply grows_registered.
Qed.

Lemma store_wf_b_sound s : store_wf_b s = true → store_wf s.
Proof.
  unfold store_wf_b. rewrite bool_decide_eq_true. intros Hall id r Hr.
  by apply (Hall id r).
Qed.

Lemma calls_registered_b_sound s file_calls file_defs :
  calls_registered_b s file_calls file_defs = true →
  ∀ g c d, PyDict.get g file_calls = Some c → file_defs !! g = Some d →
           registered s c ∧ registered s d.
Proof.
  unfold calls_registered_b.
  rewrite <-Is_true_true, forallb_True, Forall_forall.
  intros Hall g c d Hc%get_Some_elem_of Hd.
  specialize (Hall _ Hc). simpl in Hall. rewrite Hd in Hall.
  apply andb_True in Hall as [H1 H2].
  split; by eapply bool_decide_unpack.
Qed.

Lemma resolve_imports_links_witness :
  has_edge (_AST (_resolve_imports "a.py" example_walked).2)
    "call_1" "function_definition_0" ∧
  has_edge (_AST (_resolve_imports "a.py" example_walked).2)
    "function_definition_0" "call_1" ∧
  (_resolve_imports "a.py" example_walked).1 = Ok tt.
Proof.
  destruct (resolve_imports_links "a.py" example_walked
              [("os.getcwd", "call_0"); ("f", "call_1")]
              {["f" := "function_definition_0"]}
              "f" "call_1" "function_definition_0")
    as (H1 & H2 & _).
  - apply store_wf_b_sound. vm_compute. reflexivity.
  - vm_compute. reflexivity.
  - vm_compute. reflexivity.
  - apply calls_registered_b_sound. vm_compute. reflexivity.
  - reflexivity.
  - reflexivity.
  - split_and!; [exact H1|exact H2|]. vm_compute. reflexivity.
Defined.

(** ** The steps of [_parse_node] *)

Section steps.
Context (fp : string) (B : list string).

Lemma capture_text_eq node p : capture_text node p = (text_of node, p).
Proof.
  unfold capture_text, text_of, child. unfold_M.
  destruct (decide (ts_type node = "binary_operator")) as [Hb|Hb].
  - destruct (ts_children node !! 1); simpl; [|done].
    rewrite decide_False; [done|]. by rewrite Hb.
  - destruct (decide (ts_type node = "attribute")); [done|].
    by destruct (ts_is_named node && _).
Qed.

Lemma assign_id_eq node name p :
  assign_id fp node name p =
    (Ok (node_id fp node name (_counts p)),
     if decide (ts_type node = "module") then p
     else upd_counts <[name := next_count (_counts p) name]> p).
Proof.
  unfold assign_id, node_id, next_count. unfold_M.
  destruct (decide (ts_type node = "module")) as [->|Hm]; [done|].
  by destruct (_counts p !! name).
Qed.

End steps.

Lemma same_tables_refl p : same_tables p p.
Proof. by repeat split. Qed.
Lemma same_tables_trans p1 p2 p3 :
  same_tables p1 p2 → same_tables p2 p3 → same_tables p1 p3.
Proof. intros (?&?&?&?&?) (?&?&?&?&?). repeat split; congruence. Qed.

Lemma on_AST_eq {A} (m : M (S := store) A) p :
  on_AST m p = ((m (_AST p)).1, upd_AST (λ _, (m (_AST p)).2) p).
Proof. unfold on_AST. by destruct (m (_AST p)). Qed.

Lemma new_node_spec n p :
  ∃ p', on_AST (new_node n) p = (Ok (length (objs (_AST p))), p') ∧
        objs (_AST p') = objs (_AST p) ++ [n] ∧
        graph (_AST p') = graph (_AST p) ∧ same_tables p p'.
Proof. rewrite on_AST_eq. eexists. split; [done|]. by repeat split. Qed.

Lemma alter_obj_spec f r p :
  ∃ p', on_AST (modify (upd_objs (alter f r))) p = (Ok tt, p') ∧
        objs (_AST p') = alter f r (objs (_AST p)) ∧
        graph (_AST p') = graph (_AST p) ∧ same_tables p p'.
Proof. rewrite on_AST_eq. eexists. split; [done|]. by repeat split. Qed.

Lemma add_vertex_spec r p n :
  objs (_AST p) !! r = Some n →
  ∃ rv p', on_AST (add_vertex r) p = (rv, p') ∧
    objs (_AST p') = objs (_AST p) ∧ same_tables p p' ∧
    ((rv = Ok (_id n) ∧
      graph (_AST p') =
        {| vert_dict := <[_id n := r]> (vert_dict (graph (_AST p)));
           num_vertices := num_vertices (graph (_AST p)) + 1 |}) ∨
     ((∃ e, rv = Raise e) ∧ graph (_AST p') = graph (_AST p) ∧
      _parent n ≠ None)).
Proof.
  intros Hn. rewrite on_AST_eq. do 2 eexists. split; [done|].
  unfold add_vertex. unfold_M. rewrite Hn. simpl.
  destruct (_parent n) as [l|]; simpl.
  - destruct (objs (_AST p) !! l) as [pn|]; simpl.
    + case_decide; simpl.
      * split_and!; [done|by repeat split|]. left. done.
      * split_and!; [done|by repeat split|]. right. eauto.
    + split_and!; [done|by repeat split|]. right. eauto.
  - split_and!; [done|by repeat split|]. left. done.
Qed.

Section insertion.
Context (fp : string).

(** The outcome of [insert_node]: unless the text cannot be captured, one
    object is allocated, with the id computed from the counters; it is
    registered unless its parent is not. *)
Lemma insert_node_spec node last fn p :
  (∃ e, text_of node = Raise e ∧ insert_node fp node last fn p = (Raise e, p)) ∨
  ∃ text n' r p',
    text_of node = Ok text ∧
    insert_node fp node last fn p = (r, p') ∧
    objs (_AST p') = objs (_AST p) ++ [n'] ∧
    _id n' = node_id fp node (display_name node text) (_counts p) ∧
    _adjacent n' = [] ∧ _parent n' = last ∧
    _type n' = Some (ts_type node) ∧
    _counts p' =
      (if decide (ts_type node = "module") then _counts p
       else <[display_name node text :=
                next_count (_counts p) (display_name node text)]> (_counts p)) ∧
    _function_calls p' = _function_calls p ∧
    _imports p' = _imports p ∧
    _function_definitions p' = _function_definitions p ∧
    _edges_to_add p' = _edges_to_add p ∧
    ((r = Ok (length (objs (_AST p)), _id n', _id n') ∧
      graph (_AST p') =
        {| vert_dict := <[_id n' := length (objs (_AST p))]>
                          (vert_dict (graph (_AST p)));
           num_vertices := num_vertices (graph (_AST p)) + 1 |}) ∨
     ((∃ e, r = Raise e) ∧ graph (_AST p') = graph (_AST p) ∧ last ≠ None)).
Proof.
  destruct (insert_node fp node last fn p) as [r p'] eqn:Hrun.
  unfold insert_node in Hrun. unfold bind at 1 in Hrun.
  rewrite capture_text_eq in Hrun.
  destruct (text_of node) as [text|e] eqn:Htext;
    [right|left; exists e; by simplify_eq].
  unfold bind at 1 in Hrun. rewrite assign_id_eq in Hrun.
  set (id := node_id fp node (display_name node text) (_counts p)) in *.
  set (p0 := if decide (ts_type node = "module") then p else _) in *.
  assert (_AST p0 = _AST p ∧ _function_calls p0 = _function_calls p ∧
          _imports p0 = _imports p ∧
          _function_definitions p0 = _function_definitions p ∧
          _edges_to_add p0 = _edges_to_add p) as (HA & Hc & Hi & Hd & He).
  { unfold p0. by destruct (decide (ts_type node = "module")). }
  assert (_counts p0 =
      (if decide (ts_type node = "module") then _counts p
       else <[display_name node text :=
                next_count (_counts p) (display_name node text)]> (_counts p)))
    as Hcounts.
  { unfold p0. by destruct (decide (ts_type node = "module")). }
  clearbody p0.
  set (n0 := Node_init id (ts_start_point node) (ts_end_point node) fn None
               (Some (ts_type node)) None last) in *.
  set (h := objs (_AST p)) in *.
  destruct (new_node_spec n0 p0) as (p1 & Hrun1 & Ho1 & Hg1 & Ht1).
  rewrite (bind_Ok _ _ _ _ _ Hrun1) in Hrun. rewrite HA in *. fold h in Ho1, Hrun.
  set (n1 := if truthy text then set_text text n0 else n0).
  assert (∃ p2, (if truthy text
      then on_AST (modify (upd_objs (alter (set_text text) (length h))))
      else ret ()) p1 = (Ok tt, p2) ∧
      objs (_AST p2) = h ++ [n1] ∧ graph (_AST p2) = graph (_AST p1) ∧
      same_tables p1 p2) as (p2 & Hrun2 & Ho2 & Hg2 & Ht2).
  { unfold n1. destruct (truthy text).
    - destruct (alter_obj_spec (set_text text) (length h) p1)
        as (p2 & Hrun' & Ho & Hg & Ht).
      exists p2. split_and!; [done| |done..].
      rewrite Ho, Ho1, (alter_app_r_alt _ h) by done. by rewrite Nat.sub_diag.
    - exists p1. split_and!; [done..|apply same_tables_refl]. }
  rewrite (bind_Ok _ _ _ _ _ Hrun2) in Hrun.
  assert (_id n1 = id ∧ _adjacent n1 = [] ∧ _parent n1 = last ∧
          _type n1 = Some (ts_type node)) as (Hid1 & Hadj1 & Hpar1 & Hty1).
  { unfold n1. by destruct (truthy text). }
  destruct (add_vertex_spec (length h) p2 n1)
    as (rv & p3 & Hrun3 & Ho3 & Ht3 & Hcase).
  { rewrite Ho2, lookup_app_r by done. by rewrite Nat.sub_diag. }
  pose proof (same_tables_trans _ _ _ Ht1 (same_tables_trans _ _ _ Ht2 Ht3))
    as (Hc3 & Hf3 & Hi3 & Hd3 & He3).
  destruct Hcase as [[-> Hg3]|[[e ->] [Hg3 Hlast]]].
  - rewrite (bind_Ok _ _ _ _ _ Hrun3) in Hrun.
    set (n2 := if decide (ts_type node = "identifier")
               then set_var_name (Some (ts_text node)) n1 else n1).
    assert (∃ p4, (if decide (ts_type node = "identifier")
        then on_AST (modify (upd_objs
               (alter (set_var_name (Some (ts_text node))) (length h))))
        else ret ()) p3 = (Ok tt, p4) ∧
        objs (_AST p4) = h ++ [n2] ∧ graph (_AST p4) = graph (_AST p3) ∧
        same_tables p3 p4) as (p4 & Hrun4 & Ho4 & Hg4 & Ht4).
    { unfold n2. destruct (decide (ts_type node = "identifier")).
      - destruct (alter_obj_spec (set_var_name (Some (ts_text node)))
                    (length h) p3) as (p4 & Hrun' & Ho & Hg & Ht).
        exists p4. split_and!; [done| |done..].
        rewrite Ho, Ho3, Ho2, (alter_app_r_alt _ h) by done.
        by rewrite Nat.sub_diag.
      - exists p3. split_and!; [done|congruence|done|apply same_tables_refl]. }
    rewrite (bind_Ok _ _ _ _ _ Hrun4) in Hrun.
    assert (_id n2 = id ∧ _adjacent n2 = [] ∧ _parent n2 = last ∧
            _type n2 = Some (ts_type node)) as (Hid2 & Hadj2 & Hpar2 & Hty2).
    { unfold n2. by destruct (decide (ts_type node = "identifier")). }
    destruct Ht4 as (Hc4 & Hf4 & Hi4 & Hd4 & He4).
    unfold ret in Hrun. simplify_eq.
    exists text, n2. do 2 eexists.
    split_and!; [done|reflexivity|try done; try congruence..].
    left. split; [congruence|]. rewrite Hg4, Hg3, Hg2, Hg1. congruence.
  - rewrite (bind_Raise _ _ _ _ _ Hrun3) in Hrun. simplify_eq.
    exists text, n1. do 2 eexists.
    split_and!; [done|reflexivity|try done; try congruence..].
    right. split_and!; [by eexists|congruence|congruence].
Qed.
End insertion.
Section handlers.
Context (fp : string) (B : list string).

Lemma call_to_import_effect depth function_call id p :
  String.length function_call < depth →
  ∃ p', _call_to_import fp depth function_call id p = (Ok tt, p') ∧
    _AST p' = _AST p ∧ _counts p' = _counts p ∧
    _function_calls p' = _function_calls p ∧ _imports p' = _imports p ∧
    _function_definitions p' = _function_definitions p ∧
    (_edges_to_add p' = _edges_to_add p ∨
     ∃ table q t, _imports p !! fp = Some table ∧ table !! q = Some t ∧
                  _edges_to_add p' = _edges_to_add p ++ [(id, t.1)]).
Proof.
  revert function_call. induction depth as [|d IH]; intros fc Hlen; [lia|].
  specialize (IH (slice_to_rfind "." fc)).
  simpl. unfold_M.
  destruct (_imports p !! fp) as [table|] eqn:Htable; simpl.
  - destruct (table !! fc) as [t|] eqn:Ht.
    + eexists. split; [done|]. simpl. split_and!; try done.
      right. by exists table, fc, t.
    + destruct (str_in "." fc) eqn:Hin.
      * apply IH. apply length_slice_to_rfind in Hin. lia.
      * exists p. split_and!; auto.
  - destruct (str_in "." fc) eqn:Hin.
    + apply IH. apply length_slice_to_rfind in Hin. lia.
    + exists p. split_and!; auto.
Qed.

(** With any [depth], [_call_to_import] returns or runs out of frames, and
    in both cases it has at most queued one edge. *)
Lemma call_to_import_outcome depth function_call id p :
  ∃ r p', _call_to_import fp depth function_call id p = (r, p') ∧
    (r = Ok tt ∨ r = Raise RecursionError) ∧
    _AST p' = _AST p ∧ _counts p' = _counts p ∧
    _function_calls p' = _function_calls p ∧ _imports p' = _imports p ∧
    _function_definitions p' = _function_definitions p ∧
    (_edges_to_add p' = _edges_to_add p ∨
     ∃ table q t, r = Ok tt ∧
                  _imports p !! fp = Some table ∧ table !! q = Some t ∧
                  _edges_to_add p' = _edges_to_add p ++ [(id, t.1)]).
Proof.
  revert function_call. induction depth as [|d IH]; intros fc.
  { exists (Raise RecursionError), p. split_and!; auto. }
  specialize (IH (slice_to_rfind "." fc)).
  simpl. unfold_M.
  destruct (_imports p !! fp) as [table|] eqn:Htable; simpl.
  - destruct (table !! fc) as [t|] eqn:Ht.
    + do 2 eexists. split; [done|]. simpl. split_and!; auto.
      right. by exists table, fc, t.
    + destruct (str_in "." fc) eqn:Hin.
      * apply IH.
      * exists (Ok tt), p. split_and!; auto.
  - destruct (str_in "." fc) eqn:Hin.
    + apply IH.
    + exists (Ok tt), p. split_and!; auto.
Qed.

Lemma handle_call_spec depth node id p :
  match ts_children node !! 0 with
  | None => _handle_call fp depth node id p = (Raise IndexError, p)
  | Some callee =>
      ∃ r p', _handle_call fp depth node id p = (r, p') ∧
        (r = Ok tt ∨ r = Raise RecursionError) ∧
        (String.length (ts_text callee) < depth → r = Ok tt) ∧
        _AST p' = _AST p ∧ _counts p' = _counts p ∧
        _function_calls p' =
          record_call fp (ts_text callee) id (_function_calls p) ∧
        _imports p' = _imports p ∧
        _function_definitions p' = _function_definitions p ∧
        (_edges_to_add p' = _edges_to_add p ∨
         ∃ table q t, r = Ok tt ∧
                      _imports p !! fp = Some table ∧ table !! q = Some t ∧
                      _edges_to_add p' = _edges_to_add p ++ [(id, t.1)])
  end.
Proof.
  unfold _handle_call, child. unfold bind at 1.
  destruct (ts_children node !! 0) as [callee|]; simpl; [|done].
  unfold bind at 1. unfold modify at 1.
  set (p0 := upd_function_calls (record_call fp (ts_text callee) id) p).
  destruct (call_to_import_outcome depth (ts_text callee) id p0)
    as (r & p' & Hrun & Hr & H1 & H2 & H3 & H4 & H5 & H6).
  exists r, p'. split; [done|]. simpl in *. split_and!; try done.
  intros Hlen.
  destruct (call_to_import_effect depth (ts_text callee) id p0 Hlen)
    as (p'' & Hrun' & _).
  congruence.
Qed.

Lemma handle_import_spec node up idx id p :
  ∃ r p', _handle_import fp node up idx id p = (r, p') ∧
    _AST p' = _AST p ∧ _counts p' = _counts p ∧
    _function_calls p' = _function_calls p ∧
    _function_definitions p' = _function_definitions p ∧
    _edges_to_add p' = _edges_to_add p ∧
    (_imports p' = _imports p ∨
     ∃ k path, _imports p' = record fp k (id, path) (_imports p)).
Proof.
  unfold _handle_import, child, parent_of. unfold_M.
  repeat (case_decide || case_match); simplify_eq/=;
    do 2 eexists; (split; [reflexivity|]); simpl; split_and!; eauto.
Qed.

Lemma handle_definition_spec node id p :
  ∃ r p', _handle_definition fp node id p = (r, p') ∧
    _AST p' = _AST p ∧ _counts p' = _counts p ∧
    _function_calls p' = _function_calls p ∧
    _imports p' = _imports p ∧
    _edges_to_add p' = _edges_to_add p ∧
    (_function_definitions p' = _function_definitions p ∨
     ∃ k, _function_definitions p' = record fp k id (_function_definitions p)).
Proof.
  unfold _handle_definition, child. unfold_M.
  destruct (ts_children node !! 1); simpl;
    do 2 eexists; (split; [reflexivity|]); simpl; split_and!; eauto.
Qed.

Lemma dispatch_handlers_spec depth node up idx name p :
  ∃ r p', dispatch_handlers fp B depth node up idx name p = (r, p') ∧
    _AST p' = _AST p ∧ _counts p' = _counts p ∧
    _function_calls p' =
      match handled_callee B node with
      | Some g => record_call fp g name (_function_calls p)
      | None => _function_calls p
      end ∧
    (_edges_to_add p' = _edges_to_add p ∨
     ∃ table q t, is_Some (handled_callee B node) ∧
                  _imports p !! fp = Some table ∧ table !! q = Some t ∧
                  _edges_to_add p' = _edges_to_add p ++ [(name, t.1)]) ∧
    (_imports p' = _imports p ∨
     ∃ k path, (ts_type node = "aliased_import" ∨ ts_type node = "dotted_name") ∧
               handled_callee B node = None ∧
               _imports p' = record fp k (name, path) (_imports p)) ∧
    (_function_definitions p' = _function_definitions p ∨
     ∃ k, (ts_type node = "function_definition"
           ∨ ts_type node = "class_definition") ∧
          handled_callee B node = None ∧
          _function_definitions p' = record fp k name (_function_definitions p)).
Proof.
  unfold dispatch_handlers, handled_callee.
  destruct (decide (ts_type node = "call")) as [Hcall|Hcall].
  - (* a call: only the first handler can run *)
    rewrite Hcall. simpl. unfold child. unfold bind at 1. unfold bind at 1.
    pose proof (handle_call_spec depth node name p) as Hspec.
    destruct (ts_children node !! 0) as [callee|]; simpl.
    + destruct (decide (ts_text callee ∈ B)).
      * exists (Ok tt), p. split_and!; auto.
      * destruct Hspec as (r & p' & -> & _ & _ & H1 & H2 & H3 & H4 & H5 & H6).
        exists r, p'. split; [by destruct r as [[]|]|]. split_and!; auto.
        destruct H6 as [?|(table & q & t & ? & ? & ? & ?)]; [by left|].
        right. exists table, q, t. split_and!; eauto.
    + exists (Raise IndexError), p. split_and!; auto.
  - unfold bind at 1. unfold ret at 1.
    destruct (decide (ts_type node = "aliased_import")) as [Hai|Hai].
    + rewrite Hai. simpl. unfold bind at 1.
      destruct (handle_import_spec node up idx name p)
        as (r & p' & Hrun & H1 & H2 & H3 & H4 & H5 & H6).
      rewrite Hrun.
      exists r, p'. split; [by destruct r as [[]|]|].
      split_and!; auto.
      destruct H6 as [?|(k & path & ?)]; [by left|]. right. eauto 10.
    + destruct (decide (ts_type node = "dotted_name")) as [Hdn|Hdn].
      * rewrite Hdn. simpl. unfold bind at 1. unfold parent_of. unfold bind at 1.
        destruct up as [u|]; simpl.
        2:{ exists (Raise AttributeError), p. split_and!; auto. }
        destruct (String.prefix "import" (ts_type u)).
        -- destruct (handle_import_spec node (Some u) idx name p)
             as (r & p' & Hrun & H1 & H2 & H3 & H4 & H5 & H6).
           rewrite Hrun.
           exists r, p'. split; [by destruct r as [[]|]|].
           split_and!; auto.
           destruct H6 as [?|(k & path & ?)]; [by left|]. right. eauto 10.
        -- exists (Ok tt), p. split_and!; auto.
      * unfold bind at 1. unfold ret at 1.
        destruct (decide (ts_type node = "function_definition"
                          ∨ ts_type node = "class_definition")) as [Hdef|Hdef].
        -- destruct (handle_definition_spec node name p)
             as (r & p' & Hrun & H1 & H2 & H3 & H4 & H5 & H6).
           exists r, p'. split; [done|]. split_and!; auto.
           destruct H6 as [?|(k & ?)]; [by left|]. right. eauto 10.
        -- exists (Ok tt), p. split_and!; auto.
Qed.

(** The outcome of [visit]: that of [insert_node], followed, when the node
    was registered, by what the handler of its kind records under its id. *)
Lemma visit_spec depth node up idx last fn p :
  (∃ e, text_of node = Raise e ∧
        visit fp B depth node up idx last fn p = (Raise e, p)) ∨
  ∃ text n' r p',
    text_of node = Ok text ∧
    visit fp B depth node up idx last fn p = (r, p') ∧
    objs (_AST p') = objs (_AST p) ++ [n'] ∧
    _id n' = node_id fp node (display_name node text) (_counts p) ∧
    _adjacent n' = [] ∧ _parent n' = last ∧
    _type n' = Some (ts_type node) ∧
    _counts p' =
      (if decide (ts_type node = "module") then _counts p
       else <[display_name node text :=
                next_count (_counts p) (display_name node text)]> (_counts p)) ∧
    (((∃ e, r = Raise e) ∧ last ≠ None ∧
      graph (_AST p') = graph (_AST p) ∧
      _function_calls p' = _function_calls p ∧
      _imports p' = _imports p ∧
      _function_definitions p' = _function_definitions p ∧
      _edges_to_add p' = _edges_to_add p) ∨
     (graph (_AST p') =
        {| vert_dict := <[_id n' := length (objs (_AST p))]>
                          (vert_dict (graph (_AST p)));
           num_vertices := num_vertices (graph (_AST p)) + 1 |} ∧
      (r = Ok (length (objs (_AST p)), _id n') ∨ ∃ e, r = Raise e) ∧
      _function_calls p' =
        match handled_callee B node with
        | Some g => record_call fp g (_id n') (_function_calls p)
        | None => _function_calls p
        end ∧
      (_edges_to_add p' = _edges_to_add p ∨
       ∃ table q t, is_Some (handled_callee B node) ∧
                    _imports p !! fp = Some table ∧ table !! q = Some t ∧
                    _edges_to_add p' = _edges_to_add p ++ [(_id n', t.1)]) ∧
      (_imports p' = _imports p ∨
       ∃ k path, (ts_type node = "aliased_import"
                  ∨ ts_type node = "dotted_name") ∧
                 handled_callee B node = None ∧
                 _imports p' = record fp k (_id n', path) (_imports p)) ∧
      (_function_definitions p' = _function_definitions p ∨
       ∃ k, (ts_type node = "function_definition"
             ∨ ts_type node = "class_definition") ∧
            handled_callee B node = None ∧
            _function_definitions p' =
              record fp k (_id n') (_function_definitions p)))).
Proof.
  unfold visit.
  destruct (insert_node_spec fp node last fn p)
    as [(e & Htext & Hrun)|(text & n' & r & p1 & Htext & Hrun & Hobjs & Hid &
        Hadj & Hpar & Hty & Hcounts & Hc & Hi & Hd & He & Hcase)].
  { left. exists e. split; [done|]. by rewrite (bind_Raise _ _ _ _ _ Hrun). }
  right. exists text, n'.
  destruct Hcase as [[-> Hg]|[[e ->] [Hg Hlast]]].
  - rewrite (bind_Ok _ _ _ _ _ Hrun).
    destruct (dispatch_handlers_spec depth node up idx (_id n') p1)
      as (r & p' & Hrun' & HA & Hcnt & Hcalls & Hedges & Himps & Hdefs).
    unfold bind at 1. rewrite Hrun'.
    exists (match r with Ok _ => Ok (length (objs (_AST p)), _id n')
                    | Raise e => Raise e end), p'.
    split; [done|]. split; [by destruct r|].
    rewrite HA, Hcnt. split_and!; try done.
    right. rewrite Hcalls, Hc. split_and!; try done.
    + destruct r; eauto.
    + rewrite <-He, <-Hi. done.
    + rewrite <-Hi. done.
    + rewrite <-Hd. done.
  - rewrite (bind_Raise _ _ _ _ _ Hrun).
    exists (Raise e), p1. split_and!; try done.
    left. split_and!; eauto.
Qed.
End handlers.

(** ** Strings: the shape of the ids *)

Lemma append_nil_l s : "" +:+ s = s.
Proof. done. Qed.

Lemma append_cons a s t : String a s +:+ t = String a (s +:+ t).
Proof. done. Qed.

Ltac norm_append := rewrite ?append_cons, ?append_nil_l in *.

Lemma append_assoc s1 s2 s3 : (s1 +:+ s2) +:+ s3 = s1 +:+ (s2 +:+ s3).
Proof. induction s1 as [|a s1 IH]; norm_append; [done|]. by rewrite IH. Qed.

Lemma str_in_app c s1 s2 : str_in c (s1 +:+ s2) = str_in c s1 || str_in c s2.
Proof.
  induction s1 as [|a s1 IH]; norm_append; simpl; [done|].
  destruct (decide (a = c)); [done|]. apply IH.
Qed.

Lemma pretty_N_char_no_underscore x : pretty_N_char x ≠ "_"%char.
Proof. unfold pretty_N_char. by repeat case_match. Qed.

Lemma pretty_N_go_no_underscore x s :
  str_in "_" s = false → str_in "_" (pretty_N_go x s) = false.
Proof.
  revert s. induction (N.lt_wf_0 x) as [x _ IH]; intros s Hs.
  assert (x = 0 ∨ 0 < x)%N as [->|Hpos] by lia.
  - by rewrite pretty_N_go_0.
  - rewrite pretty_N_go_step by done. apply IH.
    + by apply N.div_lt.
    + simpl. rewrite decide_False; [done|]. apply pretty_N_char_no_underscore.
Qed.

Lemma pretty_nat_no_underscore (c : nat) : str_in "_" (pretty c) = false.
Proof.
  unfold pretty, pretty_nat, pretty, pretty_N.
  case_decide; [done|]. by apply pretty_N_go_no_underscore.
Qed.

(** The counter suffix can be read back: the last underscore of the id
    separates the name from the counter. *)
Lemma suffixed_inj_str s1 s2 d1 d2 :
  str_in "_" d1 = false → str_in "_" d2 = false →
  s1 +:+ "_" +:+ d1 = s2 +:+ "_" +:+ d2 → s1 = s2 ∧ d1 = d2.
Proof.
  intros Hd1 Hd2. revert s2.
  induction s1 as [|a s1 IH]; intros [|b s2] Heq; norm_append.
  - by simplify_eq.
  - simplify_eq. rewrite str_in_app in Hd1. norm_append. simpl in Hd1.
    by rewrite orb_true_r in Hd1.
  - simplify_eq. rewrite str_in_app in Hd2. norm_append. simpl in Hd2.
    by rewrite orb_true_r in Hd2.
  - injection Heq as -> Heq. destruct (IH _ Heq) as [-> ->]. done.
Qed.

Lemma suffixed_inj name1 name2 (c1 c2 : nat) :
  name1 +:+ "_" +:+ pretty c1 = name2 +:+ "_" +:+ pretty c2 →
  name1 = name2 ∧ c1 = c2.
Proof.
  intros Heq.
  apply suffixed_inj_str in Heq as [-> Hc];
    [|apply pretty_nat_no_underscore..].
  split; [done|]. by apply (inj pretty).
Qed.

Lemma app_eq_prefix m ty rest tail :
  ty +:+ rest = m +:+ tail →
  String.prefix m ty = true ∨
  ∃ a rest', rest = String a rest' ∧ str_in a m = true.
Proof.
  revert ty. induction m as [|b m IH]; intros ty Heq; [left; by destruct ty|].
  destruct ty as [|a ty]; norm_append; simpl.
  - right. exists b, (m +:+ tail). split; [done|]. by rewrite decide_True.
  - injection Heq as -> Heq. destruct (IH _ Heq) as [Hp|(c & r & -> & Hc)].
    + left. by destruct (ascii_dec b b).
    + right. exists c, r. split; [done|]. by destruct (decide (b = c)).
Qed.

(** An id with a counter is not the id of the root, unless the kind of the
    node starts with the word module. *)
Lemma suffixed_ne_module fp node text (c : nat) :
  String.prefix "module" (ts_type node) = false →
  display_name node text +:+ "_" +:+ pretty c ≠ "module | " +:+ fp.
Proof.
  intros Hpre Heq. unfold display_name in Heq.
  assert (∃ rest, (rest = "_" +:+ pretty c ∨
                   ∃ t, rest = " | " +:+ t) ∧
                  ts_type node +:+ rest = "module" +:+ (" | " +:+ fp))
    as (rest & Hrest & Heq').
  { destruct (truthy text).
    - exists (" | " +:+ default "" text +:+ "_" +:+ pretty c). split; [eauto|].
      etrans; [|exact Heq]. by rewrite !append_assoc.
    - exists ("_" +:+ pretty c). split; [eauto|]. exact Heq. }
  apply app_eq_prefix in Heq' as [Hp|(a & r & -> & Ha)]; [congruence|].
  destruct Hrest as [Hr|[t Hr]]; norm_append; simplify_eq; done.
Qed.

(** ** Induction over the walk *)

Lemma ts_node_ind' (P : ts_node → Prop) :
  (∀ ty named txt sp ep cs,
     Forall P cs → P (TSNode ty named txt sp ep cs)) →
  ∀ node, P node.
Proof.
  intros Hnode.
  refine (fix IH (node : ts_node) : P node :=
    match node with
    | TSNode ty named txt sp ep cs =>
        Hnode ty named txt sp ep cs
          ((fix all (l : list ts_node) : Forall P l :=
              match l with
              | [] => Forall_nil_2 P
              | c :: l' => Forall_cons_2 P c l' (IH c) (all l')
              end) cs)
    end).
Qed.

Lemma parse_node_unfold fp B depth node up idx last fn :
  _parse_node fp B (S depth) node up idx last fn =
    (let* (n_, id) := visit fp B depth node up idx last fn in
     for_each_child (λ c i,
       if ts_is_named c then
         let* to_id_ := _parse_node fp B depth c (Some node) i (Some n_) fn in
         let* n_id := on_AST (let* n := read n_ in ret (_id n)) in
         on_AST (add_edge n_id to_id_ 1%Z false)
       else ret tt) (ts_children node) 0;;
     ret id).
Proof. by destruct node. Qed.

Lemma parse_node_exhausted fp B node up idx last fn p :
  _parse_node fp B 0 node up idx last fn p = (Raise RecursionError, p).
Proof. by destruct node. Qed.

Lemma visited_unfold node :
  visited node = node :: visited_below (ts_children node).
Proof. by destruct node. Qed.

Lemma read_id_state r p :
  (on_AST (let* n := read r in ret (_id n)) p).2 = p.
Proof. rewrite on_AST_eq. unfold_M. destruct (_ !! r); apply upd_AST_id. Qed.

(** [preserves I m]: whatever its outcome, [m] maintains [I]. *)
Section preservation.
Context (fp : string) (B : list string).
Context (I : parser → Prop) (Q : ts_node → Prop).
Hypothesis visit_pres : ∀ depth node up idx last fn p,
  Q node → I p → I (visit fp B depth node up idx last fn p).2.
Hypothesis edge_pres : ∀ a b p,
  I p → I (on_AST (add_edge a b 1%Z false) p).2.

Lemma for_each_child_preserves body cs i p :
  (∀ c j p', c ∈ cs → I p' → I (body c j p').2) →
  I p → I (for_each_child body cs i p).2.
Proof using Type*.
  revert i p. induction cs as [|c cs IH]; intros i p Hbody Hp; [done|].
  simpl. unfold bind at 1.
  pose proof (Hbody c i p (list_elem_of_here _ _) Hp) as Hc.
  destruct (body c i p) as [[[]|e] p1]; simpl in *; [|done].
  apply IH; [|done]. intros c' j p' Hin. apply Hbody. by right.
Qed.

Lemma child_body_preserves (m : M (S := parser) string) n_ (c : ts_node) p :
  (∀ p', I p' → I (m p').2) →
  I p →
  I ((if ts_is_named c then
        let* to_id_ := m in
        let* n_id := on_AST (let* n := read n_ in ret (_id n)) in
        on_AST (add_edge n_id to_id_ 1%Z false)
      else ret tt) p).2.
Proof using Type*.
  intros Hrec Hp. destruct (ts_is_named c); [|done].
  unfold bind at 1. specialize (Hrec p Hp).
  destruct (m p) as [[to_id|e] p1]; simpl in *; [|done].
  unfold bind at 1.
  pose proof (read_id_state n_ p1) as Hread.
  destruct (on_AST _ p1) as [[n_id|e] p2]; simpl in *; subst p2; [|done].
  by apply edge_pres.
Qed.

Lemma children_preserves depth node n_ fn cs i p :
  Forall (λ c, ∀ up idx last fn p,
            Forall Q (visited c) → I p →
            I (_parse_node fp B depth c up idx last fn p).2) cs →
  Forall Q (visited_below cs) → I p →
  I (for_each_child (λ c i,
       if ts_is_named c then
         let* to_id_ := _parse_node fp B depth c (Some node) i (Some n_) fn in
         let* n_id := on_AST (let* n := read n_ in ret (_id n)) in
         on_AST (add_edge n_id to_id_ 1%Z false)
       else ret tt) cs i p).2.
Proof using Type*.
  intros IH HQ Hp. apply for_each_child_preserves; [|done].
  intros c j p' Hc Hp'.
  destruct (ts_is_named c) eqn:Hnamed; [|done].
  pose proof (child_body_preserves
    (_parse_node fp B depth c (Some node) j (Some n_) fn) n_ c p') as Hbody.
  rewrite Hnamed in Hbody. apply Hbody; [|done].
  intros p'' Hp''. rewrite Forall_forall in IH. apply IH; [done| |done].
  unfold visited_below in HQ. rewrite Forall_flat_map, Forall_forall in HQ.
  specialize (HQ c Hc). by rewrite Hnamed in HQ.
Qed.

Lemma parse_node_preserves node :
  ∀ depth up idx last fn p,
    Forall Q (visited node) → I p →
    I (_parse_node fp B depth node up idx last fn p).2.
Proof using Type*.
  induction node as [ty named txt sp ep cs IH] using ts_node_ind'.
  intros [|depth] up idx last fn p HQ Hp.
  { by rewrite parse_node_exhausted. }
  rewrite parse_node_unfold. rewrite visited_unfold in HQ.
  apply Forall_cons in HQ as [HQn HQcs].
  unfold bind at 1.
  pose proof (visit_pres depth _ up idx last fn p HQn Hp) as Hv.
  destruct (visit _ _ _ _ _ _ _ _ p) as [[[n_ id]|e] p1]; simpl in *; [|done].
  unfold bind at 1.
  pose proof (children_preserves depth (TSNode ty named txt sp ep cs) n_ fn cs
                0 p1 (Forall_impl _ _ _ IH (λ c H, H depth)) HQcs Hv) as Hloop.
  by destruct (for_each_child _ cs 0 p1) as [[[]|e] p2].
Qed.

(** The walk below the root, once the root is visited. *)
Lemma walk_below_preserves depth node n_ fn p :
  Forall Q (visited_below (ts_children node)) → I p →
  I (for_each_child (λ c i,
       if ts_is_named c then
         let* to_id_ := _parse_node fp B depth c (Some node) i (Some n_) fn in
         let* n_id := on_AST (let* n := read n_ in ret (_id n)) in
         on_AST (add_edge n_id to_id_ 1%Z false)
       else ret tt) (ts_children node) 0 p).2.
Proof using Type*.
  intros HQ Hp. apply children_preserves; [|done..].
  apply Forall_forall. intros c _ up idx last fn' p'.
  apply parse_node_preserves.
Qed.
End preservation.

(** ** The ids stay pairwise distinct *)

Lemma plain_kind_not_module node : plain_kind node → ts_type node ≠ "module".
Proof. unfold plain_kind. intros Hp Hm. by rewrite Hm in Hp. Qed.

Section uniqueness.
Context (fp : string) (B : list string).

Lemma visit_ids_fresh depth node up idx last fn p :
  plain_kind node ∨ ids p = [] →
  ids_fresh fp p → ids_fresh fp (visit fp B depth node up idx last fn p).2.
Proof.
  intros Hkind [Hnd Hcnt].
  destruct (visit_spec fp B depth node up idx last fn p)
    as [(e & _ & ->)|(text & n' & r & p' & _ & -> & Hobjs & Hid & _ & _ & _ &
        Hcounts & _)]; [done|].
  simpl. unfold ids_fresh, ids. rewrite Hobjs, fmap_app. simpl.
  set (name := display_name node text) in *.
  destruct Hkind as [Hkind|Hempty].
  - pose proof (plain_kind_not_module _ Hkind) as Hnm.
    unfold node_id in Hid. rewrite decide_False in Hid by done.
    rewrite decide_False in Hcounts by done.
    rewrite Hid, Hcounts. split.
    + apply NoDup_app. split_and!; [done| |apply NoDup_singleton].
      intros id Hin ->%list_elem_of_singleton.
      destruct (Hcnt _ Hin) as [Hmod|(name' & c0 & c & Heq & Hc & Hle)].
      * by apply suffixed_ne_module in Hmod.
      * apply suffixed_inj in Heq as [ <- <- ].
        unfold next_count in Hle. rewrite Hc in Hle. lia.
    + intros id [Hin| ->%list_elem_of_singleton]%elem_of_app.
      * destruct (Hcnt _ Hin) as [Hmod|(name' & c0 & c & Heq & Hc & Hle)];
          [by left|right].
        destruct (decide (name' = name)) as [->|Hne].
        -- exists name, c0, (next_count (_counts p) name).
           rewrite lookup_insert_eq. split_and!; [done..|].
           unfold next_count. rewrite Hc. lia.
        -- exists name', c0, c. by rewrite lookup_insert_ne.
      * right. exists name, (next_count (_counts p) name),
                 (next_count (_counts p) name).
        by rewrite lookup_insert_eq.
  - unfold ids in Hempty. rewrite Hempty. simpl. split.
    + apply NoDup_singleton.
    + intros id ->%list_elem_of_singleton. rewrite Hid, Hcounts.
      unfold node_id. destruct (decide (ts_type node = "module")); [by left|].
      right. exists name, (next_count (_counts p) name),
               (next_count (_counts p) name).
      by rewrite lookup_insert_eq.
Qed.

Lemma grows_ids_fresh p p' : grows p p' → ids_fresh fp p → ids_fresh fp p'.
Proof.
  intros (Hc&_&_&_&_&_&Hids&_). unfold ids_fresh, ids. by rewrite Hids, Hc.
Qed.

Lemma link_definition_grows g p : grows p (link_definition fp g p).2.
Proof.
  unfold link_definition. unfold_M.
  case_decide; [apply grows_refl|].
  destruct (_function_definitions p !! fp) as [file_defs|]; simpl;
    [|apply grows_refl].
  destruct (file_defs !! g) as [d|]; [|apply grows_refl].
  destruct (_function_calls p !! fp) as [file_calls|]; simpl;
    [|apply grows_refl].
  destruct (PyDict.get g file_calls) as [c|]; simpl; [|apply grows_refl].
  pose proof (on_AST_add_edge_grows c d 1%Z p) as H1.
  fold (on_AST (add_edge c d 1%Z false) p).
  destruct (on_AST (add_edge c d 1%Z false) p) as [[[]|e] p1]; simpl in *;
    [|done].
  pose proof (on_AST_add_edge_grows d c 1%Z p1) as H2.
  fold (on_AST (add_edge d c 1%Z false) p1).
  eapply grows_trans; [done|].
  by destruct (on_AST (add_edge d c 1%Z false) p1) as [[[]|e] p2].
Qed.

Lemma link_definitions_grows names p : grows p (link_definitions fp names p).2.
Proof.
  revert p. induction names as [|g names IH]; intros p; simpl.
  { apply grows_refl. }
  pose proof (link_definition_grows g p) as Hg. unfold bind.
  destruct (link_definition fp g p) as [[[]|e] p1]; simpl in *; [|done].
  eapply grows_trans; [done|]. apply IH.
Qed.

Lemma resolve_imports_grows p : grows p (_resolve_imports fp p).2.
Proof.
  unfold _resolve_imports. unfold_M. case_decide; [apply grows_refl|].
  destruct (_function_calls p !! fp) as [file_calls|]; simpl;
    [|apply grows_refl].
  pose proof (link_definitions_grows (PyDict.keys file_calls) p) as Hg.
  destruct (link_definitions fp (PyDict.keys file_calls) p) as [[[]|e] p1];
    simpl in *; [|done].
  eapply grows_trans; [done|]. apply add_import_edges_grows.
Qed.

(** The walk of a whole tree, from a parser that holds no object. *)
Lemma walk_ids_fresh depth root up idx last fn p :
  Forall plain_kind (visited_below (ts_children root)) →
  ids p = [] →
  ids_fresh fp (_parse_node fp B depth root up idx last fn p).2.
Proof.
  intros Hkinds Hempty.
  assert (ids_fresh fp p) as Hp.
  { unfold ids_fresh. rewrite Hempty. split; [constructor|].
    intros id Hin. by apply elem_of_nil in Hin. }
  destruct depth as [|depth]; [by rewrite parse_node_exhausted|].
  rewrite parse_node_unfold. unfold bind at 1.
  pose proof (visit_ids_fresh depth root up idx last fn p (or_intror Hempty) Hp)
    as Hv.
  destruct (visit fp B depth root up idx last fn p) as [[[n_ id]|e] p1];
    simpl in *; [|done].
  unfold bind at 1.
  pose proof (walk_below_preserves fp B (ids_fresh fp) plain_kind) as Hbelow.
  specialize (Hbelow
    (λ depth node up idx last fn p HQ,
       visit_ids_fresh depth node up idx last fn p (or_introl HQ))
    (λ a b p, grows_ids_fresh _ _ (on_AST_add_edge_grows a b 1%Z p))
    depth root n_ fn p1 Hkinds Hv).
  by destruct (for_each_child _ (ts_children root) 0 p1) as [[[]|e] p2].
Qed.
End uniqueness.

(** ** The walk that returns: what it has visited *)

Section visit_log.
Context (fp : string) (B : list string).
Context (I : list ts_node → parser → Prop).
Hypothesis visit_log : ∀ depth node up idx last fn vs p r p',
  visit fp B depth node up idx last fn p = (Ok r, p') →
  I vs p → I (vs ++ [node]) p'.
Hypothesis edge_log : ∀ a b vs p,
  I vs p → I vs (on_AST (add_edge a b 1%Z false) p).2.

Lemma for_each_child_log body cs i vs p p' :
  (∀ c j vs p p', c ∈ cs → body c j p = (Ok tt, p') → I vs p →
                  I (vs ++ (if ts_is_named c then visited c else [])) p') →
  for_each_child body cs i p = (Ok tt, p') → I vs p →
  I (vs ++ visited_below cs) p'.
Proof using Type.
  revert i vs p. induction cs as [|c cs IH]; intros i vs p Hbody Hrun Hp.
  { simpl in Hrun. unfold ret in Hrun. simplify_eq.
    unfold visited_below. simpl. by rewrite app_nil_r. }
  simpl in Hrun. apply bind_inv_Ok in Hrun as ([] & p1 & Hc & Hrest).
  unfold visited_below. simpl. rewrite app_assoc.
  eapply IH; [|done|].
  - intros c' j vs' q q' Hin. apply Hbody. by right.
  - eapply Hbody; [left|done..].
Qed.

Lemma child_body_log (m : M (S := parser) string) n_ (c : ts_node) vs p p' :
  (∀ vs p id p', m p = (Ok id, p') → I vs p → I (vs ++ visited c) p') →
  (if ts_is_named c then
     let* to_id_ := m in
     let* n_id := on_AST (let* n := read n_ in ret (_id n)) in
     on_AST (add_edge n_id to_id_ 1%Z false)
   else ret tt) p = (Ok tt, p') →
  I vs p → I (vs ++ (if ts_is_named c then visited c else [])) p'.
Proof using Type*.
  intros Hrec Hrun Hp. destruct (ts_is_named c).
  - apply bind_inv_Ok in Hrun as (to_id & p1 & Hm & Hrun).
    apply bind_inv_Ok in Hrun as (n_id & p2 & Hread & Hrun).
    pose proof (read_id_state n_ p1) as Hst. rewrite Hread in Hst.
    simpl in Hst. subst p2.
    pose proof (edge_log n_id to_id (vs ++ visited c) p1) as He.
    rewrite Hrun in He. apply He. by eapply Hrec.
  - unfold ret in Hrun. simplify_eq. by rewrite app_nil_r.
Qed.

Lemma parse_node_log node :
  ∀ depth up idx last fn vs p id p',
    _parse_node fp B depth node up idx last fn p = (Ok id, p') → I vs p →
    I (vs ++ visited node) p'.
Proof using Type*.
  induction node as [ty named txt sp ep cs IH] using ts_node_ind'.
  intros [|depth] up idx last fn vs p id p' Hrun Hp.
  { by rewrite parse_node_exhausted in Hrun. }
  rewrite parse_node_unfold in Hrun. rewrite visited_unfold.
  apply bind_inv_Ok in Hrun as ([n_ id'] & p1 & Hvisit & Hrun).
  apply bind_inv_Ok in Hrun as ([] & p2 & Hloop & Hret).
  unfold ret in Hret. simplify_eq. simpl.
  rewrite cons_middle, app_assoc.
  eapply for_each_child_log; [|exact Hloop|by eapply visit_log].
  intros c j vs' q q' Hc. apply child_body_log.
  rewrite Forall_forall in IH. intros vs'' q1 id1 q2. by apply IH.
Qed.
End visit_log.

Lemma parse_node_returns fp B depth node up idx last fn p id p' :
  _parse_node fp B depth node up idx last fn p = (Ok id, p') →
  ∃ text, text_of node = Ok text ∧
          id = node_id fp node (display_name node text) (_counts p).
Proof.
  intros Hrun.
  destruct depth as [|depth]; [by rewrite parse_node_exhausted in Hrun|].
  rewrite parse_node_unfold in Hrun.
  apply bind_inv_Ok in Hrun as ([n_ id'] & p1 & Hvisit & Hrun).
  apply bind_inv_Ok in Hrun as ([] & p2 & Hloop & Hret).
  unfold ret in Hret. simplify_eq.
  destruct (visit_spec fp B depth node up idx last fn p)
    as [(e & _ & Hv)|(text & n' & r & p'' & Htext & Hv & _ & Hid & _ & _ & _ &
        _ & Hcase)]; [congruence|].
  exists text. split; [done|]. rewrite Hvisit in Hv. simplify_eq.
  destruct Hcase as [([e ?] & _)|(_ & [?|[e ?]] & _)]; simplify_eq. done.
Qed.

(** ** The ids, one by one *)

Lemma labels_snoc fp vs node :
  labels fp (vs ++ [node]) = labels fp vs ++ [label fp vs node].
Proof.
  unfold labels. rewrite imap_app. simpl. f_equal.
  - apply imap_ext. intros k m Hk. simpl.
    rewrite take_app_le; [done|]. apply lookup_lt_Some in Hk. lia.
  - by rewrite Nat.add_0_r, take_app_length.
Qed.

Lemma count_before_snoc vs node name :
  count_before (vs ++ [node]) name =
    count_before vs name +
    (if decide (ts_type node ≠ "module" ∧ name_of node = name) then 1 else 0).
Proof.
  unfold count_before. rewrite filter_app, length_app. f_equal.
  rewrite filter_cons, filter_nil. by case_decide.
Qed.

Section labelling.
Context (fp : string) (B : list string).

Lemma visit_labelled depth node up idx last fn vs p r p' :
  visit fp B depth node up idx last fn p = (Ok r, p') →
  labelled fp vs p → labelled fp (vs ++ [node]) p'.
Proof.
  intros Hrun [Hids Hcnt].
  destruct (visit_spec fp B depth node up idx last fn p)
    as [(e & _ & Hv)|(text & n' & r' & p'' & Htext & Hv & Hobjs & Hid & _ & _ &
        _ & Hcounts & _)]; [congruence|].
  rewrite Hrun in Hv. simplify_eq.
  assert (name_of node = display_name node text) as Hname.
  { unfold name_of. by rewrite Htext. }
  split.
  - unfold ids. rewrite Hobjs, fmap_app, labels_snoc. fold (ids p).
    rewrite Hids. simpl. do 2 f_equal. rewrite Hid.
    unfold node_id, label. case_decide; [done|].
    by rewrite Hname, Hcnt.
  - intros name. rewrite count_before_snoc, Hcounts, <-Hcnt.
    destruct (decide (ts_type node = "module")) as [Hm|Hm].
    + rewrite decide_False; [lia|]. by intros [? _].
    + rewrite Hname. unfold next_count at 1.
      destruct (decide (display_name node text = name)) as [->|Hne].
      * rewrite lookup_insert_eq, decide_True by done. done.
      * rewrite lookup_insert_ne by done.
        rewrite decide_False; [|by intros [_ ?]].
        unfold next_count. lia.
Qed.

Lemma grows_labelled vs p p' : grows p p' → labelled fp vs p → labelled fp vs p'.
Proof.
  intros (Hc&_&_&_&_&_&Hids&_). unfold labelled, ids. by rewrite Hids, Hc.
Qed.

Lemma labelled_init : labelled fp [] parser_init.
Proof.
  split; [done|]. intros name. unfold next_count, parser_init, _counts.
  by rewrite lookup_empty.
Qed.

Lemma walk_labelled depth root up idx last fn id p' :
  _parse_node fp B depth root up idx last fn parser_init = (Ok id, p') →
  labelled fp (visited root) p'.
Proof.
  intros Hrun.
  apply (parse_node_log fp B (labelled fp)) with (vs := []) in Hrun; [done|..].
  - apply visit_labelled.
  - intros a b vs p. apply grows_labelled, on_AST_add_edge_grows.
  - apply labelled_init.
Qed.

(** [parse] is the walk followed by the resolution, which adds edges only. *)
Lemma parse_after_walk depth root :
  grows (_parse_node fp B depth root None 0 None fp parser_init).2
        (parse fp B depth root parser_init).2 ∧
  ∀ id, (parse fp B depth root parser_init).1 = Ok id →
        (_parse_node fp B depth root None 0 None fp parser_init).1 = Ok id.
Proof.
  unfold parse. unfold bind at 1 3.
  destruct (_parse_node fp B depth root None 0 None fp parser_init)
    as [[root_id|e] p1]; simpl; [|split; [apply grows_refl|done]].
  unfold bind. pose proof (resolve_imports_grows fp p1) as Hg.
  destruct (_resolve_imports fp p1) as [[[]|e] p2]; simpl in *; split;
    try done.
Qed.
End labelling.

(** C1: the walk never gives the same id to two nodes, provided no node
    below the root has a kind starting with the word module (the root's
    kind).  When [parse] returns, the ids are, in the order of the visits,
    the file path prefixed with [module | ] for a [module] node and, for any
    other node, its display name followed by an underscore and the number
    of earlier nodes with that display name; the id returned is the
    root's. *)
Theorem parse_ids_unique (fp : string) (B : list string)
    (depth : nat) (root : ts_node) :
  Forall plain_kind (visited_below (ts_children root)) →
  NoDup (ids (parse fp B depth root parser_init).2) ∧
  ∀ id, (parse fp B depth root parser_init).1 = Ok id →
        ids (parse fp B depth root parser_init).2 = labels fp (visited root) ∧
        id = label fp [] root.
Proof.
  intros Hkinds.
  destruct (parse_after_walk fp B depth root) as [Hgrows Hwalk].
  split.
  - eapply (grows_ids_fresh fp); [exact Hgrows|].
    by apply walk_ids_fresh.
  - intros id Hid%Hwalk.
    destruct (_parse_node fp B depth root None 0 None fp parser_init)
      as [r p1] eqn:Hrun.
    simpl in *. subst r. split.
    + pose proof (walk_labelled fp B _ _ _ _ _ _ _ _ Hrun) as Hl.
      by apply (grows_labelled fp _ _ _ Hgrows) in Hl as [-> _].
    + apply parse_node_returns in Hrun as (text & Htext & ->).
      unfold node_id, label, name_of, count_before, next_count.
      rewrite Htext. simpl. by rewrite lookup_empty.
Qed.

Lemma parse_ids_unique_witness :
  NoDup (ids (parse "a.py" ["print"; "len"] 1000 example_tree parser_init).2) ∧
  ids (parse "a.py" ["print"; "len"] 1000 example_tree parser_init).2
    = labels "a.py" (visited example_tree) ∧
  "module | a.py" = label "a.py" [] example_tree.
Proof.
  destruct (parse_ids_unique "a.py" ["print"; "len"] 1000 example_tree)
    as [Hnd Hids].
  { vm_compute. repeat constructor. }
  split; [exact Hnd|].
  apply (Hids "module | a.py"). vm_compute. reflexivity.
Defined.

(** ** What the handlers write *)

Lemma elem_of_set {K V} `{EqDecision K} (k : K) (v : V) d k' v' :
  (k', v') ∈ PyDict.set k v d → (k' = k ∧ v' = v) ∨ (k', v') ∈ d.
Proof.
  induction d as [|[k0 v0] d IH]; simpl.
  - intros [= -> ->]%list_elem_of_singleton. by left.
  - destruct (decide (k = k0)) as [->|Hne]; rewrite !elem_of_cons.
    + intros [[= -> ->]|Hin]; [by left|]. right. by right.
    + intros [[= -> ->]|Hin]; [right; by left|].
      destruct (IH Hin) as [?|?]; [by left|]. right. by right.
Qed.

Section records.
Context (fp : string).

Lemma record_call_lookup g id d :
  record_call fp g id d !! fp = Some (PyDict.set g id (default [] (d !! fp))).
Proof.
  unfold record_call. destruct (d !! fp); by rewrite lookup_insert_eq.
Qed.

Lemma record_lookup {V} k (v : V) d :
  record fp k v d !! fp = Some (<[k := v]> (default ∅ (d !! fp))).
Proof.
  unfold record. destruct (d !! fp); by rewrite lookup_insert_eq.
Qed.

Lemma record_call_elem_of g id d fc g' c :
  record_call fp g id d !! fp = Some fc → (g', c) ∈ fc →
  c = id ∨ ∃ fc0, d !! fp = Some fc0 ∧ (g', c) ∈ fc0.
Proof.
  rewrite record_call_lookup. intros [= <-] Hin%elem_of_set.
  destruct Hin as [[_ ->]|Hin]; [by left|]. right.
  destruct (d !! fp) as [fc0|]; simpl in *; [eauto|].
  by apply elem_of_nil in Hin.
Qed.

Lemma record_elem_of {V} k (v : V) d table k' v' :
  record fp k v d !! fp = Some table → table !! k' = Some v' →
  v' = v ∨ ∃ table0, d !! fp = Some table0 ∧ table0 !! k' = Some v'.
Proof.
  rewrite record_lookup. intros [= <-]. rewrite lookup_insert.
  case_decide; [intros [= <-]; by left|]. intros Hin. right.
  destruct (d !! fp) as [table0|]; simpl in *; [eauto|].
  by rewrite lookup_empty in Hin.
Qed.
End records.

Lemma mentioned_mentions fp p x : mentioned fp p x ↔ ∃ ro, mentions fp p ro x.
Proof.
  unfold mentioned. split.
  - intros [?|[?|[?|[?|?]]]];
      [exists Caller; by left|by exists Definer|exists Importer; by left|
       exists Caller; by right|exists Importer; by right].
  - intros [[] Hm]; simpl in Hm; [destruct Hm|idtac|destruct Hm]; tauto.
Qed.

(** What a visit mentions: what was mentioned, and the id of the node when
    the node records in that role. *)
Lemma visit_mentions fp B depth node up idx last fn p r p' ro x :
  visit fp B depth node up idx last fn p = (r, p') →
  mentions fp p' ro x →
  mentions fp p ro x ∨
  (plays B ro node ∧ ids p' = ids p ++ [x] ∧
   vert_dict (graph (_AST p')) !! x = Some (length (ids p))).
Proof.
  intros Hrun Hm.
  destruct (visit_spec fp B depth node up idx last fn p)
    as [(e & _ & Hv)|(text & n' & r' & p'' & _ & Hv & Hobjs & _ & _ & _ & _ &
        _ & Hcase)]; rewrite Hrun in Hv.
  { injection Hv as -> ->. by left. }
  injection Hv as <- <-.
  destruct Hcase as [(_ & _ & _ & Hc & Hi & Hd & He)|
                     (Hg & _ & Hc & He & Hi & Hd)].
  { left. destruct ro; simpl in *; by rewrite ?Hc, ?Hi, ?Hd, ?He in Hm. }
  assert (ids p' = ids p ++ [_id n'] ∧
          vert_dict (graph (_AST p')) !! _id n' = Some (length (ids p)))
    as [Hids Hreg].
  { unfold ids. rewrite Hobjs, fmap_app, Hg, length_fmap. simpl.
    by rewrite lookup_insert_eq. }
  assert (x = _id n' → plays B ro node →
               mentions fp p ro x ∨
               plays B ro node ∧ ids p' = ids p ++ [x] ∧
               vert_dict (graph (_AST p')) !! x = Some (length (ids p)))
    as Hnew.
  { intros -> Hrec. right. by rewrite Hids. }
  clear Hids Hreg.
  assert (∀ fc g, _function_calls p' !! fp = Some fc → (g, x) ∈ fc →
            (∃ fc0, _function_calls p !! fp = Some fc0 ∧ (g, x) ∈ fc0) ∨
            (x = _id n' ∧ is_Some (handled_callee B node))) as Hcalls.
  { intros fc g Hfc Hin. rewrite Hc in Hfc.
    destruct (handled_callee B node) as [g0|]; [|left; eauto].
    destruct (record_call_elem_of fp _ _ _ _ _ _ Hfc Hin) as [->|?];
      [right|left]; eauto. }
  assert (∀ fd g, _function_definitions p' !! fp = Some fd → fd !! g = Some x →
            (∃ fd0, _function_definitions p !! fp = Some fd0 ∧
                    fd0 !! g = Some x) ∨
            (x = _id n' ∧ plays B Definer node)) as Hdefs.
  { intros fd g Hfd Hin. destruct Hd as [Hd|(k & Hkind & _ & Hd)];
      rewrite Hd in Hfd; [left; eauto|].
    destruct (record_elem_of fp _ _ _ _ _ _ Hfd Hin) as [->|?];
      [right|left]; eauto. }
  assert (∀ table q path, _imports p' !! fp = Some table →
            table !! q = Some (x, path) →
            (∃ table0, _imports p !! fp = Some table0 ∧
                       table0 !! q = Some (x, path)) ∨
            (x = _id n' ∧ plays B Importer node)) as Himps.
  { intros table q path Ht Hin. destruct Hi as [Hi|(k & path' & Hkind & _ & Hi)];
      rewrite Hi in Ht; [left; eauto|].
    destruct (record_elem_of fp _ _ _ _ _ _ Ht Hin) as [[= -> ->]|?];
      [right|left]; eauto. }
  assert (∀ a b, (a, b) ∈ _edges_to_add p' →
            (a, b) ∈ _edges_to_add p ∨
            (a = _id n' ∧ is_Some (handled_callee B node) ∧
             ∃ table q path, _imports p !! fp = Some table ∧
                             table !! q = Some (b, path))) as Hedges.
  { intros a b Hin.
    destruct He as [He|(table & q & [t path] & Hh & Ht & Hq & He)];
      rewrite He in Hin; [by left|].
    apply elem_of_app in Hin as [?|[= -> ->]%list_elem_of_singleton];
      [by left|right]. eauto 10. }
  destruct ro; simpl in *.
  - destruct Hm as [(fc & g & Hfc & Hin)|(y & Hin)].
    + destruct (Hcalls _ _ Hfc Hin) as [(fc0 & ? & ?)|[Hx Hh]];
        [left; left; eauto|by apply Hnew].
    + destruct (Hedges _ _ Hin) as [?|(Hx & Hh & _)];
        [left; right; eauto|by apply Hnew].
  - destruct Hm as (fd & g & Hfd & Hin).
    destruct (Hdefs _ _ Hfd Hin) as [(fd0 & ? & ?)|[Hx Hh]];
      [left; eauto|by apply Hnew].
  - destruct Hm as [(table & q & path & Ht & Hin)|(y & Hin)].
    + destruct (Himps _ _ _ Ht Hin) as [(t0 & ? & ?)|[Hx Hh]];
        [left; left; eauto|by apply Hnew].
    + destruct (Hedges _ _ Hin) as [?|(_ & _ & table & q & path & ? & ?)];
        [left; right; eauto|left; left; eauto].
Qed.

(** The same, whatever the role. *)
Lemma visit_mentioned fp B depth node up idx last fn p r p' x :
  visit fp B depth node up idx last fn p = (r, p') →
  mentioned fp p' x →
  mentioned fp p x ∨
  (ids p' = ids p ++ [x] ∧
   vert_dict (graph (_AST p')) !! x = Some (length (ids p))).
Proof.
  intros Hrun [ro Hm]%mentioned_mentions.
  destruct (visit_mentions _ _ _ _ _ _ _ _ _ _ _ _ _ Hrun Hm) as [?|(_ & ? & ?)];
    [left|by right].
  apply mentioned_mentions. by exists ro.
Qed.

(** ** What every walk maintains *)

Lemma handled_callee_not_builtin B node g :
  handled_callee B node = Some g → g ∉ B.
Proof.
  unfold handled_callee. repeat case_match; try done. by intros [= <-].
Qed.

Lemma store_ok_wf s : store_ok s → store_wf s.
Proof.
  intros Hok id r Hr. apply Hok, lookup_lt_Some in Hr.
  by rewrite length_fmap in Hr.
Qed.

Lemma grows_store_ok p p' : grows p p' → store_ok (_AST p) → store_ok (_AST p').
Proof.
  intros (_&_&_&_&_&Hg&Hids&_) Hok id r. rewrite Hg, Hids. apply Hok.
Qed.

Lemma grows_mentioned fp p p' x : grows p p' → mentioned fp p' x → mentioned fp p x.
Proof.
  intros (_&Hc&Hi&Hd&He&_). unfold mentioned. by rewrite Hc, Hi, Hd, He.
Qed.

Section maintained.
Context (fp : string) (B : list string).

Lemma visit_sound depth node up idx last fn p :
  sound fp B p → sound fp B (visit fp B depth node up idx last fn p).2.
Proof.
  intros (Hok & Hreg & Hnb).
  destruct (visit fp B depth node up idx last fn p) as [r p'] eqn:Hrun. simpl.
  destruct (visit_spec fp B depth node up idx last fn p)
    as [(e & _ & Hv)|(text & n' & r' & p'' & _ & Hv & Hobjs & _ & _ & _ & _ &
        _ & Hcase)]; rewrite Hrun in Hv.
  { by injection Hv as -> ->. }
  injection Hv as <- <-.
  assert (∀ x, registered (_AST p) x → registered (_AST p') x) as Hmono.
  { intros x Hx. unfold registered in *.
    destruct Hcase as [(_ & _ & -> & _)|(-> & _)]; [done|]. simpl.
    rewrite lookup_insert. by case_decide. }
  split_and!.
  - intros id rf Hr. rewrite Hobjs, fmap_app.
    destruct Hcase as [(_ & _ & Hg & _)|(Hg & _)]; rewrite Hg in Hr.
    + apply Hok in Hr. by apply lookup_app_l_Some.
    + simpl in Hr. apply lookup_insert_Some in Hr as [[<- <-]|[_ Hr]].
      * rewrite lookup_app_r by (by rewrite length_fmap).
        by rewrite length_fmap, Nat.sub_diag.
      * apply Hok in Hr. by apply lookup_app_l_Some.
  - intros x Hx.
    destruct (visit_mentioned _ _ _ _ _ _ _ _ _ _ _ _ Hrun Hx)
      as [Hold|(_ & Hnew)].
    + by apply Hmono, Hreg.
    + by eexists.
  - intros fc b Hfc Hb.
    destruct Hcase as [(_ & _ & _ & Hc & _)|(_ & _ & Hc & _)];
      rewrite Hc in Hfc; [by eapply Hnb|].
    destruct (handled_callee B node) as [g|] eqn:Hh; [|by eapply Hnb].
    rewrite record_call_lookup in Hfc. injection Hfc as <-.
    rewrite get_set_ne.
    + destruct (_function_calls p !! fp) as [fc0|] eqn:Hfc0; simpl; [|done].
      by eapply Hnb.
    + intros ->. by apply handled_callee_not_builtin in Hh.
Qed.

Lemma grows_sound p p' : grows p p' → sound fp B p → sound fp B p'.
Proof.
  intros Hg (Hok & Hreg & Hnb). split_and!.
  - by eapply grows_store_ok.
  - intros x Hx%(grows_mentioned _ _ _ _ Hg). by eapply grows_registered, Hreg.
  - destruct Hg as (_&Hc&_). unfold no_builtin_call. by rewrite Hc.
Qed.

Lemma sound_init : sound fp B parser_init.
Proof.
  split_and!.
  - intros id r Hr. by destruct (lookup_empty_Some (M := gmap string) id r).
  - intros x [(fc & g & H & _)|[(fd & g & H & _)|[(t & q & pa & H & _)|
      [(y & H)|(y & H)]]]].
    + by destruct (lookup_empty_Some (M := gmap string) fp fc).
    + by destruct (lookup_empty_Some (M := gmap string) fp fd).
    + by destruct (lookup_empty_Some (M := gmap string) fp t).
    + by apply elem_of_nil in H.
    + by apply elem_of_nil in H.
  - intros fc b H. by destruct (lookup_empty_Some (M := gmap string) fp fc).
Qed.

Lemma walk_sound depth root up idx last fn :
  sound fp B (_parse_node fp B depth root up idx last fn parser_init).2.
Proof.
  apply (parse_node_preserves fp B (sound fp B) (λ _, True)).
  - intros depth' node up' idx' last' fn' p _. apply visit_sound.
  - intros a b p. apply grows_sound, on_AST_add_edge_grows.
  - by apply Forall_true.
  - apply sound_init.
Qed.
End maintained.

(** ** What a walk that returns has established *)

Lemma length_labels fp vs : length (labels fp vs) = length vs.
Proof. apply length_imap. Qed.

Lemma call_site_ids_snoc fp B vs node g :
  call_site_ids fp B (vs ++ [node]) g =
    call_site_ids fp B vs g ++
    (if decide (handled_callee B node = Some g) then [label fp vs node] else []).
Proof.
  unfold call_site_ids. rewrite labels_snoc.
  rewrite zip_with_app by (by rewrite length_labels).
  rewrite omap_app. f_equal. simpl. by case_decide.
Qed.

Section observation.
Context (fp : string) (B : list string).

Lemma visit_observed depth node up idx last fn vs p r p' :
  visit fp B depth node up idx last fn p = (Ok r, p') →
  observed fp B vs p → observed fp B (vs ++ [node]) p'.
Proof.
  intros Hrun (Hlab & Hrec & Hlast).
  pose proof (visit_labelled fp B _ _ _ _ _ _ _ _ _ _ Hrun Hlab) as Hlab'.
  assert (length (ids p) = length vs) as Hlen.
  { destruct Hlab as [-> _]. apply length_labels. }
  destruct (visit_spec fp B depth node up idx last fn p)
    as [(e & _ & Hv)|(text & n' & r' & p'' & _ & Hv & Hobjs & _ & _ & _ & _ &
        _ & Hcase)]; rewrite Hrun in Hv; [done|].
  injection Hv as <- <-.
  assert (ids p' = ids p ++ [_id n']) as Hids.
  { unfold ids. by rewrite Hobjs, fmap_app. }
  assert (_id n' = label fp vs node) as Hid.
  { destruct Hlab as [Hl _], Hlab' as [Hl' _].
    rewrite Hids, labels_snoc, Hl in Hl'. by simplify_list_eq. }
  split_and!; [done| |].
  - intros ro x Hx.
    destruct (visit_mentions _ _ _ _ _ _ _ _ _ _ _ _ _ Hrun Hx)
      as [Hold|(Hnode & Hnew & _)].
    + destruct (Hrec ro x Hold) as (k & m & Hk & Hm & Hidk).
      exists k, m. split_and!; [by apply lookup_app_l_Some|done|].
      rewrite Hids. by apply lookup_app_l_Some.
    + exists (length vs), node. split_and!; [|done|].
      * by rewrite lookup_app_r, Nat.sub_diag.
      * rewrite Hnew, <-Hlen. by rewrite lookup_app_r, Nat.sub_diag.
  - intros g. rewrite call_site_ids_snoc.
    destruct Hcase as [([e ?] & _)|(_ & _ & Hc & _)]; [done|].
    rewrite Hc, Hid. specialize (Hlast g).
    destruct (handled_callee B node) as [g0|] eqn:Hh.
    + rewrite record_call_lookup. simpl.
      destruct (decide (g0 = g)) as [->|Hne].
      * rewrite decide_True by done. by rewrite get_set_eq, last_snoc.
      * rewrite decide_False by congruence. rewrite app_nil_r, <-Hlast.
        rewrite get_set_ne by done.
        by destruct (_function_calls p !! fp).
    + rewrite decide_False by done. by rewrite app_nil_r.
Qed.

Lemma grows_observed vs p p' :
  grows p p' → observed fp B vs p → observed fp B vs p'.
Proof.
  intros Hg (Hlab & Hrec & Hlast). split_and!.
  - by eapply grows_labelled.
  - intros ro x Hx.
    assert (mentions fp p ro x) as Hx'.
    { destruct Hg as (_&Hc&Hi&Hd&He&_).
      destruct ro; simpl in *; by rewrite ?Hc, ?Hi, ?Hd, ?He in Hx. }
    destruct Hg as (_&_&_&_&_&_&Hids&_). unfold ids. rewrite Hids.
    by apply Hrec.
  - destruct Hg as (_&Hc&_). unfold last_wins. by rewrite Hc.
Qed.

Lemma observed_init : observed fp B [] parser_init.
Proof.
  split_and!.
  - apply labelled_init.
  - intros ro x Hx. destruct (sound_init fp B) as (_ & Hreg & _).
    destruct (Hreg x) as [r Hr]; [apply mentioned_mentions; by exists ro|].
    by destruct (lookup_empty_Some (M := gmap string) x r).
  - intros g. unfold call_site_ids. simpl.
    replace (_function_calls parser_init !! fp) with
      (@None (list (string * string))); [done|].
    symmetry. apply lookup_empty.
Qed.

Lemma walk_observed depth root up idx last fn id p' :
  _parse_node fp B depth root up idx last fn parser_init = (Ok id, p') →
  observed fp B (visited root) p'.
Proof.
  intros Hrun.
  apply (parse_node_log fp B (observed fp B)) with (vs := []) in Hrun;
    [done|..].
  - apply visit_observed.
  - intros a b vs p. apply grows_observed, on_AST_add_edge_grows.
  - apply observed_init.
Qed.
End observation.

(** ** Two nodes, two ids *)

Lemma count_before_app vs1 vs2 name :
  count_before (vs1 ++ vs2) name = count_before vs1 name + count_before vs2 name.
Proof. unfold count_before. by rewrite filter_app, length_app. Qed.

Lemma count_before_lt vs k k' node :
  k < k' → vs !! k = Some node → ts_type node ≠ "module" →
  count_before (take k vs) (name_of node)
    < count_before (take k' vs) (name_of node).
Proof.
  intros Hlt Hk Hnm.
  rewrite <-(take_drop (S k) (take k' vs)), take_take.
  replace (S k `min` k') with (S k) by lia.
  rewrite (take_S_r _ _ _ Hk), !count_before_app.
  unfold count_before at 3. rewrite filter_cons, filter_nil.
  rewrite decide_True by done. simpl. lia.
Qed.

Lemma labels_lookup fp vs k node :
  vs !! k = Some node → labels fp vs !! k = Some (label fp (take k vs) node).
Proof. intros Hk. unfold labels. by rewrite list_lookup_imap, Hk. Qed.

(** Two visited nodes, neither a [module], never share an id. *)
Lemma labels_inj fp vs k k' node node' :
  vs !! k = Some node → vs !! k' = Some node' →
  ts_type node ≠ "module" → ts_type node' ≠ "module" →
  labels fp vs !! k = labels fp vs !! k' → k = k'.
Proof.
  intros Hk Hk' Hnm Hnm'.
  rewrite (labels_lookup _ _ _ _ Hk), (labels_lookup _ _ _ _ Hk').
  unfold label. rewrite !decide_False by done.
  intros [= [Hname Hcount]%suffixed_inj].
  destruct (Nat.lt_trichotomy k k') as [Hlt|[?|Hlt]]; [|done|].
  - pose proof (count_before_lt vs k k' node Hlt Hk Hnm). rewrite Hname in *. lia.
  - pose proof (count_before_lt vs k' k node' Hlt Hk' Hnm').
    rewrite <-Hname in *. lia.
Qed.

(** ** The edges that the resolution adds *)

Lemma store_ok_inj s x y r :
  store_ok s → vert_dict (graph s) !! x = Some r →
  vert_dict (graph s) !! y = Some r → x = y.
Proof. intros Hok Hx%Hok Hy%Hok. congruence. Qed.

Lemma add_edge_has_edge p a b x y :
  store_ok (_AST p) →
  has_edge (_AST (on_AST (add_edge a b 1%Z false) p).2) x y →
  has_edge (_AST p) x y ∨ (x = a ∧ y = b).
Proof.
  intros Hok. rewrite on_AST_eq. simpl.
  destruct (add_edge_cases (_AST p) a b 1%Z)
    as [[e ->]|(ra & rb & Ha & Hb & ->)]; simpl; [by left|].
  intros (i & j & n2 & Hx & Hy & Hn2 & Hj). simpl in *.
  rewrite list_lookup_alter in Hn2.
  destruct (decide (ra = i)) as [->|Hne].
  - destruct (objs (_AST p) !! i) as [n1|] eqn:Hn1; simplify_eq/=.
    apply get_connections_add_neighbor in Hj as [->|Hj].
    + right. split; by eapply store_ok_inj.
    + left. by exists i, j, n1.
  - left. by exists i, j, n2.
Qed.

Section resolved.
Context (fp : string).

Lemma grows_planned p p' x y : grows p p' → planned fp p' x y ↔ planned fp p x y.
Proof. intros (_&Hc&_&Hd&He&_). unfold planned. by rewrite Hc, Hd, He. Qed.

Lemma link_definition_has_edge g p x y :
  store_ok (_AST p) →
  has_edge (_AST (link_definition fp g p).2) x y →
  has_edge (_AST p) x y ∨ planned fp p x y.
Proof.
  intros Hok. unfold link_definition. unfold_M.
  case_decide; [by left|].
  destruct (_function_definitions p !! fp) as [fd|] eqn:Hfd; simpl; [|by left].
  destruct (fd !! g) as [d|] eqn:Hd; [|by left].
  destruct (_function_calls p !! fp) as [fc|] eqn:Hfc; simpl; [|by left].
  destruct (PyDict.get g fc) as [c|] eqn:Hc; simpl; [|by left].
  pose proof (add_edge_has_edge p c d x y Hok) as H1.
  pose proof (on_AST_add_edge_grows c d 1%Z p) as Hg1.
  fold (on_AST (add_edge c d 1%Z false) p).
  destruct (on_AST (add_edge c d 1%Z false) p) as [[[]|e] p1]; simpl in *.
  - pose proof (add_edge_has_edge p1 d c x y (grows_store_ok _ _ Hg1 Hok)) as H2.
    fold (on_AST (add_edge d c 1%Z false) p1).
    assert (has_edge (_AST (on_AST (add_edge d c 1%Z false) p1).2) x y →
            has_edge (_AST p) x y ∨ planned fp p x y) as Hres.
    { intros [[?|[-> ->]]%H1|[-> ->]]%H2; [by left|right..].
      - left. by exists fc, fd, g.
      - right. left. by exists fc, fd, g. }
    by destruct (on_AST (add_edge d c 1%Z false) p1) as [[[]|e] p2].
  - intros [?|[-> ->]]%H1; [by left|right]. left. by exists fc, fd, g.
Qed.

Lemma link_definitions_has_edge names p x y :
  store_ok (_AST p) →
  has_edge (_AST (link_definitions fp names p).2) x y →
  has_edge (_AST p) x y ∨ planned fp p x y.
Proof.
  revert p. induction names as [|g names IH]; intros p Hok; simpl; [by left|].
  pose proof (link_definition_has_edge g p x y Hok) as H1.
  pose proof (link_definition_grows fp g p) as Hg. unfold bind.
  destruct (link_definition fp g p) as [[[]|e] p1]; simpl in *; [|done].
  intros [?|Hpl]%IH; [by apply H1| |by eapply grows_store_ok].
  right. by apply (grows_planned _ _ _ _ Hg).
Qed.

Lemma add_import_edges_has_edge edges p x y :
  store_ok (_AST p) →
  has_edge (_AST (add_import_edges edges p).2) x y →
  has_edge (_AST p) x y ∨ (x, y) ∈ edges.
Proof.
  revert p. induction edges as [|[a b] edges IH]; intros p Hok; simpl;
    [by left|].
  pose proof (add_edge_has_edge p a b x y Hok) as H1.
  pose proof (on_AST_add_edge_grows a b 1%Z p) as Hg. unfold bind.
  destruct (on_AST (add_edge a b 1%Z false) p) as [[[]|e] p1]; simpl in *.
  - intros [[?|[-> ->]]%H1|?]%IH; [by left|right; left|right; by right|].
    by eapply grows_store_ok.
  - intros [?|[-> ->]]%H1; [by left|right; left].
Qed.

(** Every edge of the resolved graph was there before or was planned. *)
Lemma resolve_has_edge p x y :
  store_ok (_AST p) →
  has_edge (_AST (_resolve_imports fp p).2) x y →
  has_edge (_AST p) x y ∨ planned fp p x y.
Proof.
  intros Hok. unfold _resolve_imports. unfold_M. case_decide; [by left|].
  destruct (_function_calls p !! fp) as [fc|]; simpl; [|by left].
  pose proof (link_definitions_has_edge (PyDict.keys fc) p x y Hok) as H1.
  pose proof (link_definitions_grows fp (PyDict.keys fc) p) as Hg.
  destruct (link_definitions fp (PyDict.keys fc) p) as [[[]|e] p1];
    simpl in *; [|done].
  intros [?|Hin]%add_import_edges_has_edge; [by apply H1|right|].
  - do 2 right. destruct Hg as (_&_&_&_&He&_). by rewrite <-He.
  - by eapply grows_store_ok.
Qed.
End resolved.

(** ** The resolution after a walk returns normally *)

Lemma has_edge_b_spec s a b : has_edge s a b ↔ has_edge_b s a b = true.
Proof.
  unfold has_edge, has_edge_b. split.
  - intros (ra & rb & n & Ha & Hb & Hn & Hin). rewrite Ha, Hb, Hn.
    by apply bool_decide_eq_true.
  - destruct (vert_dict (graph s) !! a) as [ra|]; [|done].
    destruct (vert_dict (graph s) !! b) as [rb|]; [|done].
    destruct (objs s !! ra) as [n|] eqn:Hn; [|done].
    intros Hin%bool_decide_eq_true. by exists ra, rb, n.
Qed.

Section records_ne.
Context (fp : string).

Lemma record_call_lookup_ne g id d k :
  k ≠ fp → record_call fp g id d !! k = d !! k.
Proof.
  intros Hne. unfold record_call. destruct (d !! fp); by rewrite lookup_insert_ne.
Qed.

Lemma record_lookup_ne {V} g (v : V) d k :
  k ≠ fp → record fp g v d !! k = d !! k.
Proof.
  intros Hne. unfold record. destruct (d !! fp); by rewrite lookup_insert_ne.
Qed.
End records_ne.

Section keys.
Context (fp : string) (B : list string).

Lemma visit_keyed depth node up idx last fn p :
  keyed fp p → keyed fp (visit fp B depth node up idx last fn p).2.
Proof.
  intros (Hkc & Hkd & Hq).
  destruct (visit fp B depth node up idx last fn p) as [r p'] eqn:Hrun. simpl.
  destruct (visit_spec fp B depth node up idx last fn p)
    as [(e & _ & Hv)|(text & n' & r' & p'' & _ & Hv & _ & _ & _ & _ & _ &
        _ & Hcase)]; rewrite Hrun in Hv.
  { by injection Hv as -> ->. }
  injection Hv as <- <-.
  destruct Hcase as [(_ & _ & _ & Hc & _ & Hd & He)|(_ & _ & Hc & He & _ & Hd)].
  { unfold keyed. by rewrite Hc, Hd, He. }
  assert (is_Some (_function_calls p !! fp) →
          is_Some (_function_calls p' !! fp)) as Hmono.
  { rewrite Hc. destruct (handled_callee B node); [|done].
    by rewrite record_call_lookup. }
  split_and!.
  - intros k Hk. rewrite Hc in Hk. destruct (handled_callee B node); [|auto].
    destruct (decide (k = fp)) as [|Hne]; [done|].
    rewrite record_call_lookup_ne in Hk by done. auto.
  - intros k Hk. destruct Hd as [Hd|(g & _ & _ & Hd)]; rewrite Hd in Hk; [auto|].
    destruct (decide (k = fp)) as [|Hne]; [done|].
    rewrite record_lookup_ne in Hk by done. auto.
  - destruct He as [He|(table & q & t & [g Hh] & _ & _ & He)].
    + rewrite He. destruct Hq; auto.
    + right. rewrite Hc, Hh. by rewrite record_call_lookup.
Qed.

Lemma grows_keyed p p' : grows p p' → keyed fp p → keyed fp p'.
Proof. intros (_&Hc&_&Hd&He&_). unfold keyed. by rewrite Hc, Hd, He. Qed.

Lemma keyed_init : keyed fp parser_init.
Proof.
  split_and!; [| |by left]; intros k [v Hv];
    by destruct (lookup_empty_Some (M := gmap string) k v).
Qed.

Lemma walk_keyed depth root : keyed fp (walked fp B depth root).
Proof.
  apply (parse_node_preserves fp B (keyed fp) (λ _, True)).
  - intros depth' node up' idx' last' fn' p _. apply visit_keyed.
  - intros a b p. apply grows_keyed, on_AST_add_edge_grows.
  - by apply Forall_true.
  - apply keyed_init.
Qed.
End keys.

Section installed.
Context (fp : string) (B : list string).

Lemma keyed_no_calls p :
  keyed fp p → _function_calls p !! fp = None →
  _function_calls p = ∅ ∧ _edges_to_add p = [].
Proof.
  intros (Hkc & _ & Hq) Hnone. split.
  - apply map_eq. intros k. rewrite lookup_empty.
    destruct (_function_calls p !! k) eqn:Hk; [|done].
    assert (k = fp) as -> by (apply Hkc; by eexists). congruence.
  - destruct Hq as [?|[? ?]]; [done|congruence].
Qed.

Lemma keyed_no_defs p :
  keyed fp p → _function_definitions p !! fp = None →
  _function_definitions p = ∅.
Proof.
  intros (_ & Hkd & _) Hnone. apply map_eq. intros k. rewrite lookup_empty.
  destruct (_function_definitions p !! k) eqn:Hk; [|done].
  assert (k = fp) as -> by (apply Hkd; by eexists). congruence.
Qed.

Lemma link_definitions_no_defs names p :
  _function_definitions p = ∅ → link_definitions fp names p = (Ok tt, p).
Proof.
  intros Hd. induction names as [|g names IH]; [done|].
  simpl. unfold bind at 1. unfold link_definition. unfold_M.
  rewrite decide_True by done. apply IH.
Qed.

Lemma add_import_edges_installs edges p :
  store_wf (_AST p) →
  (∀ a b, (a, b) ∈ edges → registered (_AST p) a ∧ registered (_AST p) b) →
  ∀ a b, (a, b) ∈ edges → has_edge (_AST (add_import_edges edges p).2) a b.
Proof.
  revert p. induction edges as [|[a0 b0] edges IH]; intros p Hwf Hreg a b Hin.
  { by apply elem_of_nil in Hin. }
  simpl. destruct (Hreg a0 b0) as [Ha Hb]; [left|].
  destruct (on_AST_add_edge_Ok a0 b0 1%Z p Hwf Ha Hb) as (p1 & Hrun & Hg & He).
  rewrite (bind_Ok _ _ _ _ _ Hrun).
  assert (store_wf (_AST p1)) as Hwf1 by (by eapply grows_store_wf).
  assert (∀ a b, (a, b) ∈ edges →
            registered (_AST p1) a ∧ registered (_AST p1) b) as Hreg1.
  { intros a' b' Hin'. destruct (Hreg a' b'); [by right|].
    split; by eapply grows_registered. }
  apply elem_of_cons in Hin as [[= -> ->]|Hin]; [|by apply IH].
  pose proof (add_import_edges_grows edges p1) as (_&_&_&_&_&_&_&Hmono).
  by apply Hmono.
Qed.

Lemma planned_mentioned p x y :
  planned fp p x y → mentioned fp p x ∧ mentioned fp p y.
Proof.
  intros [(fc & fd & g & Hc & Hd & Hx & Hy)|[(fc & fd & g & Hc & Hd & Hy & Hx)|
    Hin]].
  - split; [left|right; left]; eauto using get_Some_elem_of.
  - split; [right; left|left]; eauto using get_Some_elem_of.
  - split; [do 3 right; left|do 4 right]; eauto.
Qed.

(** After a walk, the resolution returns normally and installs every
    planned edge. *)
Lemma resolve_installs p :
  sound fp B p → keyed fp p →
  (_resolve_imports fp p).1 = Ok tt ∧
  ∀ x y, planned fp p x y → has_edge (_AST (_resolve_imports fp p).2) x y.
Proof.
  intros (Hok & Hreg & _) Hkeyed.
  pose proof (store_ok_wf _ Hok) as Hwf.
  assert (∀ a b, (a, b) ∈ _edges_to_add p →
            registered (_AST p) a ∧ registered (_AST p) b) as Hqueue.
  { intros a b Hin. split; apply Hreg.
    - do 3 right. left. eauto.
    - do 4 right. eauto. }
  unfold _resolve_imports. unfold_M.
  destruct (_function_calls p !! fp) as [fc|] eqn:Hfc; last first.
  { destruct (keyed_no_calls p Hkeyed Hfc) as [Hempty Hq].
    rewrite decide_True by done. split; [done|]. simpl.
    intros x y [(fc & ? & ? & Hc & _)|[(fc & ? & ? & Hc & _)|Hin]];
      [congruence..|].
    rewrite Hq in Hin. by apply elem_of_nil in Hin. }
  rewrite decide_False; last first.
  { intros Hempty. by rewrite Hempty, lookup_empty in Hfc. }
  simpl.
  assert (∃ p1, link_definitions fp (PyDict.keys fc) p = (Ok tt, p1) ∧
            grows p p1 ∧
            ∀ fd g c d, _function_definitions p !! fp = Some fd →
                        PyDict.get g fc = Some c → fd !! g = Some d →
                        has_edge (_AST p1) c d ∧ has_edge (_AST p1) d c)
    as (p1 & Hrun & Hg & Hlinks).
  { destruct (_function_definitions p !! fp) as [fd|] eqn:Hfd.
    - destruct (link_definitions_spec fp (PyDict.keys fc) p fc fd Hwf Hfc Hfd)
        as (p1 & Hrun & Hg & Hall); [|done|].
      + intros g c d Hc Hd. split; apply Hreg.
        * left. eauto using get_Some_elem_of.
        * right. left. eauto.
      + exists p1. split_and!; [done..|].
        intros fd' g c d [= <-] Hc Hd.
        apply (Hall g c d); [by eapply get_Some_key|done..].
    - exists p. rewrite link_definitions_no_defs by (by apply keyed_no_defs).
      split_and!; [done|apply grows_refl|done]. }
  rewrite Hrun. destruct Hg as (Hg & Hgc & Hgi & Hgd & Hge & Hgg & Hgids & Hmono).
  pose proof (add_import_edges_grows (_edges_to_add p1) p1)
    as (_&_&_&_&_&_&_&Hmono2).
  assert (store_wf (_AST p1)) as Hwf1.
  { intros id r. rewrite Hgg, (ids_length _ _ Hgids). apply Hwf. }
  assert (∀ a b, (a, b) ∈ _edges_to_add p1 →
            registered (_AST p1) a ∧ registered (_AST p1) b) as Hqueue1.
  { intros a b. rewrite Hge. unfold registered. rewrite Hgg. apply Hqueue. }
  split; [by apply add_import_edges_Ok|].
  intros x y [(fc' & fd & g & Hc & Hd & Hx & Hy)|
              [(fc' & fd & g & Hc & Hd & Hy & Hx)|Hin]].
  - simplify_eq. apply Hmono2. by destruct (Hlinks fd g x y Hd Hx Hy).
  - simplify_eq. apply Hmono2. by destruct (Hlinks fd g y x Hd Hy Hx).
  - apply add_import_edges_installs; [done..|]. by rewrite Hge.
Qed.

Lemma parse_returns depth root id :
  (parse fp B depth root parser_init).1 = Ok id →
  (_parse_node fp B depth root None 0 None fp parser_init).1 = Ok id ∧
  resolved fp B depth root = (_resolve_imports fp (walked fp B depth root)).2.
Proof.
  unfold resolved, walked, parse. unfold_M.
  destruct (_parse_node fp B depth root None 0 None fp parser_init)
    as [[root_id|e] p1]; simpl; [|done].
  destruct (_resolve_imports fp p1) as [[[]|e] p2]; simpl; [|done].
  by intros [= ->].
Qed.
End installed.

(** ** The call sites *)

Lemma handled_callee_call B node g :
  handled_callee B node = Some g → ts_type node = "call".
Proof. unfold handled_callee. by case_decide. Qed.

Lemma plays_not_module B ro node : plays B ro node → ts_type node ≠ "module".
Proof.
  destruct ro; simpl.
  - intros [g Hg%handled_callee_call]. by rewrite Hg.
  - intros [-> | ->]; done.
  - intros [-> | ->]; done.
Qed.

Lemma builtin_call_plays_nothing B node callee ro :
  ts_type node = "call" → ts_children node !! 0 = Some callee →
  ts_text callee ∈ B → ¬ plays B ro node.
Proof.
  intros Hty Hc Hb. destruct ro; simpl.
  - unfold handled_callee. rewrite Hty, Hc. simpl.
    rewrite decide_True by done. by intros [? ?].
  - rewrite Hty. by intros [|].
  - rewrite Hty. by intros [|].
Qed.

Lemma elem_of_call_site_ids fp B vs g c :
  c ∈ call_site_ids fp B vs g ↔
  ∃ k node, vs !! k = Some node ∧ handled_callee B node = Some g ∧
            labels fp vs !! k = Some c.
Proof.
  unfold call_site_ids. rewrite list_elem_of_omap. split.
  - intros ([node id] & Hin & Hf). case_decide; [|done]. simplify_eq.
    apply elem_of_lookup_zip_with in Hin as (k & n & i & [= <- <-] & Hn & Hi).
    by exists k, node.
  - intros (k & node & Hk & Hh & Hl). exists (node, c).
    rewrite decide_True by done. split; [|done].
    apply elem_of_lookup_zip_with. by exists k, node, c.
Qed.

Lemma call_site_ids_NoDup fp B vs g : NoDup (call_site_ids fp B vs g).
Proof.
  induction vs as [|node vs IH] using rev_ind; [constructor|].
  rewrite call_site_ids_snoc. case_decide as Hh; [|by rewrite app_nil_r].
  apply NoDup_app. split_and!; [done| |apply NoDup_singleton].
  intros c (k & m & Hk & Hm & Hl)%elem_of_call_site_ids
    ->%list_elem_of_singleton.
  assert (k = length vs) as ->; [|apply lookup_lt_Some in Hk; lia].
  apply (labels_inj fp (vs ++ [node]) k (length vs) m node).
  - by apply lookup_app_l_Some.
  - by rewrite lookup_app_r, Nat.sub_diag.
  - apply handled_callee_call in Hm. by rewrite Hm.
  - apply handled_callee_call in Hh. by rewrite Hh.
  - rewrite labels_snoc, (lookup_app_l_Some _ _ _ _ Hl).
    by rewrite lookup_app_r, length_labels, Nat.sub_diag by (by rewrite length_labels).
Qed.

(** An id held by a table in some role belongs to a node of that role. *)
Lemma mentions_plays fp B vs p k node c ro :
  observed fp B vs p → vs !! k = Some node → ts_type node ≠ "module" →
  ids p !! k = Some c → mentions fp p ro c → plays B ro node.
Proof.
  intros ([Hids _] & Hrec & _) Hk Hnm Hc Hm.
  destruct (Hrec ro c Hm) as (k' & node' & Hk' & Hplays & Hc').
  assert (k = k') as <-; [|by simplify_eq].
  apply (labels_inj fp vs k k' node node'); try done.
  - by eapply plays_not_module.
  - rewrite <-Hids. congruence.
Qed.

(** ** Built-in calls and repeated calls, over a whole [parse] *)

Section whole_parse.
Context (fp : string) (B : list string) (depth : nat) (root : ts_node).

Lemma parse_observed id :
  (parse fp B depth root parser_init).1 = Ok id →
  observed fp B (visited root) (walked fp B depth root) ∧
  sound fp B (walked fp B depth root) ∧ keyed fp (walked fp B depth root) ∧
  resolved fp B depth root = (_resolve_imports fp (walked fp B depth root)).2 ∧
  ids (resolved fp B depth root) = ids (walked fp B depth root).
Proof.
  intros Hid. destruct (parse_returns fp B depth root id Hid) as [Hwalk Hres].
  split_and!; [|apply walk_sound|apply walk_keyed|done|].
  - unfold walked.
    destruct (_parse_node fp B depth root None 0 None fp parser_init) as [r p1] eqn:Hrun.
    simpl in *. subst r. by eapply walk_observed.
  - rewrite Hres.
    by destruct (resolve_imports_grows fp (walked fp B depth root))
      as (_&_&_&_&_&_&?&_).
Qed.

Lemma no_builtin_call_resolved : no_builtin_call fp B (resolved fp B depth root).
Proof.
  destruct (parse_after_walk fp B depth root) as [(_&Hc&_) _].
  unfold no_builtin_call, resolved. rewrite Hc.
  by destruct (walk_sound fp B depth root None 0 None fp) as (_ & _ & ?).
Qed.
End whole_parse.

(** C5: a built-in is never a key of the table of calls.  When [parse]
    returns, the id of a call node whose callee is a built-in is held by no
    table and by no queued edge, and the resolution adds no edge from that
    node nor to it. *)
Theorem builtin_calls_ignored (fp : string) (B : list string)
    (depth : nat) (root : ts_node) :
  no_builtin_call fp B (resolved fp B depth root) ∧
  ∀ id k node callee,
    (parse fp B depth root parser_init).1 = Ok id →
    visited root !! k = Some node →
    ts_type node = "call" →
    ts_children node !! 0 = Some callee →
    ts_text callee ∈ B →
    ∃ c, ids (resolved fp B depth root) !! k = Some c ∧
         ¬ mentioned fp (walked fp B depth root) c ∧
         ∀ y, (has_edge (_AST (resolved fp B depth root)) c y →
               has_edge (_AST (walked fp B depth root)) c y) ∧
              (has_edge (_AST (resolved fp B depth root)) y c →
               has_edge (_AST (walked fp B depth root)) y c).
Proof.
  split; [apply no_builtin_call_resolved|].
  intros id k node callee Hid Hk Hty Hcallee Hb.
  destruct (parse_observed fp B depth root id Hid)
    as (Hobs & (Hok & _) & _ & Hres & Hids).
  pose proof Hobs as ([Hlab _] & _).
  assert (is_Some (ids (walked fp B depth root) !! k)) as [c Hc].
  { apply lookup_lt_is_Some. rewrite Hlab, length_labels.
    by eapply lookup_lt_Some. }
  assert (¬ mentioned fp (walked fp B depth root) c) as Hnot.
  { intros [ro Hm]%mentioned_mentions.
    eapply (builtin_call_plays_nothing B node callee ro); [done..|].
    eapply mentions_plays; [done..| |done|done]. by rewrite Hty. }
  exists c. rewrite Hids. split_and!; [done..|].
  intros y. rewrite Hres.
  split; intros [?|Hpl%planned_mentioned]%resolve_has_edge; try done;
    exfalso; apply Hnot; tauto.
Qed.

(** C6, as the claim states it, fails: with [import foo] followed by two
    calls of [foo], the table of calls ends with the second call site, and
    yet the resolution gives the first call site an edge, to the import. *)
Lemma earlier_call_site_linked :
  call_site_ids "a.py" [] (visited twice_tree) "foo" = ["call_0"; "call_1"] ∧
  (parse "a.py" [] 1000 twice_tree parser_init).1 = Ok "module | a.py" ∧
  _function_calls (resolved "a.py" [] 1000 twice_tree) !! "a.py"
    = Some [("foo", "call_1")] ∧
  ¬ has_edge (_AST (walked "a.py" [] 1000 twice_tree)) "call_0" "dotted_name_0" ∧
  has_edge (_AST (resolved "a.py" [] 1000 twice_tree)) "call_0" "dotted_name_0".
Proof.
  split_and!.
  - vm_compute. reflexivity.
  - vm_compute. reflexivity.
  - vm_compute. reflexivity.
  - rewrite has_edge_b_spec. vm_compute. discriminate.
  - rewrite has_edge_b_spec. vm_compute. reflexivity.
Qed.

(** C6, amended: when [parse] returns and a name has several call sites,
    the table of calls holds the last one; the resolution links that one
    with the definition of the name, in both directions, and gives an
    earlier call site no edge other than the edges queued from calls to
    imports, all of which it installs, those of earlier call sites
    included. *)
Theorem last_call_site_wins (fp : string) (B : list string)
    (depth : nat) (root : ts_node)
    (id g : string) (sites : list string) (c2 : string) :
  (parse fp B depth root parser_init).1 = Ok id →
  call_site_ids fp B (visited root) g = sites ++ [c2] →
  _function_calls (walked fp B depth root) !! fp ≫= PyDict.get g = Some c2 ∧
  (∀ fd d, _function_definitions (walked fp B depth root) !! fp = Some fd →
           fd !! g = Some d →
           has_edge (_AST (resolved fp B depth root)) c2 d ∧
           has_edge (_AST (resolved fp B depth root)) d c2) ∧
  (∀ c1, c1 ∈ sites →
     c1 ≠ c2 ∧
     (∀ y, has_edge (_AST (resolved fp B depth root)) c1 y →
           has_edge (_AST (walked fp B depth root)) c1 y ∨
           (c1, y) ∈ _edges_to_add (walked fp B depth root)) ∧
     (∀ x, has_edge (_AST (resolved fp B depth root)) x c1 →
           has_edge (_AST (walked fp B depth root)) x c1)) ∧
  (∀ a b, (a, b) ∈ _edges_to_add (walked fp B depth root) →
          has_edge (_AST (resolved fp B depth root)) a b).
Proof.
  intros Hid Hsites.
  destruct (parse_observed fp B depth root id Hid)
    as (Hobs & Hsound & Hkeyed & Hres & Hids).
  pose proof Hobs as ([Hlab _] & _ & Hlast).
  destruct (resolve_installs fp B _ Hsound Hkeyed) as [_ Hinst].
  pose proof Hsound as (Hok & _).
  assert (_function_calls (walked fp B depth root) !! fp ≫= PyDict.get g = Some c2)
    as Hc2.
  { by rewrite Hlast, Hsites, last_snoc. }
  split_and!; [done| | |].
  - intros fd d Hfd Hd. rewrite Hres.
    destruct (_function_calls (walked fp B depth root) !! fp) as [fc|] eqn:Hfc;
      [|done].
    simpl in Hc2. split; apply Hinst.
    + left. by exists fc, fd, g.
    + right. left. by exists fc, fd, g.
  - intros c1 Hc1.
    pose proof (call_site_ids_NoDup fp B (visited root) g) as Hnd.
    rewrite Hsites in Hnd. apply NoDup_app in Hnd as (_ & Hdisj & _).
    assert (c1 ≠ c2) as Hne.
    { intros ->. apply (Hdisj c2 Hc1). by apply list_elem_of_singleton. }
    assert (c1 ∈ call_site_ids fp B (visited root) g) as Hin.
    { rewrite Hsites. apply elem_of_app. by left. }
    apply elem_of_call_site_ids in Hin as (k1 & node1 & Hk1 & Hh1 & Hl1).
    assert (ts_type node1 = "call") as Hty1 by (by eapply handled_callee_call).
    assert (∀ ro, mentions fp (walked fp B depth root) ro c1 → plays B ro node1)
      as Hplays.
    { intros ro. eapply mentions_plays; [done..| |by rewrite Hlab].
      by rewrite Hty1. }
    assert (∀ g' fc, _function_calls (walked fp B depth root) !! fp = Some fc →
                     PyDict.get g' fc ≠ Some c1) as Hnocall.
    { intros g' fc Hfc Hget. specialize (Hlast g'). rewrite Hfc in Hlast.
      simpl in Hlast. rewrite Hget in Hlast. symmetry in Hlast.
      assert (c1 ∈ call_site_ids fp B (visited root) g') as Hin'.
      { apply last_Some in Hlast as [l' ->]. apply elem_of_app. right.
        by apply list_elem_of_singleton. }
      apply elem_of_call_site_ids in Hin' as (k' & node' & Hk' & Hh' & Hl').
      assert (k' = k1) as ->.
      { apply (labels_inj fp (visited root) k' k1 node' node1); try done.
        - apply handled_callee_call in Hh'. by rewrite Hh'.
        - by rewrite Hty1.
        - congruence. }
      assert (g' = g) as -> by congruence.
      rewrite Hsites, last_snoc in Hlast. congruence. }
    assert (∀ fd g', _function_definitions (walked fp B depth root) !! fp = Some fd →
                     fd !! g' ≠ Some c1) as Hnodef.
    { intros fd g' Hfd Hget.
      destruct (Hplays Definer) as [Hd|Hd]; [by exists fd, g'|..];
        by rewrite Hty1 in Hd. }
    assert (∀ x, (x, c1) ∉ _edges_to_add (walked fp B depth root)) as Hnotarget.
    { intros x Hx.
      destruct (Hplays Importer) as [Hd|Hd]; [right; by exists x|..];
        by rewrite Hty1 in Hd. }
    split_and!; [done| |]; intros z; rewrite Hres;
      intros [?|Hpl]%resolve_has_edge; try done; auto.
    + destruct Hpl as [(fc & fd & g' & Hfc & Hfd & Hx & Hy)|
        [(fc & fd & g' & Hfc & Hfd & Hy & Hx)|?]]; [| |by right].
      * by destruct (Hnocall g' fc).
      * by destruct (Hnodef fd g').
    + exfalso.
      destruct Hpl as [(fc & fd & g' & Hfc & Hfd & Hx & Hy)|
        [(fc & fd & g' & Hfc & Hfd & Hy & Hx)|?]].
      * by destruct (Hnodef fd g').
      * by destruct (Hnocall g' fc).
      * by eapply Hnotarget.
  - intros a b Hin. rewrite Hres. apply Hinst. by do 2 right.
Qed.

Lemma builtin_calls_ignored_witness :
  visited builtin_tree !! 7
    = Some (named_node "call" "print()"
              [named_leaf "identifier" "print";
               named_node "argument_list" "()" [token "("; token ")"]]) ∧
  ∃ c, ids (resolved "a.py" ["print"; "len"] 1000 builtin_tree) !! 7 = Some c ∧
       ¬ mentioned "a.py" (walked "a.py" ["print"; "len"] 1000 builtin_tree) c ∧
       ∀ y, (has_edge (_AST (resolved "a.py" ["print"; "len"] 1000 builtin_tree)) c y →
             has_edge (_AST (walked "a.py" ["print"; "len"] 1000 builtin_tree)) c y) ∧
            (has_edge (_AST (resolved "a.py" ["print"; "len"] 1000 builtin_tree)) y c →
             has_edge (_AST (walked "a.py" ["print"; "len"] 1000 builtin_tree)) y c).
Proof.
  split; [reflexivity|].
  destruct (builtin_calls_ignored "a.py" ["print"; "len"] 1000 builtin_tree)
    as [_ Hcall].
  apply (Hcall "module | a.py" 7
           (named_node "call" "print()"
              [named_leaf "identifier" "print";
               named_node "argument_list" "()" [token "("; token ")"]])
           (named_leaf "identifier" "print")).
  - vm_compute. reflexivity.
  - reflexivity.
  - reflexivity.
  - reflexivity.
  - left.
Defined.

Lemma last_call_site_wins_witness :
  _function_calls (walked "a.py" [] 1000 twice_tree) !! "a.py" ≫= PyDict.get "foo"
    = Some "call_1" ∧
  (∀ fd d, _function_definitions (walked "a.py" [] 1000 twice_tree) !! "a.py"
             = Some fd →
           fd !! "foo" = Some d →
           has_edge (_AST (resolved "a.py" [] 1000 twice_tree)) "call_1" d ∧
           has_edge (_AST (resolved "a.py" [] 1000 twice_tree)) d "call_1") ∧
  (∀ c1, c1 ∈ ["call_0"] →
     c1 ≠ "call_1" ∧
     (∀ y, has_edge (_AST (resolved "a.py" [] 1000 twice_tree)) c1 y →
           has_edge (_AST (walked "a.py" [] 1000 twice_tree)) c1 y ∨
           (c1, y) ∈ _edges_to_add (walked "a.py" [] 1000 twice_tree)) ∧
     (∀ x, has_edge (_AST (resolved "a.py" [] 1000 twice_tree)) x c1 →
           has_edge (_AST (walked "a.py" [] 1000 twice_tree)) x c1)) ∧
  (∀ a b, (a, b) ∈ _edges_to_add (walked "a.py" [] 1000 twice_tree) →
          has_edge (_AST (resolved "a.py" [] 1000 twice_tree)) a b).
Proof.
  apply (last_call_site_wins "a.py" [] 1000 twice_tree "module | a.py" "foo"
           ["call_0"] "call_1").
  - vm_compute. reflexivity.
  - vm_compute. reflexivity.
Defined.

(** * Further properties *)

(** ** The adjacency dictionary of a node *)

Section pydict_order.
Context {K V : Type} `{EqDecision K}.
Implicit Types (k : K) (v : V) (d : list (K * V)).

Lemma keys_set k v d :
  PyDict.keys (PyDict.set k v d) =
    if decide (k ∈ PyDict.keys d) then PyDict.keys d else PyDict.keys d ++ [k].
Proof.
  unfold PyDict.keys. induction d as [|[k' v'] d IH]; [done|].
  cbn [PyDict.set]. destruct (decide (k = k')) as [->|Hne].
  - rewrite !fmap_cons. cbn [fst]. rewrite decide_True; [done|]. left.
  - rewrite !fmap_cons, IH. cbn [fst].
    destruct (decide (k ∈ d.*1)) as [Hin|Hin].
    + rewrite decide_True; [done|]. by right.
    + rewrite decide_False; [done|]. by intros [?|?]%elem_of_cons.
Qed.

Lemma set_id k v d : PyDict.get k d = Some v → PyDict.set k v d = d.
Proof.
  induction d as [|[k' v'] d IH]; simpl; [done|].
  destruct (decide (k = k')) as [->|Hne].
  - by intros [= ->].
  - intros Hg. by rewrite IH.
Qed.

Lemma set_set k v d : PyDict.set k v (PyDict.set k v d) = PyDict.set k v d.
Proof. apply set_id, get_set_eq. Qed.

End pydict_order.

(** X1: [add_neighbor] followed by [get_weight] of the same neighbour
    returns the weight just given; the weight of every other neighbour is
    what it was; and [get_weight] raises [KeyError] exactly for an object
    that is not among the connections. *)
Theorem add_neighbor_get_weight (nb : ref) (w : weight) (n : Node) :
  get_weight nb (add_neighbor nb w n) = Ok w ∧
  (∀ x, x ≠ nb → get_weight x (add_neighbor nb w n) = get_weight x n) ∧
  (∀ x, get_weight x n = Raise KeyError ↔ x ∉ get_connections n).
Proof.
  unfold get_weight, add_neighbor, get_connections. simpl. split_and!.
  - by rewrite get_set_eq.
  - intros x Hx. by rewrite get_set_ne.
  - intros x. rewrite <-get_None_key.
    destruct (PyDict.get x (_adjacent n)); split; congruence.
Qed.

(** X2: [add_neighbor] keeps the connections in insertion order: a
    neighbour that is already connected keeps its position (only its weight
    changes), a new one is appended last; no neighbour is ever listed
    twice. *)
Theorem add_neighbor_connections (nb : ref) (w : weight) (n : Node) :
  get_connections (add_neighbor nb w n) =
    (if decide (nb ∈ get_connections n) then get_connections n
     else get_connections n ++ [nb]) ∧
  (NoDup (get_connections n) →
   NoDup (get_connections (add_neighbor nb w n))).
Proof.
  unfold add_neighbor, get_connections. simpl. rewrite keys_set.
  split; [done|]. intros Hnd.
  destruct (decide (nb ∈ PyDict.keys (_adjacent n))) as [Hin|Hin]; [done|].
  apply NoDup_app. split_and!; [done| |apply NoDup_singleton].
  intros x Hx ->%list_elem_of_singleton. done.
Qed.

(** ** [Graph.add_edge], beyond the claims *)

Lemma add_neighbor_idemp rb w n :
  add_neighbor rb w (add_neighbor rb w n) = add_neighbor rb w n.
Proof. unfold add_neighbor, set_adjacent. simpl. by rewrite set_set. Qed.

(** X3: [add_edge] raises when an end point is not registered, naming the
    missing id, the source being looked up first; the graph is then left as
    it was. *)
Theorem add_edge_unregistered (s : store) (from_ to_ : string) (w : weight)
    (bi : bool) :
  (vert_dict (graph s) !! from_ = None →
   add_edge from_ to_ w bi s =
     (Raise (Exception ("Vertex " +:+ from_ +:+ " not in graph.")), s)) ∧
  (is_Some (vert_dict (graph s) !! from_) →
   vert_dict (graph s) !! to_ = None →
   add_edge from_ to_ w bi s =
     (Raise (Exception ("Vertex " +:+ to_ +:+ " not in graph.")), s)).
Proof.
  split.
  - intros Hf. unfold add_edge. unfold_M. by rewrite Hf.
  - intros [rf Hf] Ht. unfold add_edge. unfold_M. by rewrite Hf, Ht.
Qed.

(** X4: between two registered nodes, [add_edge] returns normally; the
    source object then has the target as a neighbour with the given weight,
    its other weights and its attributes are unchanged, every other object
    and the vertex table are unchanged.  With [bi = False] no edge is added
    in the other direction. *)
Theorem add_edge_effect (s : store) (from_ to_ : string) (w : weight)
    (rf rt : ref) (n : Node) :
  vert_dict (graph s) !! from_ = Some rf →
  vert_dict (graph s) !! to_ = Some rt →
  objs s !! rf = Some n →
  ∃ s' n', add_edge from_ to_ w false s = (Ok tt, s') ∧
    graph s' = graph s ∧
    length (objs s') = length (objs s) ∧
    (∀ r, r ≠ rf → objs s' !! r = objs s !! r) ∧
    objs s' !! rf = Some n' ∧
    get_weight rt n' = Ok w ∧
    (∀ x, x ≠ rt → get_weight x n' = get_weight x n) ∧
    set_adjacent [] n' = set_adjacent [] n.
Proof.
  intros Hf Ht Hn. eexists _, (add_neighbor rt w n). split_and!.
  - by apply add_edge_Ok.
  - done.
  - simpl. by rewrite length_alter.
  - intros r Hr. simpl. by rewrite list_lookup_alter_ne.
  - simpl. by rewrite list_lookup_alter_eq, Hn.
  - unfold get_weight, add_neighbor. simpl. by rewrite get_set_eq.
  - intros x Hx. unfold get_weight, add_neighbor. simpl.
    by rewrite get_set_ne.
  - done.
Qed.

Lemma add_edge_effect_witness :
  ∃ s' n', add_edge "c" "r" 5%Z false family_store = (Ok tt, s') ∧
    graph s' = graph family_store ∧
    length (objs s') = length (objs family_store) ∧
    (∀ r, r ≠ 1 → objs s' !! r = objs family_store !! r) ∧
    objs s' !! 1 = Some n' ∧
    get_weight 0 n' = Ok 5%Z ∧
    (∀ x, x ≠ 0 → get_weight x n' =
       get_weight x (mkNode "c" (0, 0) (0, 1) "f.py" (Some "x")
                       (Some "identifier") (Some "x") [] (Some 0))) ∧
    set_adjacent [] n' =
      set_adjacent [] (mkNode "c" (0, 0) (0, 1) "f.py" (Some "x")
                         (Some "identifier") (Some "x") [] (Some 0)).
Proof.
  apply (add_edge_effect family_store "c" "r" 5%Z 1 0); reflexivity.
Defined.

(** X5: a bidirectional [add_edge] is the directed [add_edge] followed by
    the directed [add_edge] in the other direction, error cases included. *)
Theorem add_edge_bi_two_directed (s : store) (from_ to_ : string) (w : weight) :
  add_edge from_ to_ w true s =
    (add_edge from_ to_ w false;; add_edge to_ from_ w false) s.
Proof.
  unfold add_edge. unfold_M.
  destruct (vert_dict (graph s) !! from_) as [rf|] eqn:Hf; [|done].
  destruct (vert_dict (graph s) !! to_) as [rt|] eqn:Ht; [|done].
  simpl. by rewrite Ht, Hf.
Qed.

Lemma alter_add_neighbor_twice (h : heap) rf rt w bi :
  let step (h : heap) :=
    let h1 := alter (add_neighbor rt w) rf h in
    if bi : bool then alter (add_neighbor rf w) rt h1 else h1 in
  step (step h) = step h.
Proof.
  simpl. apply list_eq. intros i.
  destruct bi; rewrite !list_lookup_alter; repeat case_decide; simplify_eq;
    destruct (h !! i) as [n|]; simpl; by rewrite ?add_neighbor_idemp.
Qed.

(** X6: [add_edge] is idempotent: repeating a call, with the same weight and
    direction flag, changes nothing more and has the same outcome. *)
Theorem add_edge_idempotent (s : store) (from_ to_ : string) (w : weight)
    (bi : bool) :
  (add_edge from_ to_ w bi;; add_edge from_ to_ w bi) s =
    add_edge from_ to_ w bi s.
Proof.
  unfold add_edge. unfold_M.
  destruct (vert_dict (graph s) !! from_) as [rf|] eqn:Hf; [|done].
  destruct (vert_dict (graph s) !! to_) as [rt|] eqn:Ht; [|done].
  pose proof (alter_add_neighbor_twice (objs s) rf rt w bi) as Htw.
  destruct bi; simpl in *; rewrite Hf, Ht; simpl; unfold upd_objs; simpl;
    by rewrite Htw.
Qed.

(** ** [Graph.add_vertex] and the queries *)

(** X7: [add_vertex] refuses a node whose parent carries an id that is not
    registered: it raises, naming that id, and leaves the vertex table, the
    counter and the objects as they were. *)
Theorem add_vertex_parent_unregistered (s : store) (node p : ref) (n pn : Node) :
  objs s !! node = Some n →
  _parent n = Some p →
  objs s !! p = Some pn →
  vert_dict (graph s) !! _id pn = None →
  add_vertex node s =
    (Raise (Exception ("Parent " +:+ _id pn +:+ " not in graph.")), s).
Proof.
  intros Hn Hp Hpn Hvd. unfold add_vertex. unfold_M.
  rewrite Hn. simpl. rewrite Hp, Hpn. simpl.
  rewrite decide_False; [done|]. rewrite Hvd. by intros [? ?].
Qed.

Lemma add_vertex_parent_unregistered_witness :
  add_vertex 1 (upd_graph (λ _, Graph_init) family_store) =
    (Raise (Exception "Parent r not in graph."),
     upd_graph (λ _, Graph_init) family_store).
Proof.
  apply (add_vertex_parent_unregistered
           (upd_graph (λ _, Graph_init) family_store) 1 0
           (mkNode "c" (0, 0) (0, 1) "f.py" (Some "x") (Some "identifier")
              (Some "x") [] (Some 0))
           (mkNode "r" (0, 0) (1, 0) "f.py" None (Some "module") None
              [(1, 1%Z)] None)); reflexivity.
Defined.

Lemma add_vertex_inv (s s' : store) (node : ref) (n : Node) (id : string) :
  objs s !! node = Some n →
  add_vertex node s = (Ok id, s') →
  id = _id n ∧
  s' = upd_graph (λ g, {| vert_dict := <[_id n := node]> (vert_dict g);
                          num_vertices := num_vertices g + 1 |}) s.
Proof.
  intros Hn. unfold add_vertex. unfold_M. rewrite Hn. simpl.
  destruct (_parent n) as [p|]; simpl.
  - destruct (objs s !! p) as [pn|]; simpl; [|done].
    destruct (decide (is_Some (vert_dict (graph s) !! _id pn))); simpl;
      [|done].
    by intros [= <- <-].
  - by intros [= <- <-].
Qed.

(** X8: when [add_vertex] returns, it returns the id of the node; from then
    on [get_vertex] of that id returns the node, [get_parent] of that id its
    parent, and [get_vertex] of any other id what it returned before. *)
Theorem add_vertex_then_lookup (s s' : store) (node : ref) (n : Node) (id : string) :
  objs s !! node = Some n →
  add_vertex node s = (Ok id, s') →
  id = _id n ∧
  get_vertex id s' = (Ok (Some node), s') ∧
  get_parent id s' = (Ok (_parent n), s') ∧
  (∀ id', id' ≠ id → (get_vertex id' s').1 = (get_vertex id' s).1).
Proof.
  intros Hn Hrun. destruct (add_vertex_inv _ _ _ _ _ Hn Hrun) as [-> ->].
  unfold get_vertex, get_parent. unfold_M. split_and!; [done|..].
  - by rewrite lookup_insert_eq.
  - rewrite lookup_insert_eq. simpl. by rewrite Hn.
  - intros id' Hne. by rewrite lookup_insert_ne.
Qed.

Lemma add_vertex_then_lookup_witness :
  "a" = _id (twin None) ∧
  get_vertex "a" (add_vertex 1 twin_store).2
    = (Ok (Some 1), (add_vertex 1 twin_store).2) ∧
  get_parent "a" (add_vertex 1 twin_store).2
    = (Ok (_parent (twin None)), (add_vertex 1 twin_store).2) ∧
  (∀ id', id' ≠ "a" →
     (get_vertex id' (add_vertex 1 twin_store).2).1
       = (get_vertex id' twin_store).1).
Proof.
  apply (add_vertex_then_lookup twin_store _ 1 (twin None) "a"); reflexivity.
Defined.

(** X9: the three queries never modify the graph.  For an id that is not
    registered [get_vertex] returns [None], whereas [get_parent] and
    [get_highest_attribute] raise [KeyError]. *)
Theorem queries_read_only (s : store) (id : string) :
  (get_vertex id s).2 = s ∧
  (get_parent id s).2 = s ∧
  (get_highest_attribute id s).2 = s ∧
  (vert_dict (graph s) !! id = None →
   get_vertex id s = (Ok None, s) ∧
   get_parent id s = (Raise KeyError, s) ∧
   get_highest_attribute id s = (Raise KeyError, s)).
Proof.
  unfold get_vertex, get_parent, get_highest_attribute. unfold_M.
  destruct (vert_dict (graph s) !! id) as [r|] eqn:Hr; simpl.
  - destruct (objs s !! r) as [n|]; simpl; [|done].
    split_and!; [done..| |done].
    destruct (_parent n); [|done].
    by destruct (climb (length (objs s)) (objs s) r).
  - done.
Qed.

(** ** [Graph.delete_graph], beyond the claim *)

(** X10: [delete_graph] only clears the objects that the vertex table
    holds: an object that is not registered, such as one whose id was taken
    over by a later [add_vertex], keeps its parent and its edges. *)
Theorem delete_graph_spares_unregistered (s : store) (r : ref) :
  (∀ id, vert_dict (graph s) !! id ≠ Some r) →
  objs (delete_graph s).2 !! r = objs s !! r.
Proof.
  intros Hr. unfold delete_graph. unfold_M.
  rewrite foldl_clear_lookup. rewrite decide_False; [done|].
  intros ([id r'] & -> & Hin%elem_of_map_to_list)%list_elem_of_fmap.
  by apply (Hr id).
Qed.

Lemma delete_graph_spares_unregistered_witness :
  objs (delete_graph orphan_store).2 !! 1 = objs orphan_store !! 1 ∧
  (get_connections <$> objs (delete_graph orphan_store).2 !! 1) = Some [0].
Proof.
  split; [|reflexivity].
  apply (delete_graph_spares_unregistered orphan_store 1).
  intros id. destruct (decide (id = "a")) as [->|Hne].
  - simpl. by rewrite lookup_singleton_eq.
  - simpl. by rewrite lookup_singleton_ne.
Defined.

(** X11: after [delete_graph] no id is registered any more: [get_vertex]
    returns [None], [get_parent] raises [KeyError] and [add_edge] raises for
    every id; a second [delete_graph] changes nothing. *)
Theorem delete_graph_then (s : store) :
  let s' := (delete_graph s).2 in
  delete_graph s' = (Ok tt, s') ∧
  ∀ id, get_vertex id s' = (Ok None, s') ∧
        get_parent id s' = (Raise KeyError, s') ∧
        ∀ to_ w bi,
          add_edge id to_ w bi s' =
            (Raise (Exception ("Vertex " +:+ id +:+ " not in graph.")), s').
Proof.
  simpl.
  assert (vert_dict (graph (delete_graph s).2) = ∅) as Hvd by done.
  assert (num_vertices (graph (delete_graph s).2) = 0) as Hnv by done.
  destruct (delete_graph s).2 as [h [vd nv]]. simpl in *. subst vd nv.
  split.
  - unfold delete_graph. unfold_M. unfold upd_graph, upd_objs. simpl.
    by rewrite map_to_list_empty.
  - intros id. unfold get_vertex, get_parent, add_edge. unfold_M.
    by rewrite lookup_empty.
Qed.

(** ** [Graph.get_highest_attribute] on a cycle of parents *)

Lemma attr_parent_functional h a b b' :
  attr_parent h a b → attr_parent h a b' → b = b'.
Proof.
  intros (n & pn & Hn & Hp & _) (n' & pn' & Hn' & Hp' & _). congruence.
Qed.

Lemma on_cycle_successor h y x :
  tc (attr_parent h) y y → rtc (attr_parent h) y x → ∃ z, attr_parent h x z.
Proof.
  intros Hc Hr. induction Hr as [y|y y1 x Hy Hr IH].
  - apply tc_first_step in Hc as (z & Hz & _). by exists z.
  - apply IH. apply tc_first_step in Hc as (z & Hz & Hzy).
    rewrite (attr_parent_functional _ _ _ _ Hy Hz).
    eapply tc_rtc_l; [done|]. by apply tc_once.
Qed.

Lemma towards_cycle_successor h a y x :
  rtc (attr_parent h) a y → tc (attr_parent h) y y →
  rtc (attr_parent h) a x → ∃ z, attr_parent h x z.
Proof.
  intros Hay Hc. revert x. induction Hay as [a|a a1 y Ha Hay IH]; intros x Hx.
  - by eapply on_cycle_successor.
  - destruct Hx as [|a a1' x Ha' Hx]; [by exists a1|].
    rewrite <-(attr_parent_functional _ _ _ _ Ha Ha') in Hx. by apply IH.
Qed.

Lemma climb_Raise (steps : nat) (h : heap) (x : ref) (e : exn) :
  heap_closed h → x < length h →
  climb steps h x = Raise e → e = NonTermination.
Proof.
  intros Hcl. revert x. induction steps as [|k IH]; intros x Hx.
  all: destruct (lookup_lt_is_Some_2 h x Hx) as [n Hn].
  all: destruct (_parent n) as [p|] eqn:Hp.
  all: try (assert (p < length h) as Hlt by (by eapply (Hcl x n)));
       try (destruct (lookup_lt_is_Some_2 h p Hlt) as [pn Hpn]).
  all: simpl; rewrite Hn, Hp, ?Hpn.
  all: try destruct (decide (type pn = Some "attribute")) as [Hty|Hty].
  all: try congruence.
  by apply IH.
Qed.

(** X12: when the chain of [attribute] parents above a node runs into a
    cycle, the loop of [get_highest_attribute] never ends: no number of
    iterations produces a result. *)
Theorem get_highest_attribute_cycle (s : store) (id : string) (node : ref) :
  heap_closed (objs s) →
  vert_dict (graph s) !! id = Some node →
  node < length (objs s) →
  (∃ y, rtc (attr_parent (objs s)) node y ∧ tc (attr_parent (objs s)) y y) →
  (∀ steps, climb steps (objs s) node = Raise NonTermination) ∧
  get_highest_attribute id s = (Raise NonTermination, s).
Proof.
  intros Hcl Hid Hlt (y & Hy & Hc).
  assert (∀ steps, climb steps (objs s) node = Raise NonTermination) as Hloop.
  { intros steps. pose proof (climb_spec steps _ _ Hcl Hlt) as Hsp.
    destruct (climb steps (objs s) node) as [r|e] eqn:Hrun.
    - destruct Hsp as [Hr Hstop].
      destruct (towards_cycle_successor _ _ _ r Hy Hc Hr) as [z Hz].
      by destruct (Hstop z).
    - f_equal. by eapply climb_Raise. }
  split; [done|].
  destruct (towards_cycle_successor _ _ _ node Hy Hc (rtc_refl _ _))
    as (z & n & pn & Hn & Hp & _).
  unfold get_highest_attribute. unfold_M. rewrite Hid. simpl.
  rewrite Hn. simpl. rewrite Hp. by rewrite Hloop.
Qed.

Lemma get_highest_attribute_cycle_witness :
  (∀ steps, climb steps (objs attribute_loop) 0 = Raise NonTermination) ∧
  get_highest_attribute "x" attribute_loop = (Raise NonTermination, attribute_loop).
Proof.
  apply (get_highest_attribute_cycle attribute_loop "x" 0).
  - by apply heap_closed_b_sound.
  - reflexivity.
  - simpl. lia.
  - exists 0. split; [apply rtc_refl|].
    apply (tc_l _ 0 1 0); [|apply tc_once].
    + eexists _, _. repeat split; reflexivity.
    + eexists _, _. repeat split; reflexivity.
Defined.

(** ** The handlers of [_parse_node], one by one *)

Lemma record_rebinds {V} fp k (v : V) d : rebinds fp d (record fp k v d) k v.
Proof.
  unfold rebinds, record. split_and!.
  - destruct (d !! fp) as [inner|]; rewrite lookup_insert_eq; simpl.
    + apply lookup_insert_eq.
    + apply lookup_singleton_eq.
  - intros k' Hne.
    destruct (d !! fp) as [inner|]; rewrite lookup_insert_eq; simpl.
    + by rewrite lookup_insert_ne.
    + by rewrite lookup_singleton_ne.
  - intros f Hne. destruct (d !! fp); by rewrite lookup_insert_ne.
Qed.

Lemma record_call_rebinds fp k v d :
  rebinds_call fp d (record_call fp k v d) k v.
Proof.
  unfold rebinds_call, record_call. split_and!.
  - destruct (d !! fp) as [inner|]; rewrite lookup_insert_eq; simpl.
    + apply get_set_eq.
    + by rewrite decide_True.
  - intros k' Hne.
    destruct (d !! fp) as [inner|]; rewrite lookup_insert_eq; simpl.
    + by rewrite get_set_ne.
    + by rewrite decide_False.
  - intros f Hne. destruct (d !! fp); by rewrite lookup_insert_ne.
Qed.

(** X13: [_handle_import] on an aliased import whose parent is neither an
    [import_statement] nor an [import_from_statement] (the alias of a
    [from __future__ import] is one) reads [import_path] before any
    assignment to it: it raises [UnboundLocalError], or [IndexError] when
    the node has no third child, and records nothing. *)
Theorem handle_import_unbound (fp : string) (node up : ts_node) (idx : nat)
    (id : string) (p : parser) :
  ts_type node = "aliased_import" →
  ts_type up ≠ "import_from_statement" →
  ts_type up ≠ "import_statement" →
  _handle_import fp node (Some up) idx id p =
    (Raise (match ts_children node !! 2 with
            | Some _ => UnboundLocalError
            | None => IndexError
            end), p).
Proof.
  intros Hty Hf Hi. unfold _handle_import, child, parent_of. unfold_M.
  rewrite decide_True by done. rewrite !decide_False by done.
  by destruct (ts_children node !! 2).
Qed.

Lemma handle_import_unbound_witness :
  _handle_import "a.py" future_alias (Some future_import) 3
    "aliased_import_0" parser_init = (Raise UnboundLocalError, parser_init).
Proof.
  apply (handle_import_unbound "a.py" future_alias future_import 3
           "aliased_import_0" parser_init); [reflexivity|done|done].
Defined.

(** X14: what [_handle_import] records in the table of imports, under the
    name of the file.  [import a.b] binds [a.b] to the node id and an empty
    path; [from m import x] binds [x] to the id and [m], and records nothing
    for [m] itself (the second child of the statement); [import a as b]
    binds [b] to the id and [a]; [from m import a as b] binds [b] to the id
    and [m.a].  A binding replaces an earlier one of the same name and
    leaves the other names alone. *)
Theorem handle_import_records (fp : string) (node up : ts_node) (idx : nat)
    (id : string) (p : parser) :
  (ts_type node = "dotted_name" → ts_type up = "import_statement" →
   ∃ p', _handle_import fp node (Some up) idx id p = (Ok tt, p') ∧
         rebinds fp (_imports p) (_imports p') (ts_text node) (id, "")) ∧
  (ts_type node = "dotted_name" → ts_type up = "import_from_statement" →
   ∀ m, ts_children up !! 1 = Some m →
     if decide (idx = 1)
     then _handle_import fp node (Some up) idx id p = (Ok tt, p)
     else ∃ p', _handle_import fp node (Some up) idx id p = (Ok tt, p') ∧
                rebinds fp (_imports p) (_imports p') (ts_text node)
                  (id, ts_text m)) ∧
  (ts_type node = "aliased_import" → ts_type up = "import_statement" →
   ∀ c0 c2, ts_children node !! 0 = Some c0 → ts_children node !! 2 = Some c2 →
     ∃ p', _handle_import fp node (Some up) idx id p = (Ok tt, p') ∧
           rebinds fp (_imports p) (_imports p') (ts_text c2)
             (id, ts_text c0)) ∧
  (ts_type node = "aliased_import" → ts_type up = "import_from_statement" →
   ∀ m c0 c2, ts_children up !! 1 = Some m →
     ts_children node !! 0 = Some c0 → ts_children node !! 2 = Some c2 →
     ∃ p', _handle_import fp node (Some up) idx id p = (Ok tt, p') ∧
           rebinds fp (_imports p) (_imports p') (ts_text c2)
             (id, ts_text m +:+ "." +:+ ts_text c0)).
Proof.
  split_and!.
  - intros Hn Hu. unfold _handle_import, child, parent_of. unfold_M.
    rewrite Hn, Hu. simpl. eexists. split; [done|]. apply record_rebinds.
  - intros Hn Hu m Hm. unfold _handle_import, child, parent_of. unfold_M.
    rewrite Hn, Hu. simpl. rewrite Hm. simpl.
    destruct (decide (idx = 1)) as [->|Hne].
    + by rewrite bool_decide_eq_true_2.
    + rewrite bool_decide_eq_false_2 by done. simpl.
      eexists. split; [done|]. apply record_rebinds.
  - intros Hn Hu c0 c2 H0 H2. unfold _handle_import, child, parent_of.
    unfold_M. rewrite Hn, Hu. simpl. rewrite H0, H2. simpl.
    eexists. split; [done|]. apply record_rebinds.
  - intros Hn Hu m c0 c2 Hm H0 H2. unfold _handle_import, child, parent_of.
    unfold_M. rewrite Hn, Hu. simpl. rewrite Hm, H0, H2. simpl.
    eexists. split; [done|]. apply record_rebinds.
Qed.

Lemma handle_import_records_witness :
  ∃ p', _handle_import "a.py" os_name (Some import_os) 1 "dotted_name_0"
          parser_init = (Ok tt, p') ∧
        rebinds "a.py" (_imports parser_init) (_imports p') "os"
          ("dotted_name_0", "").
Proof.
  apply (handle_import_records "a.py" os_name import_os 1 "dotted_name_0"
           parser_init); reflexivity.
Defined.

(** X15: [_handle_definition] binds, in the table of definitions of the
    file, the text of the second child of the node to the node id,
    replacing an earlier definition of that name; it changes nothing else.
    On a node with fewer than two children it raises [IndexError] and
    records nothing. *)
Theorem handle_definition_records (fp : string) (node : ts_node) (id : string)
    (p : parser) :
  match ts_children node !! 1 with
  | None => _handle_definition fp node id p = (Raise IndexError, p)
  | Some name =>
      ∃ p', _handle_definition fp node id p = (Ok tt, p') ∧
        rebinds fp (_function_definitions p) (_function_definitions p')
          (ts_text name) id ∧
        _AST p' = _AST p ∧ _counts p' = _counts p ∧
        _function_calls p' = _function_calls p ∧
        _imports p' = _imports p ∧
        _edges_to_add p' = _edges_to_add p
  end.
Proof.
  unfold _handle_definition, child. unfold_M.
  destruct (ts_children node !! 1) as [name|]; simpl; [|done].
  eexists. split; [done|]. split; [apply record_rebinds|done].
Qed.

(** X16: on a node with no child [_handle_call] raises [IndexError] before
    it records anything.  Otherwise it binds, in the table of calls of the
    file, the text of the first child of the node (the callee, dotted or
    not) to the node id, whether or not an import matches, and then either
    returns or, the recursion of [_call_to_import] having run out of
    frames, ends in a [RecursionError].  It returns when the interpreter
    grants more frames than the callee text has characters, and it cannot
    with none.  It queues at most one edge, from that id, and only when it
    returns. *)
Theorem handle_call_records (fp : string) (depth : nat) (node : ts_node)
    (id : string) (p : parser) :
  match ts_children node !! 0 with
  | None => _handle_call fp depth node id p = (Raise IndexError, p)
  | Some callee =>
      ∃ r p', _handle_call fp depth node id p = (r, p') ∧
        (r = Ok tt ∨ r = Raise RecursionError) ∧
        (String.length (ts_text callee) < depth → r = Ok tt) ∧
        (depth = 0 → r = Raise RecursionError) ∧
        rebinds_call fp (_function_calls p) (_function_calls p')
          (ts_text callee) id ∧
        _AST p' = _AST p ∧ _counts p' = _counts p ∧
        _imports p' = _imports p ∧
        _function_definitions p' = _function_definitions p ∧
        (_edges_to_add p' = _edges_to_add p ∨
         ∃ target, r = Ok tt ∧
                   _edges_to_add p' = _edges_to_add p ++ [(id, target)])
  end.
Proof.
  pose proof (handle_call_spec fp depth node id p) as Hsp.
  destruct (ts_children node !! 0) as [callee|] eqn:Hc; [|done].
  destruct Hsp as (r & p' & Hrun & Hr & Hlen & H1 & H2 & H3 & H4 & H5 & H6).
  exists r, p'. split; [done|]. rewrite H3. split_and!; try done.
  - intros ->. revert Hrun. unfold _handle_call, child. unfold_M.
    rewrite Hc. simpl. by intros [= <- _].
  - apply record_call_rebinds.
  - destruct H6 as [?|(table & q & t & ? & _ & _ & ?)]; [by left|right; eauto].
Qed.

(** ** [_resolve_imports], beyond the claims *)

Lemma add_neighbor_id rb w n :
  PyDict.get rb (_adjacent n) = Some w → add_neighbor rb w n = n.
Proof.
  intros Hg. unfold add_neighbor, set_adjacent. rewrite (set_id _ _ _ Hg).
  by destruct n.
Qed.

Lemma wired_add_edge s a b :
  wired s a b → add_edge a b 1%Z false s = (Ok tt, s).
Proof.
  intros (ra & rb & Ha & Hb & Hw). rewrite (add_edge_Ok s a b _ ra rb Ha Hb).
  f_equal. destruct s as [h g]. unfold upd_objs. simpl in *. f_equal.
  apply list_eq. intros i. rewrite list_lookup_alter.
  destruct (decide (ra = i)) as [->|]; [|done].
  destruct (h !! i) as [n|] eqn:Hn; [|done]. simpl.
  by rewrite add_neighbor_id by auto.
Qed.

Lemma add_edge_wires s a b c d :
  wired s a b → wired (add_edge c d 1%Z false s).2 a b.
Proof.
  intros (ra & rb & Ha & Hb & Hw).
  destruct (add_edge_cases s c d 1%Z) as [[e ->]|(rc & rd & Hc & Hd & ->)].
  { by exists ra, rb. }
  exists ra, rb. simpl. split_and!; [done..|].
  intros n. rewrite list_lookup_alter.
  destruct (decide (rc = ra)) as [->|]; [|by apply Hw].
  destruct (objs s !! ra) as [n0|] eqn:Hn0; [|done]. simpl.
  intros [= <-]. unfold add_neighbor. simpl.
  destruct (decide (rd = rb)) as [->|Hne].
  - apply get_set_eq.
  - rewrite get_set_ne by done. by apply Hw.
Qed.

Lemma add_edge_wired s s' a b :
  add_edge a b 1%Z false s = (Ok tt, s') → wired s' a b.
Proof.
  destruct (add_edge_cases s a b 1%Z) as [[e ->]|(ra & rb & Ha & Hb & ->)];
    [done|].
  intros [= <-]. exists ra, rb. simpl. split_and!; [done..|].
  intros n. rewrite list_lookup_alter_eq.
  destruct (objs s !! ra); [|done]. simpl. intros [= <-].
  unfold add_neighbor. simpl. apply get_set_eq.
Qed.

Lemma replays_ret : replays (ret tt).
Proof. intros p p' [= <-]. split_and!; [apply same_tables_refl|done..]. Qed.

Lemma replays_add_edge a b : replays (on_AST (add_edge a b 1%Z false)).
Proof.
  intros p p'. rewrite on_AST_eq.
  destruct (add_edge a b 1%Z false (_AST p)) as [r s'] eqn:Hrun. simpl.
  intros [= -> <-]. split_and!.
  - done.
  - intros x y Hw. simpl. pose proof (add_edge_wires _ x y a b Hw) as Hw'.
    by rewrite Hrun in Hw'.
  - intros q Hq Hsub. rewrite on_AST_eq.
    rewrite (wired_add_edge (_AST q) a b).
    + simpl. by rewrite upd_AST_id.
    + apply Hsub. simpl. by eapply add_edge_wired.
Qed.

Lemma replays_seq (m1 m2 : M (S := parser) unit) :
  replays m1 → replays m2 → replays (m1;; m2).
Proof.
  intros H1 H2 p p' Hrun.
  apply bind_inv_Ok in Hrun as ([] & p1 & Hrun1 & Hrun2).
  destruct (H1 _ _ Hrun1) as (Ht1 & Hw1 & Hq1).
  destruct (H2 _ _ Hrun2) as (Ht2 & Hw2 & Hq2).
  split_and!.
  - by eapply same_tables_trans.
  - auto.
  - intros q Hq Hsub. rewrite (bind_Ok _ _ _ tt q); [|by auto].
    apply Hq2; [|done].
    destruct Ht1 as (?&?&?&?&?), Hq as (?&?&?&?&?).
    split_and!; congruence.
Qed.

Lemma replays_link_definition fp g : replays (link_definition fp g).
Proof.
  intros p p' Hrun.
  revert Hrun. unfold link_definition at 1. unfold_M.
  destruct (decide (_function_definitions p = ∅)) as [Hempty|Hne].
  { intros [= <-]. split_and!; [apply same_tables_refl|done|].
    intros q (_&_&_&Hd&_) _. unfold link_definition. unfold_M.
    by rewrite Hd, decide_True. }
  destruct (_function_definitions p !! fp) as [fd|] eqn:Hfd; simpl; [|done].
  destruct (fd !! g) as [d|] eqn:Hd.
  2:{ intros [= <-]. split_and!; [apply same_tables_refl|done|].
      intros q (_&_&_&Hq&_) _. unfold link_definition. unfold_M.
      rewrite Hq, decide_False by done. rewrite Hfd. simpl. by rewrite Hd. }
  destruct (_function_calls p !! fp) as [fc|] eqn:Hfc; simpl; [|done].
  destruct (PyDict.get g fc) as [c|] eqn:Hc; simpl; [|done].
  intros Hrun.
  pose proof (replays_seq _ _ (replays_add_edge c d) (replays_add_edge d c))
    as Hrep.
  destruct (Hrep p p') as (Ht & Hw & Hq); [done|].
  split_and!; [done..|].
  intros q Hsame Hsub. pose proof Hsame as (_&Hqc&_&Hqd&_).
  unfold link_definition. unfold bind at 1. unfold gets at 1.
  rewrite Hqd, decide_False by done.
  unfold bind at 1, or_raise, ret. rewrite Hfd.
  rewrite Hd. unfold bind at 1. unfold gets at 1. rewrite Hqc.
  unfold bind at 1. rewrite Hfc. unfold bind at 1. rewrite Hc.
  by apply Hq.
Qed.

Lemma replays_link_definitions fp names : replays (link_definitions fp names).
Proof.
  induction names as [|g names IH]; [apply replays_ret|].
  apply replays_seq; [apply replays_link_definition|done].
Qed.

Lemma replays_add_import_edges edges : replays (add_import_edges edges).
Proof.
  induction edges as [|[a b] edges IH]; [apply replays_ret|].
  apply replays_seq; [apply replays_add_edge|done].
Qed.

Lemma replays_resolve_imports fp : replays (_resolve_imports fp).
Proof.
  intros p p'. unfold _resolve_imports at 1. unfold_M.
  destruct (decide (_function_calls p = ∅)) as [Hempty|Hne].
  { intros [= <-]. split_and!; [apply same_tables_refl|done|].
    intros q (_&Hc&_) _. unfold _resolve_imports. unfold_M.
    by rewrite Hc, decide_True. }
  destruct (_function_calls p !! fp) as [fc|] eqn:Hfc; simpl; [|done].
  destruct (link_definitions fp (PyDict.keys fc) p) as [[[]|e] p1] eqn:Hrun1;
    simpl; [|done].
  intros Hrun2.
  destruct (replays_link_definitions fp _ _ _ Hrun1) as (Ht1 & Hw1 & Hq1).
  destruct (replays_add_import_edges _ _ _ Hrun2) as (Ht2 & Hw2 & Hq2).
  split_and!; [by eapply same_tables_trans|by auto|].
  intros q Hsame Hsub. pose proof Hsame as (_&Hqc&_&_&Hqe).
  unfold _resolve_imports. unfold bind at 1. unfold gets at 1.
  rewrite Hqc, decide_False by done.
  unfold bind at 1, or_raise, ret. rewrite Hfc.
  rewrite (bind_Ok _ _ _ tt q); [|by auto].
  unfold bind at 1. unfold gets at 1. rewrite Hqe.
  pose proof Ht1 as (_&_&_&_&He1). rewrite <-He1. apply Hq2; [|done].
  destruct Ht1 as (?&?&?&?&?), Hsame as (?&?&?&?&?). split_and!; congruence.
Qed.

(** X17: [_resolve_imports] is idempotent: when a call returns, a second
    call returns too and leaves the parser and its graph exactly as the
    first one left them; when the first call raises, so does the pair. *)
Theorem resolve_imports_idempotent (fp : string) (p : parser) :
  (_resolve_imports fp;; _resolve_imports fp) p = _resolve_imports fp p.
Proof.
  destruct (_resolve_imports fp p) as [[[]|e] p'] eqn:Hrun.
  - rewrite (bind_Ok _ _ _ _ _ Hrun).
    destruct (replays_resolve_imports fp _ _ Hrun) as (Ht & _ & Hq).
    by apply Hq.
  - by rewrite (bind_Raise _ _ _ _ _ Hrun).
Qed.

(** X18: whatever its outcome, [_resolve_imports] leaves the counters, the
    four tables, the vertex table and the ids of the objects as they were
    and removes no edge; in a graph whose vertex table maps each id to an
    object that carries it, every edge it adds is one that the tables plan:
    between the call site and the definition of a name, or queued from a
    call to an import. *)
Theorem resolve_imports_only_adds_edges (fp : string) (p : parser) :
  same_tables p (_resolve_imports fp p).2 ∧
  graph (_AST (_resolve_imports fp p).2) = graph (_AST p) ∧
  ids (_resolve_imports fp p).2 = ids p ∧
  (∀ x y, has_edge (_AST p) x y →
          has_edge (_AST (_resolve_imports fp p).2) x y) ∧
  (store_ok (_AST p) →
   ∀ x y, has_edge (_AST (_resolve_imports fp p).2) x y →
          has_edge (_AST p) x y ∨ planned fp p x y).
Proof.
  destruct (resolve_imports_grows fp p) as (H1&H2&H3&H4&H5&H6&H7&H8).
  split_and!; [by split_and!|done..|].
  intros Hok x y. by apply resolve_has_edge.
Qed.

(** X19: the edge cases of [_resolve_imports] on the tables.  With an empty
    table of calls it returns at once, whatever is queued or defined.  With
    calls recorded for other files only, it raises [KeyError]; so it does
    when the file has a call and the table of definitions knows other files
    only.  In each case the parser is left as it was. *)
Theorem resolve_imports_missing_keys (fp : string) (p : parser) :
  (_function_calls p = ∅ → _resolve_imports fp p = (Ok tt, p)) ∧
  (_function_calls p ≠ ∅ → _function_calls p !! fp = None →
   _resolve_imports fp p = (Raise KeyError, p)) ∧
  (∀ g c fc, _function_calls p !! fp = Some ((g, c) :: fc) →
             _function_definitions p ≠ ∅ →
             _function_definitions p !! fp = None →
             _resolve_imports fp p = (Raise KeyError, p)).
Proof.
  split_and!.
  - intros Hc. unfold _resolve_imports. unfold_M. by rewrite decide_True.
  - intros Hne Hc. unfold _resolve_imports. unfold_M.
    rewrite decide_False by done. by rewrite Hc.
  - intros g c fc Hc Hne Hd. unfold _resolve_imports. unfold_M.
    rewrite decide_False; last first.
    { intros Hempty. by rewrite Hempty, lookup_empty in Hc. }
    rewrite Hc. simpl. unfold link_definition. unfold_M.
    rewrite decide_False by done. by rewrite Hd.
Qed.

Lemma resolve_imports_missing_keys_witness :
  _resolve_imports "a.py" foreign_calls = (Raise KeyError, foreign_calls).
Proof.
  destruct (resolve_imports_missing_keys "a.py" foreign_calls) as (_ & H & _).
  apply H.
  - intros Hempty. apply (f_equal (λ m, m !! "b.py")) in Hempty.
    vm_compute in Hempty. discriminate.
  - reflexivity.
Defined.

Section whole_parse_more.
Context (fp : string) (B : list string) (depth : nat) (root : ts_node).

Lemma parse_outcome :
  (parse fp B depth root parser_init).1 =
    (_parse_node fp B depth root None 0 None fp parser_init).1.
Proof.
  pose proof (walk_sound fp B depth root None 0 None fp) as Hsound.
  pose proof (walk_keyed fp B depth root) as Hkeyed. unfold walked in Hkeyed.
  unfold parse. unfold_M.
  destruct (_parse_node fp B depth root None 0 None fp parser_init)
    as [[id|e] p1]; simpl in *; [|done].
  destruct (resolve_installs fp B p1 Hsound Hkeyed) as [Hok _].
  by destruct (_resolve_imports fp p1) as [[[]|e] p2]; simplify_eq/=.
Qed.
End whole_parse_more.

(** X20: [parse] has the outcome of the walk of the tree: on the tables
    that a walk builds, returning or not, [_resolve_imports] never raises
    (every id it looks up is registered, every table it indexes has the
    file). *)
Theorem parse_outcome_is_walk_outcome (fp : string) (B : list string)
    (depth : nat)
    (root : ts_node) :
  (parse fp B depth root parser_init).1 =
    (_parse_node fp B depth root None 0 None fp parser_init).1 ∧
  (_resolve_imports fp (walked fp B depth root)).1 = Ok tt.
Proof.
  split; [apply parse_outcome|].
  apply (resolve_installs fp B); [apply walk_sound|apply walk_keyed].
Qed.

(** X21: when [parse] returns, the edges of the graph are those the walk
    made and those the tables plan, no more and no less. *)
Theorem resolved_edges_exact (fp : string) (B : list string)
    (depth : nat) (root : ts_node)
    (id : string) :
  (parse fp B depth root parser_init).1 = Ok id →
  ∀ x y, has_edge (_AST (resolved fp B depth root)) x y ↔
         has_edge (_AST (walked fp B depth root)) x y ∨
         planned fp (walked fp B depth root) x y.
Proof.
  intros Hid x y.
  destruct (parse_observed fp B depth root id Hid) as (_ & Hsound & Hkeyed & -> & _).
  split.
  - apply resolve_has_edge. by destruct Hsound.
  - intros [Hw|Hpl].
    + by destruct (resolve_imports_grows fp (walked fp B depth root))
        as (_&_&_&_&_&_&_&Hmono); apply Hmono.
    + by apply (resolve_installs fp B).
Qed.

Lemma resolved_edges_exact_witness :
  (parse "a.py" ["print"; "len"] 1000 example_tree parser_init).1
    = Ok "module | a.py" ∧
  ∀ x y, has_edge (_AST (resolved "a.py" ["print"; "len"] 1000 example_tree)) x y ↔
         has_edge (_AST (walked "a.py" ["print"; "len"] 1000 example_tree)) x y ∨
         planned "a.py" (walked "a.py" ["print"; "len"] 1000 example_tree) x y.
Proof.
  split; [vm_compute; reflexivity|].
  apply (resolved_edges_exact "a.py" ["print"; "len"] 1000 example_tree
           "module | a.py").
  vm_compute. reflexivity.
Defined.

(** ** The object of a node *)

Section made.
Context (fp : string) (B : list string).

Lemma insert_node_Ok node last fn p n_ id name p' :
  insert_node fp node last fn p = (Ok (n_, id, name), p') →
  ∃ text, text_of node = Ok text ∧ n_ = length (objs (_AST p)) ∧ name = id ∧
    id = node_id fp node (display_name node text) (_counts p) ∧
    objs (_AST p') = objs (_AST p) ++ [fresh_object node id text last fn].
Proof.
  intros Hrun. unfold insert_node in Hrun. unfold bind at 1 in Hrun.
  rewrite capture_text_eq in Hrun.
  destruct (text_of node) as [text|e] eqn:Htext; [|done].
  unfold bind at 1 in Hrun. rewrite assign_id_eq in Hrun.
  set (id0 := node_id fp node (display_name node text) (_counts p)) in *.
  set (p0 := if decide (ts_type node = "module") then p else _) in *.
  assert (_AST p0 = _AST p) as HA.
  { unfold p0. by destruct (decide (ts_type node = "module")). }
  clearbody p0.
  set (n0 := Node_init id0 (ts_start_point node) (ts_end_point node) fn None
               (Some (ts_type node)) None last) in *.
  set (h := objs (_AST p)) in *.
  destruct (new_node_spec n0 p0) as (p1 & Hrun1 & Ho1 & Hg1 & Ht1).
  rewrite (bind_Ok _ _ _ _ _ Hrun1) in Hrun. rewrite HA in *.
  fold h in Ho1, Hrun.
  set (n1 := if truthy text then set_text text n0 else n0).
  assert (∃ p2, (if truthy text
      then on_AST (modify (upd_objs (alter (set_text text) (length h))))
      else ret ()) p1 = (Ok tt, p2) ∧
      objs (_AST p2) = h ++ [n1]) as (p2 & Hrun2 & Ho2).
  { unfold n1. destruct (truthy text).
    - destruct (alter_obj_spec (set_text text) (length h) p1)
        as (p2 & Hrun' & Ho & Hg & Ht).
      exists p2. split; [done|].
      rewrite Ho, Ho1, (alter_app_r_alt _ h) by done. by rewrite Nat.sub_diag.
    - by exists p1. }
  rewrite (bind_Ok _ _ _ _ _ Hrun2) in Hrun.
  destruct (add_vertex_spec (length h) p2 n1)
    as (rv & p3 & Hrun3 & Ho3 & Ht3 & Hcase).
  { rewrite Ho2, lookup_app_r by done. by rewrite Nat.sub_diag. }
  destruct Hcase as [[-> Hg3]|[[e ->] [Hg3 Hlast]]].
  2:{ by rewrite (bind_Raise _ _ _ _ _ Hrun3) in Hrun. }
  rewrite (bind_Ok _ _ _ _ _ Hrun3) in Hrun.
  set (n2 := if decide (ts_type node = "identifier")
             then set_var_name (Some (ts_text node)) n1 else n1).
  assert (∃ p4, (if decide (ts_type node = "identifier")
      then on_AST (modify (upd_objs
             (alter (set_var_name (Some (ts_text node))) (length h))))
      else ret ()) p3 = (Ok tt, p4) ∧
      objs (_AST p4) = h ++ [n2]) as (p4 & Hrun4 & Ho4).
  { unfold n2. destruct (decide (ts_type node = "identifier")).
    - destruct (alter_obj_spec (set_var_name (Some (ts_text node)))
                  (length h) p3) as (p4 & Hrun' & Ho & Hg & Ht).
      exists p4. split; [done|].
      rewrite Ho, Ho3, Ho2, (alter_app_r_alt _ h) by done.
      by rewrite Nat.sub_diag.
    - exists p3. split; [done|congruence]. }
  rewrite (bind_Ok _ _ _ _ _ Hrun4) in Hrun.
  assert (_id n1 = id0) as Hid1.
  { unfold n1. by destruct (truthy text). }
  unfold ret in Hrun. simplify_eq.
  exists text. split_and!; [done..|]. rewrite Ho4. do 2 f_equal.
  unfold n2, n1, n0, fresh_object.
  by destruct (decide (ts_type node = "identifier")), (truthy text).
Qed.

Lemma visit_Ok depth node up idx last fn p n_ id p' :
  visit fp B depth node up idx last fn p = (Ok (n_, id), p') →
  ∃ text, text_of node = Ok text ∧ n_ = length (objs (_AST p)) ∧
    id = node_id fp node (display_name node text) (_counts p) ∧
    objs (_AST p') = objs (_AST p) ++ [fresh_object node id text last fn] ∧
    graph (_AST p') =
      {| vert_dict := <[id := n_]> (vert_dict (graph (_AST p)));
         num_vertices := num_vertices (graph (_AST p)) + 1 |}.
Proof.
  intros Hrun.
  destruct (visit_spec fp B depth node up idx last fn p)
    as [(e & _ & Hv)|(text & n' & r & p'' & Htext & Hv & Hobjs & Hid & _ & _ &
        _ & _ & Hcase)]; [congruence|].
  rewrite Hrun in Hv. simplify_eq.
  destruct Hcase as [([e ?] & _)|(Hg & [?|[e ?]] & _)]; simplify_eq.
  unfold visit in Hrun.
  apply bind_inv_Ok in Hrun as ([[n_ id'] name] & p1 & Hins & Hrun).
  apply bind_inv_Ok in Hrun as ([] & p2 & Hdis & Hret).
  unfold ret in Hret. simplify_eq.
  destruct (insert_node_Ok _ _ _ _ _ _ _ _ Hins)
    as (text' & Htext' & _ & _ & Hid' & Hobjs1).
  destruct (dispatch_handlers_spec fp B depth node up idx name p1)
    as (r & p3 & Hrun' & HA & _).
  rewrite Hdis in Hrun'. simplify_eq.
  exists text. split_and!; [done..| |done].
  rewrite HA, Hobjs1. do 2 f_equal. congruence.
Qed.
End made.

(** ** The shape of the graph that the walk builds *)

Lemma visited_below_cons c cs :
  visited_below (c :: cs) =
    (if ts_is_named c then visited c else []) ++ visited_below cs.
Proof. done. Qed.

Lemma length_visited_pos node : 0 < length (visited node).
Proof. rewrite visited_unfold. simpl. lia. Qed.

Lemma child_refs_bounds off cs r :
  r ∈ child_refs off cs → off ≤ r < off + length (visited_below cs).
Proof.
  revert off. induction cs as [|c cs IH]; intros off; cbn [child_refs].
  { by intros ?%elem_of_nil. }
  rewrite visited_below_cons, length_app.
  destruct (ts_is_named c).
  - pose proof (length_visited_pos c).
    intros [->|Hin%IH]%elem_of_cons; lia.
  - cbn [length]. intros Hin%IH. lia.
Qed.

Lemma built_at_agree fn (h h' : heap) k node :
  (∀ x, k ≤ x → x < length h → h' !! x = h !! x) →
  built_at fn h k node → built_at fn h' k node.
Proof.
  intros Hagree (n & text & Hk & Htext & Hn & Hkids).
  exists n, text. split_and!; [|done..|].
  - rewrite Hagree; [done|lia|by eapply lookup_lt_Some].
  - intros r Hr. destruct (Hkids r Hr) as (c & Hc & Hp). exists c.
    split; [|done]. rewrite Hagree; [done| |by eapply lookup_lt_Some].
    apply child_refs_bounds in Hr. lia.
Qed.

Lemma set_fresh_key {V} (k : nat) (v : V) (d : list (nat * V)) :
  k ∉ PyDict.keys d → PyDict.set k v d = d ++ [(k, v)].
Proof.
  unfold PyDict.keys. induction d as [|[k' v'] d IH]; [done|].
  rewrite fmap_cons, not_elem_of_cons. cbn [fst PyDict.set]. intros [Hne Hin].
  rewrite decide_False by done. by rewrite IH.
Qed.

Section shape.
Context (fp : string) (B : list string).

Lemma grows_indexed p p' : grows p p' → indexed p → indexed p'.
Proof.
  intros (_&_&_&_&_&Hg&Hids&_) Hix k id. unfold ids. rewrite Hg, Hids.
  apply Hix.
Qed.

Lemma visit_indexed depth node up idx last fn p n_ id p' :
  visit fp B depth node up idx last fn p = (Ok (n_, id), p') →
  plain_kind node ∨ ids p = [] →
  ids_fresh fp p → indexed p → indexed p'.
Proof.
  intros Hrun Hkind Hfresh Hix.
  pose proof (visit_ids_fresh fp B depth node up idx last fn p Hkind Hfresh)
    as [Hnd _].
  rewrite Hrun in Hnd. simpl in Hnd.
  destruct (visit_Ok fp B _ _ _ _ _ _ _ _ _ _ Hrun)
    as (text & _ & -> & _ & Hobjs & Hg).
  unfold ids in Hnd. rewrite Hobjs, fmap_app in Hnd. simpl in Hnd.
  apply NoDup_app in Hnd as (_ & Hnew & _).
  intros k id'. unfold ids. rewrite Hobjs, Hg, fmap_app. simpl.
  intros Hk. apply lookup_app_Some in Hk as [Hk|[Hlen Hk]].
  - rewrite lookup_insert_ne; [by apply Hix|].
    intros <-. apply (Hnew id); [by eapply list_elem_of_lookup_2|].
    apply list_elem_of_singleton. done.
  - rewrite length_fmap in Hlen, Hk.
    apply list_lookup_singleton_Some in Hk as [Hk <-].
    rewrite lookup_insert_eq. f_equal. lia.
Qed.
End shape.

Section shape_walk.
Context (fp : string) (B : list string).

Lemma set_adjacent_set_adjacent a b n :
  set_adjacent a (set_adjacent b n) = set_adjacent a n.
Proof. done. Qed.

Lemma child_step_shape depth node c i fn p p' base n0 :
  (∀ up idx last fn p id p',
     _parse_node fp B depth c up idx last fn p = (Ok id, p') →
     plain_kind c ∨ ids p = [] →
     Forall plain_kind (visited_below (ts_children c)) →
     ids_fresh fp p → indexed p →
     (∀ q, last = Some q → q < length (objs (_AST p))) →
     shape_post fp fn last p c id p') →
  (let* to_id_ := _parse_node fp B depth c (Some node) i (Some base) fn in
   let* n_id := on_AST (let* n := read base in ret (_id n)) in
   on_AST (add_edge n_id to_id_ 1%Z false)) p = (Ok tt, p') →
  Forall plain_kind (visited c) →
  ids_fresh fp p → indexed p →
  objs (_AST p) !! base = Some n0 →
  (∀ r, r ∈ get_connections n0 → r < length (objs (_AST p))) →
  length (objs (_AST p')) = length (objs (_AST p)) + length (visited c) ∧
  (∀ k, k < length (objs (_AST p)) → k ≠ base →
        objs (_AST p') !! k = objs (_AST p) !! k) ∧
  objs (_AST p') !! base =
    Some (set_adjacent (_adjacent n0 ++ [(length (objs (_AST p)), 1%Z)]) n0) ∧
  (∀ j node', visited c !! j = Some node' →
     built_at fn (objs (_AST p')) (length (objs (_AST p)) + j) node') ∧
  (∃ cn, objs (_AST p') !! length (objs (_AST p)) = Some cn ∧
         _parent cn = Some base) ∧
  (∀ k n q, length (objs (_AST p)) ≤ k → objs (_AST p') !! k = Some n →
             _parent n = Some q → q < k) ∧
  indexed p' ∧ ids_fresh fp p' ∧
  num_vertices (graph (_AST p')) =
    num_vertices (graph (_AST p)) + length (visited c).
Proof.
  intros IHc Hrun Hkinds Hfresh Hix Hbase Hconn.
  set (off := length (objs (_AST p))) in *.
  assert (base < off) as Hlt by (by eapply lookup_lt_Some).
  apply bind_inv_Ok in Hrun as (to_id & p1 & Hwalk & Hrun).
  apply bind_inv_Ok in Hrun as (n_id & p2 & Hread & Hedge).
  pose proof (read_id_state base p1) as Hst. rewrite Hread in Hst.
  simpl in Hst. subst p2.
  rewrite visited_unfold in Hkinds. apply Forall_cons in Hkinds as [Hk Hks].
  destruct (IHc _ _ _ _ _ _ _ Hwalk (or_introl Hk) Hks Hfresh Hix)
    as (L1 & F1 & B1 & (cn & Hcn & Hpar & Hidc) & O1 & Hix1 & Hfr1 & Hnv1).
  { intros q [= <-]. done. }
  fold off in L1, F1, B1, Hcn.
  assert (objs (_AST p1) !! base = Some n0) as Hbase1 by (by rewrite F1).
  assert (n_id = _id n0) as ->.
  { rewrite on_AST_eq in Hread.
    cbv [bind ret gets deref read] in Hread. simpl in Hread.
    rewrite Hbase1 in Hread. simpl in Hread. congruence. }
  assert (vert_dict (graph (_AST p1)) !! _id n0 = Some base) as Hvb.
  { apply Hix1. unfold ids. by rewrite list_lookup_fmap, Hbase1. }
  assert (vert_dict (graph (_AST p1)) !! to_id = Some off) as Hvo.
  { apply Hix1. unfold ids. rewrite list_lookup_fmap, Hcn. simpl. congruence. }
  pose proof (on_AST_add_edge_grows (_id n0) to_id 1%Z p1) as Hgrows.
  rewrite Hedge in Hgrows. simpl in Hgrows.
  rewrite on_AST_eq, (add_edge_Ok _ _ _ _ _ _ Hvb Hvo) in Hedge.
  simpl in Hedge. injection Hedge as <-. simpl.
  split_and!.
  - rewrite length_alter. lia.
  - intros k Hk' Hne. rewrite list_lookup_alter_ne by done. by apply F1.
  - rewrite list_lookup_alter_eq, Hbase1. simpl. f_equal.
    unfold add_neighbor. f_equal. apply set_fresh_key.
    intros Hin%Hconn. lia.
  - intros j node' Hj. eapply built_at_agree; [|by apply B1].
    intros x Hx _. apply list_lookup_alter_ne. lia.
  - exists cn. split; [|done]. rewrite list_lookup_alter_ne by lia. done.
  - intros k n q Hk'. rewrite list_lookup_alter_ne by lia. by apply O1.
  - by eapply grows_indexed.
  - by eapply grows_ids_fresh.
  - done.
Qed.

Lemma children_shape depth node fn cs :
  Forall (λ c, ∀ up idx last fn p id p',
     _parse_node fp B depth c up idx last fn p = (Ok id, p') →
     plain_kind c ∨ ids p = [] →
     Forall plain_kind (visited_below (ts_children c)) →
     ids_fresh fp p → indexed p →
     (∀ q, last = Some q → q < length (objs (_AST p))) →
     shape_post fp fn last p c id p') cs →
  ∀ i p p' base n0,
    for_each_child (λ c i,
      if ts_is_named c then
        let* to_id_ := _parse_node fp B depth c (Some node) i (Some base) fn in
        let* n_id := on_AST (let* n := read base in ret (_id n)) in
        on_AST (add_edge n_id to_id_ 1%Z false)
      else ret tt) cs i p = (Ok tt, p') →
    Forall plain_kind (visited_below cs) →
    ids_fresh fp p → indexed p →
    objs (_AST p) !! base = Some n0 →
    (∀ r, r ∈ get_connections n0 → r < length (objs (_AST p))) →
    length (objs (_AST p')) =
      length (objs (_AST p)) + length (visited_below cs) ∧
    (∀ k, k < length (objs (_AST p)) → k ≠ base →
          objs (_AST p') !! k = objs (_AST p) !! k) ∧
    objs (_AST p') !! base =
      Some (set_adjacent
              (_adjacent n0 ++
               unit_weights (child_refs (length (objs (_AST p))) cs)) n0) ∧
    (∀ j node', visited_below cs !! j = Some node' →
       built_at fn (objs (_AST p')) (length (objs (_AST p)) + j) node') ∧
    (∀ r, r ∈ child_refs (length (objs (_AST p))) cs →
          ∃ c, objs (_AST p') !! r = Some c ∧ _parent c = Some base) ∧
    (∀ k n q, length (objs (_AST p)) ≤ k → objs (_AST p') !! k = Some n →
               _parent n = Some q → q < k) ∧
    indexed p' ∧ ids_fresh fp p' ∧
    num_vertices (graph (_AST p')) =
      num_vertices (graph (_AST p)) + length (visited_below cs).
Proof.
  induction cs as [|c cs IH]; intros IHcs i p p' base n0 Hrun Hkinds Hfresh
    Hix Hbase Hconn.
  { simpl in Hrun. unfold ret in Hrun. simplify_eq. cbn [child_refs].
    unfold visited_below, unit_weights. simpl. rewrite app_nil_r.
    split_and!; try done; try lia.
    - by destruct n0.
    - intros r ?%elem_of_nil. done.
    - intros k n q Hk Hn. apply lookup_lt_Some in Hn. lia. }
  apply Forall_cons in IHcs as [IHc IHcs].
  cbn [for_each_child] in Hrun.
  apply bind_inv_Ok in Hrun as ([] & p1 & Hbody & Hrest).
  rewrite visited_below_cons in Hkinds |- *.
  apply Forall_app in Hkinds as [Hkc Hkcs].
  cbn [child_refs]. destruct (ts_is_named c) eqn:Hnamed.
  - destruct (child_step_shape depth node c i fn p p1 base n0 IHc Hbody Hkc Hfresh
                Hix Hbase Hconn)
      as (L1 & F1 & Hb1 & B1 & (cn & Hcn & Hpar) & O1 & Hix1 & Hfr1 & Hnv1).
    set (off := length (objs (_AST p))) in *.
    assert (base < off) as Hlt by (by eapply lookup_lt_Some).
    destruct (IH IHcs (S i) p1 p' base _ Hrest Hkcs Hfr1 Hix1 Hb1)
      as (L2 & F2 & Hb2 & B2 & K2 & O2 & Hix2 & Hfr2 & Hnv2).
    { intros r. unfold get_connections, PyDict.keys. simpl.
      rewrite fmap_app. simpl.
      intros [Hr%Hconn| ->%list_elem_of_singleton]%elem_of_app.
      - fold off in Hr. lia.
      - pose proof (length_visited_pos c). lia. }
    rewrite L1 in L2, F2, Hb2, B2, K2, O2.
    split_and!.
    + rewrite length_app. lia.
    + intros k Hk Hne. rewrite F2 by (done || lia). by apply F1.
    + rewrite Hb2. f_equal. rewrite set_adjacent_set_adjacent. f_equal.
      unfold unit_weights. simpl. by rewrite <-app_assoc.
    + intros j node' Hj. apply lookup_app_Some in Hj as [Hj|[Hlen Hj]].
      * eapply built_at_agree; [|by apply B1].
        intros x Hx Hx'. apply F2; lia.
      * specialize (B2 _ _ Hj).
        by replace (off + length (visited c) + (j - length (visited c)))
          with (off + j) in B2 by lia.
    + intros r [->|Hr]%elem_of_cons; [|by apply K2].
      exists cn. split; [|done]. rewrite F2; [done| |lia].
      pose proof (length_visited_pos c). lia.
    + intros k n q Hk Hn.
      destruct (decide (k < off + length (visited c))) as [Hlo|Hhi].
      * rewrite F2 in Hn by lia. by apply O1.
      * apply O2; [lia|done].
    + done.
    + done.
    + rewrite length_app. lia.
  - unfold ret in Hbody. simplify_eq. simpl.
    by apply (IH IHcs (S i) p1 p' base n0).
Qed.

Lemma parse_node_shape node :
  ∀ depth up idx last fn p id p',
    _parse_node fp B depth node up idx last fn p = (Ok id, p') →
    plain_kind node ∨ ids p = [] →
    Forall plain_kind (visited_below (ts_children node)) →
    ids_fresh fp p → indexed p →
    (∀ q, last = Some q → q < length (objs (_AST p))) →
    shape_post fp fn last p node id p'.
Proof.
  induction node as [ty named txt sp ep cs IH] using ts_node_ind'.
  intros [|depth] up idx last fn p id p' Hrun Hkind Hkinds Hfresh Hix Hlast.
  { by rewrite parse_node_exhausted in Hrun. }
  set (node := TSNode ty named txt sp ep cs) in *.
  rewrite parse_node_unfold in Hrun.
  apply bind_inv_Ok in Hrun as ([n_ id'] & p0 & Hvisit & Hrun).
  apply bind_inv_Ok in Hrun as ([] & p2 & Hloop & Hret).
  unfold ret in Hret. simplify_eq.
  destruct (visit_Ok fp B _ _ _ _ _ _ _ _ _ _ Hvisit)
    as (text & Htext & -> & Hid & Hobjs0 & Hg0).
  pose proof (visit_ids_fresh fp B depth node up idx last fn p Hkind Hfresh) as Hfr0.
  rewrite Hvisit in Hfr0. simpl in Hfr0.
  pose proof (visit_indexed fp B _ _ _ _ _ _ _ _ _ _ Hvisit Hkind Hfresh Hix)
    as Hix0.
  set (base := length (objs (_AST p))) in *.
  set (n0 := fresh_object node id text last fn) in *.
  assert (objs (_AST p0) !! base = Some n0) as Hbase0.
  { rewrite Hobjs0, lookup_app_r by done. unfold base.
    by rewrite Nat.sub_diag. }
  assert (length (objs (_AST p0)) = S base) as Hlen0.
  { rewrite Hobjs0, length_app. simpl. lia. }
  destruct (children_shape depth node fn cs
              (Forall_impl _ _ _ IH (λ c H, H depth)) 0 p0 p' base n0 Hloop
              Hkinds Hfr0 Hix0 Hbase0)
    as (L & F & Hb & Bt & K & O & Hix' & Hfr' & Hnv).
  { intros r ?%elem_of_nil. done. }
  rewrite Hlen0 in L, F, Hb, Bt, K, O. simpl in Hb.
  unfold shape_post. fold base. rewrite visited_unfold. simpl.
  split_and!.
  - lia.
  - intros k Hk. rewrite F by lia. rewrite Hobjs0. by apply lookup_app_l.
  - intros [|j] node' Hj; simpl in Hj.
    + simplify_eq. rewrite Nat.add_0_r.
      eexists _, text. split_and!; [exact Hb|done|done|done].
    + replace (base + S j) with (S base + j) by lia. by apply Bt.
  - eexists. split; [exact Hb|done].
  - intros k n q Hk Hn Hq. destruct (decide (k = base)) as [->|Hne].
    + rewrite Hb in Hn. simplify_eq. simpl in Hq. by apply Hlast.
    + eapply O; [|done..]. lia.
  - done.
  - done.
  - rewrite Hnv, Hg0. simpl. lia.
Qed.
End shape_walk.

(** ** What only adds edges *)

Section edges_only.
Context (fp : string) (R : parser → parser → Prop).
Hypothesis R_refl : ∀ p, R p p.
Hypothesis R_trans : ∀ p1 p2 p3, R p1 p2 → R p2 p3 → R p1 p3.
Hypothesis R_edge : ∀ a b p, R p (on_AST (add_edge a b 1%Z false) p).2.

Lemma link_definition_rel g p : R p (link_definition fp g p).2.
Proof using Type*.
  unfold link_definition. unfold_M.
  case_decide; [apply R_refl|].
  destruct (_function_definitions p !! fp) as [file_defs|]; simpl;
    [|apply R_refl].
  destruct (file_defs !! g) as [d|]; [|apply R_refl].
  destruct (_function_calls p !! fp) as [file_calls|]; simpl;
    [|apply R_refl].
  destruct (PyDict.get g file_calls) as [c|]; simpl; [|apply R_refl].
  pose proof (R_edge c d p) as H1.
  fold (on_AST (add_edge c d 1%Z false) p).
  destruct (on_AST (add_edge c d 1%Z false) p) as [[[]|e] p1]; simpl in *;
    [|done].
  pose proof (R_edge d c p1) as H2.
  fold (on_AST (add_edge d c 1%Z false) p1).
  eapply R_trans; [done|].
  by destruct (on_AST (add_edge d c 1%Z false) p1) as [[[]|e] p2].
Qed.

Lemma link_definitions_rel names p : R p (link_definitions fp names p).2.
Proof using Type*.
  revert p. induction names as [|g names IH]; intros p; simpl.
  { apply R_refl. }
  pose proof (link_definition_rel g p) as Hg. unfold bind.
  destruct (link_definition fp g p) as [[[]|e] p1]; simpl in *; [|done].
  eapply R_trans; [done|]. apply IH.
Qed.

Lemma add_import_edges_rel edges p : R p (add_import_edges edges p).2.
Proof using Type*.
  revert p. induction edges as [|[a b] edges IH]; intros p; simpl.
  { apply R_refl. }
  pose proof (R_edge a b p) as Hg.
  unfold bind. destruct (on_AST (add_edge a b 1%Z false) p) as [[[]|e] p1];
    simpl in *; [|done].
  eapply R_trans; [done|]. apply IH.
Qed.

Lemma resolve_imports_rel p : R p (_resolve_imports fp p).2.
Proof using Type*.
  unfold _resolve_imports. unfold_M. case_decide; [apply R_refl|].
  destruct (_function_calls p !! fp) as [file_calls|]; simpl;
    [|apply R_refl].
  pose proof (link_definitions_rel (PyDict.keys file_calls) p) as Hg.
  destruct (link_definitions fp (PyDict.keys file_calls) p) as [[[]|e] p1];
    simpl in *; [|done].
  eapply R_trans; [done|]. apply add_import_edges_rel.
Qed.
End edges_only.

Lemma keys_unit_weights rs : PyDict.keys (unit_weights rs) = rs.
Proof.
  unfold PyDict.keys, unit_weights. rewrite <-list_fmap_compose.
  by rewrite list_fmap_id.
Qed.

Lemma set_unit_weights r rs :
  ∃ more, PyDict.set r 1%Z (unit_weights rs) = unit_weights (rs ++ more) ∧
          ∀ r', r' ∈ more → r' = r.
Proof.
  destruct (decide (r ∈ rs)) as [Hin|Hin].
  - exists []. rewrite app_nil_r. split; [|by intros r' ?%elem_of_nil].
    apply set_id.
    induction rs as [|r' rs IH]; [by apply elem_of_nil in Hin|].
    simpl. destruct (decide (r = r')) as [->|Hne]; [done|].
    apply IH. by apply elem_of_cons in Hin as [?|?].
  - exists [r]. split; [|by intros r' ?%list_elem_of_singleton].
    rewrite set_fresh_key by (by rewrite keys_unit_weights).
    unfold unit_weights. by rewrite fmap_app.
Qed.

Lemma extends_refl p : extends p p.
Proof.
  split_and!; [done..|]. intros k n Hn. exists n. split_and!; [done..|].
  intros rs ->. exists []. rewrite app_nil_r.
  split; [done|]. by intros r ?%elem_of_nil.
Qed.

Lemma extends_trans p1 p2 p3 : extends p1 p2 → extends p2 p3 → extends p1 p3.
Proof.
  intros (G1 & L1 & H1) (G2 & L2 & H2). split_and!; [congruence..|].
  intros k n Hn.
  destruct (H1 k n Hn) as (n' & Hn' & Hs1 & Ha1).
  destruct (H2 k n' Hn') as (n'' & Hn'' & Hs2 & Ha2).
  exists n''. split_and!; [done|congruence|].
  intros rs Hrs. destruct (Ha1 rs Hrs) as (m1 & Hm1 & Hr1).
  destruct (Ha2 _ Hm1) as (m2 & Hm2 & Hr2). exists (m1 ++ m2).
  rewrite app_assoc. split; [done|].
  intros r [?|?]%elem_of_app; [by apply Hr1|].
  rewrite <-G1. by apply Hr2.
Qed.

Lemma on_AST_add_edge_extends a b p :
  extends p (on_AST (add_edge a b 1%Z false) p).2.
Proof.
  rewrite on_AST_eq. simpl.
  destruct (add_edge_cases (_AST p) a b 1%Z)
    as [[e ->]|(ra & rb & Ha & Hb & ->)].
  { simpl. rewrite upd_AST_id. apply extends_refl. }
  unfold extends. simpl. split_and!; [done|by rewrite length_alter|].
  intros k n Hn. rewrite list_lookup_alter, Hn.
  destruct (decide (ra = k)) as [->|Hne]; simpl.
  - rewrite Hn. simpl. eexists. split_and!; [done..|]. intros rs Hrs.
    unfold add_neighbor. simpl. rewrite Hrs.
    destruct (set_unit_weights rb rs) as (more & Hmore & Hin).
    exists more. split; [done|]. intros r ->%Hin. by exists b.
  - exists n. split_and!; [done..|]. intros rs ->. exists [].
    rewrite app_nil_r. split; [done|]. by intros r ?%elem_of_nil.
Qed.

Lemma resolve_imports_extends fp p : extends p (_resolve_imports fp p).2.
Proof.
  apply resolve_imports_rel;
    [apply extends_refl|apply extends_trans|apply on_AST_add_edge_extends].
Qed.

(** ** The descendants in a freshly walked tree *)

Lemma descendants_loop_shaped fn (h : heap) (d : nat) cs :
  Forall (λ c, ∀ base,
     (∀ j node', visited c !! j = Some node' → built_at fn h (base + j) node') →
     get_descendants (length (visited c)) h base =
       Ok (seq (S base) (length (visited c) - 1))) cs →
  ∀ off acc,
    (∀ j node', visited_below cs !! j = Some node' →
                built_at fn h (off + j) node') →
    length (visited_below cs) ≤ d →
    descendants_loop (get_descendants d h) (child_refs off cs) acc =
      Ok (acc ++ seq off (length (visited_below cs))).
Proof.
  induction cs as [|c cs IH]; intros IHcs off acc Hbuilt Hd.
  { simpl. by rewrite app_nil_r. }
  apply Forall_cons in IHcs as [IHc IHcs].
  cbn [child_refs]. rewrite visited_below_cons in Hbuilt, Hd |- *.
  rewrite length_app in Hd |- *.
  destruct (ts_is_named c) eqn:Hnamed.
  - cbn [descendants_loop].
    rewrite (get_descendants_mono (length (visited c)) d h off
               (seq (S off) (length (visited c) - 1))); [|lia|].
    2:{ apply IHc. intros j node' Hj. apply Hbuilt. by apply lookup_app_l_Some. }
    rewrite IH; [|done| |lia].
    2:{ intros j node' Hj.
        replace (off + length (visited c) + j)
          with (off + (length (visited c) + j)) by lia.
        apply Hbuilt. rewrite lookup_app_r by lia.
        by replace (length (visited c) + j - length (visited c)) with j by lia. }
    f_equal. rewrite <-app_assoc. f_equal. rewrite seq_app.
    pose proof (length_visited_pos c).
    replace (length (visited c)) with (S (length (visited c) - 1)) at 3 by lia.
    done.
  - simpl in *. by apply IH.
Qed.

Lemma get_descendants_shaped fn (h : heap) node :
  ∀ base,
    (∀ j node', visited node !! j = Some node' → built_at fn h (base + j) node') →
    get_descendants (length (visited node)) h base =
      Ok (seq (S base) (length (visited node) - 1)).
Proof.
  induction node as [ty named txt sp ep cs IH] using ts_node_ind'.
  intros base Hbuilt. set (node := TSNode ty named txt sp ep cs) in *.
  destruct (Hbuilt 0 node) as (n & text & Hn & _ & Hadj & _).
  { by rewrite visited_unfold. }
  rewrite Nat.add_0_r in Hn, Hadj. rewrite visited_unfold. cbn [length].
  cbn [get_descendants]. rewrite Hn.
  assert (get_connections n = child_refs (S base) cs) as ->.
  { rewrite Hadj. unfold get_connections. simpl. apply keys_unit_weights. }
  rewrite (descendants_loop_shaped fn h _ cs IH (S base) []); [|  |done].
  - simpl. by rewrite Nat.sub_0_r.
  - intros j node' Hj. replace (S base + j) with (base + S j) by lia.
    apply Hbuilt. by rewrite visited_unfold.
Qed.

(** ** The graph of a parsed file *)

Lemma visited_below_subtree cs :
  Forall (λ c, ∀ k node, visited c !! k = Some node →
            ∀ j node', visited node !! j = Some node' →
                       visited c !! (k + j) = Some node') cs →
  ∀ k node, visited_below cs !! k = Some node →
    ∀ j node', visited node !! j = Some node' →
               visited_below cs !! (k + j) = Some node'.
Proof.
  induction cs as [|c cs IH]; intros IHcs k node Hk j node' Hj; [done|].
  apply Forall_cons in IHcs as [IHc IHcs].
  rewrite visited_below_cons in Hk |- *.
  apply lookup_app_Some in Hk as [Hk|[Hlen Hk]].
  - destruct (ts_is_named c); [|done].
    apply lookup_app_l_Some. by eapply IHc.
  - rewrite lookup_app_r by lia.
    replace (k + j - length (if ts_is_named c then visited c else []))
      with (k - length (if ts_is_named c then visited c else []) + j) by lia.
    by eapply IH.
Qed.

Lemma visited_subtree root :
  ∀ k node, visited root !! k = Some node →
    ∀ j node', visited node !! j = Some node' →
               visited root !! (k + j) = Some node'.
Proof.
  induction root as [ty named txt sp ep cs IH] using ts_node_ind'.
  intros [|k] node Hk j node' Hj.
  - rewrite visited_unfold in Hk. by simplify_eq/=.
  - rewrite visited_unfold in Hk |- *. simpl in *.
    by eapply visited_below_subtree.
Qed.

Lemma decreasing_path_length (R : ref → ref → Prop) x p :
  (∀ a b, R a b → b < a) → is_path R x p → length p ≤ x.
Proof.
  intros Hdec. revert x. induction p as [|y p IH]; intros x; simpl; [lia|].
  intros [Hxy Hp]. apply Hdec in Hxy. apply IH in Hp. lia.
Qed.

Lemma climb_parents_older (h : heap) (x : ref) :
  heap_closed h → x < length h →
  (∀ k n q, h !! k = Some n → _parent n = Some q → q < k) →
  ∃ r, climb (length h) h x = Ok r.
Proof.
  intros Hcl Hx Hold. pose proof (climb_spec (length h) h x Hcl Hx) as Hsp.
  destruct (climb (length h) h x) as [r|e]; [by exists r|].
  destruct Hsp as (p & Hlen & Hp).
  apply decreasing_path_length in Hp; [lia|].
  intros a b (n & pn & Hn & Hpar & _). by eapply Hold.
Qed.

Section whole_shape.
Context (fp : string) (B : list string) (depth : nat).
Context (root : ts_node) (id : string).
Hypothesis Hkinds : Forall plain_kind (visited_below (ts_children root)).
Hypothesis Hparse : (parse fp B depth root parser_init).1 = Ok id.

Lemma parse_shape :
  shape_post fp fp None parser_init root id (walked fp B depth root) ∧
  extends (walked fp B depth root) (resolved fp B depth root) ∧
  grows (walked fp B depth root) (resolved fp B depth root) ∧
  ids (walked fp B depth root) = labels fp (visited root) ∧
  store_ok (_AST (walked fp B depth root)).
Proof using Type*.
  destruct (parse_returns fp B depth root id Hparse) as [Hwalk Hres].
  pose proof (walk_sound fp B depth root None 0 None fp) as (Hok & _).
  unfold walked in *.
  destruct (_parse_node fp B depth root None 0 None fp parser_init)
    as [r p1] eqn:Hrun. simpl in *. subst r.
  split_and!.
  - eapply parse_node_shape; [done|by right|done| | |done].
    + split; [constructor|]. by intros x ?%elem_of_nil.
    + by intros k x ?.
  - rewrite Hres. apply resolve_imports_extends.
  - rewrite Hres. apply resolve_imports_grows.
  - by destruct (walk_labelled fp B _ _ _ _ _ _ _ _ Hrun).
  - done.
Qed.

Lemma walked_built k node :
  visited root !! k = Some node →
  built_at fp (objs (_AST (walked fp B depth root))) k node.
Proof using Type*.
  destruct parse_shape as ((_ & _ & Hb & _) & _). apply (Hb k node).
Qed.

Lemma walked_heap_closed : heap_closed (objs (_AST (walked fp B depth root))).
Proof using Type*.
  destruct parse_shape as ((L & _ & Hb & _ & O & _) & _).
  simpl in L, O. intros a n Ha.
  assert (a < length (visited root)) as Hlt.
  { rewrite <-L. by eapply lookup_lt_Some. }
  destruct (lookup_lt_is_Some_2 _ _ Hlt) as [node Hnode].
  destruct (Hb a node Hnode) as (n' & text & Hn' & _ & Hadj & Hkids).
  simpl in Hn'. simplify_eq. split.
  - intros b Hin. rewrite Hadj in Hin. unfold get_connections in Hin.
    simpl in Hin. rewrite keys_unit_weights in Hin.
    destruct (Hkids b Hin) as (c & Hc & _). by eapply lookup_lt_Some.
  - intros q Hq. pose proof (lookup_lt_Some _ _ _ Ha).
    assert (q < a); [apply (O a n q); (done || lia)|lia].
Qed.

Lemma resolved_heap_closed : heap_closed (objs (_AST (resolved fp B depth root))).
Proof using Type*.
  destruct parse_shape as ((Lw & _ & Hb & _) & (G & L & Hext) & _ & _ & Hok).
  pose proof walked_heap_closed as Hcl. pose proof (store_ok_wf _ Hok) as Hwf.
  simpl in Lw. intros a n Ha.
  assert (a < length (visited root)) as Hlt.
  { rewrite <-Lw, <-L. by eapply lookup_lt_Some. }
  destruct (lookup_lt_is_Some_2 _ _ Hlt) as [node Hnode].
  destruct (Hb a node Hnode) as (n0 & text & Hn0 & _ & Hadj0 & _).
  simpl in Hn0.
  destruct (Hext a n0 Hn0) as (n' & Hn' & Hsame & Hadj). simplify_eq.
  destruct (Hcl a n0 Hn0) as [Hc Hp]. rewrite L. split.
  - destruct (Hadj (child_refs (S a) (ts_children node)))
      as (more & Hmore & Hreg).
    { by rewrite Hadj0 at 1. }
    intros b. unfold get_connections. rewrite Hmore, keys_unit_weights.
    intros [Hin|Hin]%elem_of_app.
    + apply Hc. rewrite Hadj0. unfold get_connections. simpl.
      by rewrite keys_unit_weights.
    + destruct (Hreg b Hin) as [x Hx]. by eapply Hwf.
  - intros q Hq. apply Hp. congruence.
Qed.
End whole_shape.

(** X22: when [parse] returns, the graph holds one object per visited node
    (the root and every named node reachable from it through named nodes)
    and the counter [num_vertices] is their number; the vertex table maps
    the id of each object to that object and has no other entry. *)
Theorem parse_vertex_table (fp : string) (B : list string)
    (depth : nat) (root : ts_node)
    (id : string) :
  Forall plain_kind (visited_below (ts_children root)) →
  (parse fp B depth root parser_init).1 = Ok id →
  length (objs (_AST (resolved fp B depth root))) = length (visited root) ∧
  num_vertices (graph (_AST (resolved fp B depth root))) = length (visited root) ∧
  ∀ k x, ids (resolved fp B depth root) !! k = Some x ↔
         vert_dict (graph (_AST (resolved fp B depth root))) !! x = Some k.
Proof.
  intros Hkinds Hparse.
  destruct (parse_shape fp B depth root id Hkinds Hparse)
    as ((L & _ & _ & _ & _ & Hix & _ & Hnv) & (G & Le & _) & Hgrows & _ & Hok).
  simpl in L, Hnv. split_and!; [congruence|by rewrite G|].
  pose proof (grows_indexed _ _ Hgrows Hix) as Hix'.
  pose proof (grows_store_ok _ _ Hgrows Hok) as Hok'.
  intros k x. split; [apply Hix'|apply Hok'].
Qed.

Lemma parse_vertex_table_witness :
  length (objs (_AST (resolved "a.py" ["print"; "len"] 1000 example_tree)))
    = length (visited example_tree) ∧
  num_vertices (graph (_AST (resolved "a.py" ["print"; "len"] 1000 example_tree)))
    = length (visited example_tree) ∧
  ∀ k x, ids (resolved "a.py" ["print"; "len"] 1000 example_tree) !! k = Some x ↔
         vert_dict (graph (_AST (resolved "a.py" ["print"; "len"] 1000 example_tree)))
           !! x = Some k.
Proof.
  apply (parse_vertex_table "a.py" ["print"; "len"] 1000 example_tree
           "module | a.py").
  - vm_compute. repeat constructor.
  - vm_compute. reflexivity.
Defined.

(** X23: when [parse] returns, the object of each visited node carries the
    id computed for it, the span and the kind of the node and the path of
    the file; its text is the captured text unless that is empty, and its
    variable name is the text of the node for an identifier and unset for
    any other node. *)
Theorem parse_node_attributes (fp : string) (B : list string)
    (depth : nat) (root : ts_node)
    (id : string) :
  Forall plain_kind (visited_below (ts_children root)) →
  (parse fp B depth root parser_init).1 = Ok id →
  ∀ k node, visited root !! k = Some node →
    ∃ n text,
      objs (_AST (resolved fp B depth root)) !! k = Some n ∧
      text_of node = Ok text ∧
      _id n = label fp (take k (visited root)) node ∧
      _start n = ts_start_point node ∧ _end n = ts_end_point node ∧
      _file n = fp ∧ _type n = Some (ts_type node) ∧
      _text n = (if truthy text then text else None) ∧
      _var_name n = (if decide (ts_type node = "identifier")
                     then Some (ts_text node) else None).
Proof.
  intros Hkinds Hparse k node Hk.
  destruct (parse_shape fp B depth root id Hkinds Hparse)
    as ((_ & _ & Hb & _) & (_ & _ & Hext) & _ & Hlab & _).
  destruct (Hb k node Hk) as (n0 & text & Hn0 & Htext & Hadj & _).
  simpl in Hn0. destruct (Hext k n0 Hn0) as (n & Hn & Hsame & _).
  assert (_id n0 = label fp (take k (visited root)) node) as Hid.
  { pose proof (labels_lookup fp _ _ _ Hk) as Hl. rewrite <-Hlab in Hl.
    unfold ids in Hl. rewrite list_lookup_fmap, Hn0 in Hl. by simplify_eq/=. }
  assert (set_adjacent [] n = fresh_object node (_id n0) text (_parent n0) fp)
    as Heq.
  { rewrite Hsame. by rewrite Hadj at 1. }
  exists n, text. split_and!; [done|done|..].
  - rewrite <-Hid. exact (f_equal _id Heq).
  - exact (f_equal _start Heq).
  - exact (f_equal _end Heq).
  - exact (f_equal _file Heq).
  - exact (f_equal _type Heq).
  - exact (f_equal _text Heq).
  - exact (f_equal _var_name Heq).
Qed.

Lemma parse_node_attributes_witness :
  ∃ n, objs (_AST (resolved "a.py" ["print"; "len"] 1000 example_tree)) !! 3
         = Some n ∧
       _id n = "identifier | os_0" ∧ _start n = (0, 0) ∧ _end n = (0, 0) ∧
       _file n = "a.py" ∧ _type n = Some "identifier" ∧
       _text n = Some "os" ∧ _var_name n = Some "os".
Proof.
  destruct (parse_node_attributes "a.py" ["print"; "len"] 1000 example_tree
              "module | a.py") with (k := 3) (node := named_leaf "identifier" "os")
    as (n & text & Hn & Htext & Hid & Hs & He & Hf & Hty & Htx & Hv).
  - vm_compute. repeat constructor.
  - vm_compute. reflexivity.
  - reflexivity.
  - exists n. injection Htext as <-. split_and!; done.
Defined.

(** X24: when [parse] returns, the object of each visited node has, after
    the walk, the objects of the named children of the node as neighbours,
    in the order of the children and with weight 1, and no other; the
    resolution appends its neighbours after them and changes no parent.
    The parent of the object of a child is the object of the node; the
    object of the root has no parent; every parent was allocated before its
    child. *)
Theorem parse_tree_links (fp : string) (B : list string)
    (depth : nat) (root : ts_node)
    (id : string) :
  Forall plain_kind (visited_below (ts_children root)) →
  (parse fp B depth root parser_init).1 = Ok id →
  ∀ k node, visited root !! k = Some node →
    ∃ n0 n more,
      objs (_AST (walked fp B depth root)) !! k = Some n0 ∧
      objs (_AST (resolved fp B depth root)) !! k = Some n ∧
      _adjacent n0 = unit_weights (child_refs (S k) (ts_children node)) ∧
      _adjacent n =
        unit_weights (child_refs (S k) (ts_children node) ++ more) ∧
      _parent n = _parent n0 ∧
      (k = 0 → _parent n = None) ∧
      (∀ q, _parent n = Some q → q < k) ∧
      ∀ r, r ∈ child_refs (S k) (ts_children node) →
           ∃ c, objs (_AST (resolved fp B depth root)) !! r = Some c ∧
                _parent c = Some k.
Proof.
  intros Hkinds Hparse k node Hk.
  destruct (parse_shape fp B depth root id Hkinds Hparse)
    as ((_ & _ & Hb & (nr & Hnr & Hpr & _) & O & _) & (_ & _ & Hext) & _).
  simpl in Hnr, O.
  destruct (Hb k node Hk) as (n0 & text & Hn0 & Htext & Hadj & Hkids).
  simpl in Hn0. destruct (Hext k n0 Hn0) as (n & Hn & Hsame & Hmore).
  destruct (Hmore (child_refs (S k) (ts_children node)))
    as (more & Hm & _); [by rewrite Hadj at 1|].
  assert (_parent n = _parent n0) as Hpar by exact (f_equal _parent Hsame).
  exists n0, n, more. split_and!; [done|done|by rewrite Hadj at 1|done..| | |].
  - intros ->. rewrite Hpar. congruence.
  - intros q. rewrite Hpar. apply (O k n0 q); [lia|done].
  - intros r Hr. destruct (Hkids r Hr) as (c & Hc & Hpc).
    destruct (Hext r c Hc) as (c' & Hc' & Hsame' & _).
    exists c'. split; [done|]. simpl in Hpc. rewrite <-Hpc.
    exact (f_equal _parent Hsame').
Qed.

Lemma parse_tree_links_witness :
  child_refs 1 (ts_children example_tree) = [1; 4; 14] ∧
  ∃ n0 n more,
    objs (_AST (walked "a.py" ["print"; "len"] 1000 example_tree)) !! 0 = Some n0 ∧
    objs (_AST (resolved "a.py" ["print"; "len"] 1000 example_tree)) !! 0 = Some n ∧
    _adjacent n0 = unit_weights (child_refs 1 (ts_children example_tree)) ∧
    _adjacent n =
      unit_weights (child_refs 1 (ts_children example_tree) ++ more) ∧
    _parent n = _parent n0 ∧
    (0 = 0 → _parent n = None) ∧
    (∀ q, _parent n = Some q → q < 0) ∧
    ∀ r, r ∈ child_refs 1 (ts_children example_tree) →
         ∃ c, objs (_AST (resolved "a.py" ["print"; "len"] 1000 example_tree)) !! r
                = Some c ∧
              _parent c = Some 0.
Proof.
  split; [reflexivity|].
  apply (parse_tree_links "a.py" ["print"; "len"] 1000 example_tree "module | a.py").
  - vm_compute. repeat constructor.
  - vm_compute. reflexivity.
  - reflexivity.
Defined.

(** X25: in the graph as the walk leaves it, [get_descendants] of the
    object of a visited node returns the objects of the nodes visited below
    it, each once, in the order of the visits, which is the order of their
    allocation; for the root these are all the other objects.  When the
    file has no call that is recorded, [parse] leaves that very graph. *)
Theorem walked_descendants_preorder (fp : string) (B : list string)
    (limit : nat)
    (root : ts_node) (id : string) :
  Forall plain_kind (visited_below (ts_children root)) →
  (parse fp B limit root parser_init).1 = Ok id →
  (∀ k node depth,
     visited root !! k = Some node → length (visited node) ≤ depth →
     get_descendants depth (objs (_AST (walked fp B limit root))) k =
       Ok (seq (S k) (length (visited node) - 1))) ∧
  (_function_calls (walked fp B limit root) = ∅ →
   resolved fp B limit root = walked fp B limit root).
Proof.
  intros Hkinds Hparse. split.
  - intros k node depth Hk Hdepth.
    eapply get_descendants_mono; [exact Hdepth|].
    apply (get_descendants_shaped fp). intros j node' Hj.
    apply (walked_built fp B limit root id Hkinds Hparse).
    by eapply visited_subtree.
  - intros Hempty. destruct (parse_returns fp B limit root id Hparse) as [_ ->].
    unfold _resolve_imports. unfold_M. by rewrite decide_True.
Qed.

Lemma walked_descendants_preorder_witness :
  get_descendants 18
    (objs (_AST (walked "a.py" ["print"; "len"] 1000 example_tree))) 0 =
    Ok (seq 1 (length (visited example_tree) - 1)) ∧
  length (visited example_tree) = 18.
Proof.
  split; [|reflexivity].
  destruct (walked_descendants_preorder "a.py" ["print"; "len"] 1000 example_tree
              "module | a.py") as [Hdesc _].
  - vm_compute. repeat constructor.
  - vm_compute. reflexivity.
  - apply (Hdesc 0 example_tree 18); [reflexivity|vm_compute; lia].
Defined.

Section whole_shape_more.
Context (fp : string) (B : list string) (depth : nat).
Context (root : ts_node) (id : string).
Hypothesis Hkinds : Forall plain_kind (visited_below (ts_children root)).
Hypothesis Hparse : (parse fp B depth root parser_init).1 = Ok id.

Lemma resolved_parents_older k n q :
  objs (_AST (resolved fp B depth root)) !! k = Some n → _parent n = Some q → q < k.
Proof using Type*.
  destruct (parse_shape fp B depth root id Hkinds Hparse)
    as ((_ & _ & _ & _ & O & _) & (_ & L & Hext) & _).
  simpl in O. intros Hn Hq.
  assert (is_Some (objs (_AST (walked fp B depth root)) !! k)) as [n0 Hn0].
  { apply lookup_lt_is_Some. rewrite <-L. by eapply lookup_lt_Some. }
  destruct (Hext k n0 Hn0) as (n' & Hn' & Hsame & _).
  apply (O k n0 q); [lia|done|].
  rewrite <-Hq. rewrite Hn in Hn'. injection Hn' as <-.
  symmetry. exact (f_equal _parent Hsame).
Qed.

Lemma resolved_edge_mono a b :
  edge (objs (_AST (walked fp B depth root))) a b →
  edge (objs (_AST (resolved fp B depth root))) a b.
Proof using Type*.
  destruct (parse_shape fp B depth root id Hkinds Hparse)
    as ((L & _ & Hb & _) & (_ & _ & Hext) & _).
  simpl in L. intros (n0 & Hn0 & Hin).
  assert (a < length (visited root)) as Hlt.
  { rewrite <-L. by eapply lookup_lt_Some. }
  destruct (lookup_lt_is_Some_2 _ _ Hlt) as [node Hnode].
  destruct (Hb a node Hnode) as (n0' & text & Hn0' & _ & Hadj & _).
  simpl in Hn0'. rewrite Hn0 in Hn0'. injection Hn0' as <-.
  destruct (Hext a n0 Hn0) as (n & Hn & _ & Hmore).
  destruct (Hmore (child_refs (S a) (ts_children node)))
    as (more & Hm & _); [by rewrite Hadj at 1|].
  exists n. split; [done|]. unfold get_connections in *.
  rewrite Hm, keys_unit_weights. apply elem_of_app. left.
  rewrite Hadj in Hin. simpl in Hin. by rewrite keys_unit_weights in Hin.
Qed.

Lemma root_reaches k :
  k < length (visited root) →
  rtc (edge (objs (_AST (resolved fp B depth root)))) 0 k.
Proof using Type*.
  intros Hk. destruct k as [|k]; [done|].
  eapply (rtc_subrel (edge (objs (_AST (walked fp B depth root))))).
  { intros a b. apply resolved_edge_mono. }
  apply tc_rtc.
  eapply (get_descendants_reach (length (visited root))).
  - apply (get_descendants_shaped fp _ root 0). intros j node' Hj.
    by apply (walked_built fp B depth root id).
  - apply elem_of_seq. lia.
Qed.
End whole_shape_more.

(** X26: once [parse] has linked a call site with the definition of the
    name it calls, the two edges form a cycle that the root reaches, and
    [get_descendants] of the root never returns a list: it ends in a
    [RecursionError], whatever depth the interpreter allows. *)
Theorem resolved_descendants_overflow (fp : string) (B : list string)
    (limit : nat)
    (root : ts_node) (id g c d : string) :
  Forall plain_kind (visited_below (ts_children root)) →
  (parse fp B limit root parser_init).1 = Ok id →
  _function_calls (resolved fp B limit root) !! fp ≫= PyDict.get g = Some c →
  _function_definitions (resolved fp B limit root) !! fp ≫= (.!! g) = Some d →
  ∀ depth,
    get_descendants depth (objs (_AST (resolved fp B limit root))) 0 =
      Raise RecursionError.
Proof.
  intros Hkinds Hparse Hc Hd depth.
  destruct (parse_shape fp B limit root id Hkinds Hparse)
    as ((L & _) & (_ & Le & _) & (_ & Hgc & _ & Hgd & _) & _ & Hok).
  simpl in L. rewrite Hgc in Hc. rewrite Hgd in Hd.
  destruct (_function_calls (walked fp B limit root) !! fp) as [fc|] eqn:Hfc;
    [|done].
  destruct (_function_definitions (walked fp B limit root) !! fp) as [fd|] eqn:Hfd;
    [|done].
  simpl in Hc, Hd.
  destruct (parse_observed fp B limit root id Hparse)
    as (_ & Hsound & Hkeyed & Hres & _).
  destruct (resolve_installs fp B _ Hsound Hkeyed) as [_ Hinst].
  rewrite <-Hres in Hinst.
  destruct (Hinst c d) as (rc & rd & nc & Hrc & Hrd & Hnc & Hcd).
  { left. by exists fc, fd, g. }
  destruct (Hinst d c) as (rd' & rc' & nd & Hrd' & Hrc' & Hnd & Hdc).
  { right. left. by exists fc, fd, g. }
  rewrite Hrd in Hrd'. rewrite Hrc in Hrc'. simplify_eq.
  apply get_descendants_cycle.
  - by eapply resolved_heap_closed.
  - rewrite Le, L. apply length_visited_pos.
  - exists rc'. split.
    + eapply root_reaches; [done..|].
      rewrite <-L, <-Le. by eapply lookup_lt_Some.
    + eapply tc_l; [by exists nc|]. apply tc_once. by exists nd.
Qed.

Lemma resolved_descendants_overflow_witness :
  _function_calls (resolved "a.py" ["print"; "len"] 1000 example_tree) !! "a.py"
    ≫= PyDict.get "f" = Some "call_1" ∧
  _function_definitions (resolved "a.py" ["print"; "len"] 1000 example_tree)
    !! "a.py" ≫= (.!! "f") = Some "function_definition_0" ∧
  ∀ depth,
    get_descendants depth
      (objs (_AST (resolved "a.py" ["print"; "len"] 1000 example_tree))) 0 =
      Raise RecursionError.
Proof.
  split; [vm_compute; reflexivity|]. split; [vm_compute; reflexivity|].
  apply (resolved_descendants_overflow "a.py" ["print"; "len"] 1000 example_tree
           "module | a.py" "f" "call_1" "function_definition_0").
  - vm_compute. repeat constructor.
  - vm_compute. reflexivity.
  - vm_compute. reflexivity.
  - vm_compute. reflexivity.
Defined.

(** X27: on the graph that [parse] leaves, [get_highest_attribute] returns
    for every registered id: every parent was allocated before its child,
    so the climb along the parents ends. *)
Theorem parsed_attribute_climb_returns (fp : string) (B : list string)
    (depth : nat)
    (root : ts_node) (id : string) :
  Forall plain_kind (visited_below (ts_children root)) →
  (parse fp B depth root parser_init).1 = Ok id →
  ∀ x, registered (_AST (resolved fp B depth root)) x →
    ∃ result,
      get_highest_attribute x (_AST (resolved fp B depth root)) =
        (Ok result, _AST (resolved fp B depth root)).
Proof.
  intros Hkinds Hparse x [r Hr].
  pose proof (resolved_heap_closed fp B depth root id Hkinds Hparse) as Hcl.
  destruct (parse_shape fp B depth root id Hkinds Hparse)
    as (_ & _ & Hgrows & _ & Hok).
  pose proof (store_ok_wf _ (grows_store_ok _ _ Hgrows Hok)) as Hwf.
  pose proof (Hwf x r Hr) as Hlt.
  destruct (lookup_lt_is_Some_2 _ _ Hlt) as [n Hn].
  unfold get_highest_attribute. unfold_M. rewrite Hr. simpl. rewrite Hn.
  simpl. destruct (_parent n) as [q|]; [|by eexists].
  destruct (climb_parents_older _ r Hcl Hlt) as [r' Hr'].
  { intros k n' q'. apply (resolved_parents_older fp B depth root id Hkinds Hparse). }
  rewrite Hr'. by eexists.
Qed.

Lemma parsed_attribute_climb_returns_witness :
  ∃ result,
    get_highest_attribute "identifier | os_1"
      (_AST (resolved "a.py" ["print"; "len"] 1000 example_tree)) =
      (Ok result, _AST (resolved "a.py" ["print"; "len"] 1000 example_tree)).
Proof.
  apply (parsed_attribute_climb_returns "a.py" ["print"; "len"] 1000 example_tree
           "module | a.py").
  - vm_compute. repeat constructor.
  - vm_compute. reflexivity.
  - vm_compute. eexists. reflexivity.
Defined.

(** ** Reading a node id back *)

Lemma prefix_str_in sub s (c : ascii) :
  String.prefix sub s = true → str_in c sub = true → str_in c s = true.
Proof.
  revert s. induction sub as [|b sub IH]; intros [|a s]; simpl; try done.
  destruct (Ascii.ascii_dec b a) as [->|]; [|done].
  destruct (decide (a = c)); [done|]. apply IH.
Qed.

Lemma str_find_no_char sub (c : ascii) s :
  str_in c sub = true → str_in c s = false → str_find sub s = None.
Proof.
  intros Hsub. induction s as [|a s IH]; intros Hs; cbn [str_find].
  - destruct (String.prefix sub "") eqn:Hpre; [|done].
    by rewrite (prefix_str_in _ _ c Hpre Hsub) in Hs.
  - destruct (String.prefix sub (String a s)) eqn:Hpre.
    { by rewrite (prefix_str_in _ _ c Hpre Hsub) in Hs. }
    simpl in Hs. destruct (decide (a = c)); [done|]. by rewrite IH.
Qed.

Lemma str_take_append s t : str_take (String.length s) (s +:+ t) = s.
Proof. induction s as [|a s IH]; norm_append; simpl; [done|]. by rewrite IH. Qed.

Lemma str_drop_append s t : str_drop (String.length s) (s +:+ t) = t.
Proof. induction s as [|a s IH]; norm_append; simpl; done. Qed.

Lemma str_drop_add n m s : str_drop (n + m) s = str_drop m (str_drop n s).
Proof.
  revert s. induction n as [|n IH]; intros s; simpl; [done|].
  destruct s; [by destruct m|]. apply IH.
Qed.

Lemma prefix_cons a s b t :
  String.prefix (String a s) (String b t) =
    if Ascii.ascii_dec a b then String.prefix s t else false.
Proof. done. Qed.

Lemma prefix_nil s : String.prefix "" s = true.
Proof. by destruct s. Qed.

Lemma str_find_separator ty rest :
  str_in "|" ty = false →
  str_find " | " (ty +:+ " | " +:+ rest) = Some (String.length ty).
Proof.
  induction ty as [|a ty IH]; intros Hty.
  - rewrite append_nil_l. change (" | " +:+ rest) with (String " " (String "|" (String " " rest))).
    cbn [str_find]. rewrite !prefix_cons, prefix_nil.
    by repeat (destruct (Ascii.ascii_dec _ _); [|done]).
  - simpl in Hty. destruct (decide (a = "|"%char)) as [|Ha]; [done|].
    rewrite append_cons. cbn [str_find]. rewrite IH by done.
    replace (String.prefix " | " (String a (ty +:+ " | " +:+ rest)))
      with false; [done|].
    symmetry. rewrite prefix_cons.
    destruct (Ascii.ascii_dec " " a) as [<-|]; [|done].
    destruct ty as [|b ty].
    + rewrite append_nil_l.
      change (" | " +:+ rest) with (String " " (String "|" (String " " rest))).
      rewrite prefix_cons. by destruct (Ascii.ascii_dec "|" " ").
    + rewrite append_cons, prefix_cons.
      destruct (Ascii.ascii_dec "|" b) as [<-|]; [|done].
      simpl in Hty. done.
Qed.

Lemma split_separator ty rest :
  str_in "|" ty = false → str_in "|" rest = false →
  split " | " (ty +:+ " | " +:+ rest) !! 0 = Some ty ∧
  split " | " (ty +:+ " | " +:+ rest) !! 1 = Some rest.
Proof.
  intros Hty Hrest. unfold split. cbn [split_fuel].
  rewrite str_find_separator by done.
  rewrite str_take_append, str_drop_add, str_drop_append.
  rewrite (str_drop_append " | " rest).
  split; [done|].
  destruct (String.length (ty +:+ " | " +:+ rest)) as [|f] eqn:Hlen.
  { by destruct ty. }
  cbn [split_fuel]. by rewrite (str_find_no_char " | " "|" rest).
Qed.

Lemma rfind_last c s d :
  str_in c d = false →
  rfind c (s +:+ String c d) = Some (String.length s).
Proof.
  intros Hd. induction s as [|a s IH]; norm_append; cbn [rfind].
  - destruct (rfind c d) eqn:Hr.
    + assert (str_in c d = true) by (apply str_in_rfind; by eexists).
      congruence.
    + by rewrite decide_True.
  - by rewrite IH.
Qed.

Lemma slice_to_rfind_last c s d :
  str_in c d = false → slice_to_rfind c (s +:+ String c d) = s.
Proof.
  intros Hd. unfold slice_to_rfind. rewrite rfind_last by done.
  apply str_take_append.
Qed.

Lemma pretty_N_char_digit x : is_digit (pretty_N_char x) = true.
Proof. unfold pretty_N_char. by repeat case_match. Qed.

Lemma all_digits_app s t : all_digits (s +:+ t) = all_digits s && all_digits t.
Proof.
  induction s as [|a s IH]; norm_append; simpl; [done|].
  by rewrite IH, andb_assoc.
Qed.

Lemma pretty_N_go_digits x s :
  all_digits s = true → all_digits (pretty_N_go x s) = true.
Proof.
  revert s. induction (N.lt_wf_0 x) as [x _ IH]; intros s Hs.
  assert (x = 0 ∨ 0 < x)%N as [->|Hpos] by lia.
  - by rewrite pretty_N_go_0.
  - rewrite pretty_N_go_step by done. apply IH.
    + by apply N.div_lt.
    + simpl. by rewrite pretty_N_char_digit.
Qed.

Lemma pretty_N_go_nonempty x s : (0 < x)%N → pretty_N_go x s ≠ "".
Proof.
  revert s. induction (N.lt_wf_0 x) as [x _ IH]; intros s Hx.
  rewrite pretty_N_go_step by done.
  destruct (decide (x `div` 10 = 0)%N) as [->|Hnz].
  - by rewrite pretty_N_go_0.
  - apply IH; [apply N.div_lt; lia|by apply N.neq_0_lt_0].
Qed.

Lemma pretty_nat_digits (c : nat) :
  all_digits (pretty c) = true ∧ pretty c ≠ "".
Proof.
  unfold pretty, pretty_nat, pretty, pretty_N.
  case_decide; [done|]. split.
  - by apply pretty_N_go_digits.
  - apply pretty_N_go_nonempty. lia.
Qed.

Lemma all_digits_then_end d : all_digits d = true → digits_then_end d = true.
Proof.
  induction d as [|a d IH]; simpl; [done|].
  intros [-> ?]%andb_true_iff. auto.
Qed.

Lemma is_digit_not_underscore a : is_digit a = true → a ≠ "_"%char.
Proof. by intros Ha ->. Qed.

Lemma all_digits_no_char c d :
  is_digit c = false → all_digits d = true → str_in c d = false.
Proof.
  intros Hc. induction d as [|a d IH]; simpl; [done|].
  intros [Ha ?]%andb_true_iff.
  destruct (decide (a = c)) as [->|]; [congruence|auto].
Qed.

Lemma str_length_append s t :
  String.length (s +:+ t) = String.length s + String.length t.
Proof. induction s as [|a s IH]; norm_append; simpl; [done|]. by rewrite IH. Qed.

Lemma all_digits_drop k d : all_digits d = true → all_digits (str_drop k d) = true.
Proof.
  revert d. induction k as [|k IH]; intros [|a d]; simpl; try done.
  intros [_ ?]%andb_true_iff. auto.
Qed.

Lemma all_digits_not_counter t : all_digits t = true → counter_suffix t = false.
Proof.
  destruct t as [|a [|b t]]; simpl; try done.
  intros [Ha _]%andb_true_iff.
  rewrite bool_decide_eq_false_2; [done|]. by apply is_digit_not_underscore.
Qed.

Lemma re_match_counter_from_unfold n s :
  re_match_counter_from n s =
    if negb (str_in newline (str_take n s)) && counter_suffix (str_drop n s)
    then Some (str_take n s)
    else match n with
         | 0 => None
         | S n' => re_match_counter_from n' s
         end.
Proof. by destruct n. Qed.

Lemma re_match_counter_from_suffixed text d k :
  str_in newline text = false → all_digits d = true → d ≠ "" →
  re_match_counter_from (String.length text + k) (text +:+ String "_" d)
    = Some text.
Proof.
  intros Hnl Hd Hne. induction k as [|k IH].
  - rewrite Nat.add_0_r, re_match_counter_from_unfold.
    rewrite str_take_append, str_drop_append, Hnl.
    destruct d as [|b d]; [done|].
    simpl in Hd. apply andb_true_iff in Hd as [Hb Hd].
    simpl. by rewrite Hb, all_digits_then_end.
  - rewrite Nat.add_succ_r, re_match_counter_from_unfold.
    replace (S (String.length text + k)) with (String.length text + S k) by lia.
    rewrite str_drop_add, str_drop_append. simpl str_drop.
    rewrite all_digits_not_counter by (by apply all_digits_drop).
    rewrite andb_false_r. replace (String.length text + S k)
      with (S (String.length text + k)) by lia. done.
Qed.

Lemma re_match_counter_suffixed text d :
  str_in newline text = false → all_digits d = true → d ≠ "" →
  re_match_counter (text +:+ String "_" d) = Some text.
Proof.
  intros. unfold re_match_counter. rewrite str_length_append.
  by apply re_match_counter_from_suffixed.
Qed.

Lemma split_head ty rest :
  str_in "|" ty = false →
  split " | " (ty +:+ " | " +:+ rest) !! 0 = Some ty.
Proof.
  intros Hty. unfold split. cbn [split_fuel].
  rewrite str_find_separator by done. by rewrite str_take_append.
Qed.

Lemma digits_no_bar (c : nat) : str_in "|" (String "_" (pretty c)) = false.
Proof.
  cbn [str_in]. destruct (decide ("_"%char = "|"%char)); [done|].
  apply all_digits_no_char; [done|apply pretty_nat_digits].
Qed.

Lemma get_node_type_label fp before node :
  str_in "|" (ts_type node) = false →
  get_node_type (label fp before node) = Ok (ts_type node).
Proof.
  intros Hty. unfold label, get_node_type.
  destruct (decide (ts_type node = "module")) as [Hm|Hm].
  - change ("module | " +:+ fp) with ("module" +:+ " | " +:+ fp).
    rewrite str_find_separator, split_head by done. by rewrite Hm.
  - unfold name_of, display_name.
    destruct (text_of node) as [text|e]; [destruct (truthy text)|].
    + rewrite !append_assoc.
      rewrite str_find_separator, split_head by done. done.
    + rewrite (str_find_no_char " | " "|"); [|done|].
      * change ("_" +:+ pretty (count_before before (ts_type node)))
          with (String "_" (pretty (count_before before (ts_type node)))).
        rewrite slice_to_rfind_last; [done|apply pretty_nat_no_underscore].
      * rewrite str_in_app, Hty. apply digits_no_bar.
    + rewrite (str_find_no_char " | " "|"); [|done|].
      * change ("_" +:+ pretty (count_before before (ts_type node)))
          with (String "_" (pretty (count_before before (ts_type node)))).
        rewrite slice_to_rfind_last; [done|apply pretty_nat_no_underscore].
      * rewrite str_in_app, Hty. apply digits_no_bar.
Qed.

Lemma get_node_text_label fp before node text :
  ts_type node ≠ "module" →
  str_in "|" (ts_type node) = false →
  text_of node = Ok text →
  str_in "|" (default "" text) = false →
  str_in newline (default "" text) = false →
  get_node_text (label fp before node) = Ok (default "" text).
Proof.
  intros Hm Hty Htext Hbar Hnl. unfold label, get_node_text.
  rewrite decide_False by done. unfold name_of, display_name. rewrite Htext.
  destruct (truthy text) eqn:Htruthy.
  - rewrite !append_assoc. rewrite str_find_separator by done.
    change ("_" +:+ pretty (count_before before
              (ts_type node +:+ " | " +:+ default "" text)))
      with (String "_" (pretty (count_before before
              (ts_type node +:+ " | " +:+ default "" text)))).
    destruct (split_separator (ts_type node)
                (default "" text +:+ String "_" (pretty (count_before before
                   (ts_type node +:+ " | " +:+ default "" text)))))
      as [_ ->]; [done| |].
    { rewrite str_in_app, Hbar. apply digits_no_bar. }
    rewrite re_match_counter_suffixed; [done|done|apply pretty_nat_digits..].
  - rewrite (str_find_no_char " | " "|"); [|done|].
    + by destruct text as [[|]|].
    + rewrite str_in_app, Hty. apply digits_no_bar.
Qed.

Lemma resolved_ids_labels fp B depth root id k node x :
  (parse fp B depth root parser_init).1 = Ok id →
  visited root !! k = Some node →
  ids (resolved fp B depth root) !! k = Some x →
  x = label fp (take k (visited root)) node.
Proof.
  intros Hparse Hk Hx.
  destruct (parse_observed fp B depth root id Hparse)
    as (([Hlab _] & _) & _ & _ & _ & Hids).
  rewrite Hids, Hlab, (labels_lookup _ _ _ _ Hk) in Hx. congruence.
Qed.

(** X28: [get_node_type] reads the kind of a node back from its id: when
    [parse] returns, it maps the id of the object of each visited node to
    the kind of that node, the root included, provided the kind holds no
    vertical bar. *)
Theorem node_type_read_back (fp : string) (B : list string)
    (depth : nat) (root : ts_node)
    (id : string) :
  (parse fp B depth root parser_init).1 = Ok id →
  ∀ k node x,
    visited root !! k = Some node →
    ids (resolved fp B depth root) !! k = Some x →
    str_in "|" (ts_type node) = false →
    get_node_type x = Ok (ts_type node).
Proof.
  intros Hparse k node x Hk Hx Hty.
  rewrite (resolved_ids_labels _ _ _ _ _ _ _ _ Hparse Hk Hx).
  by apply get_node_type_label.
Qed.

Lemma node_type_read_back_witness :
  ids (resolved "a.py" ["print"; "len"] 1000 example_tree) !! 10
    = Some "attribute | os.getcwd_0" ∧
  get_node_type "attribute | os.getcwd_0" = Ok "attribute" ∧
  ids (resolved "a.py" ["print"; "len"] 1000 example_tree) !! 16
    = Some "identifier | f_1" ∧
  get_node_type "identifier | f_1" = Ok "identifier".
Proof.
  assert ((parse "a.py" ["print"; "len"] 1000 example_tree parser_init).1
            = Ok "module | a.py") as Hparse by (vm_compute; reflexivity).
  assert (ids (resolved "a.py" ["print"; "len"] 1000 example_tree) !! 10
            = Some "attribute | os.getcwd_0") as H10 by (vm_compute; reflexivity).
  assert (ids (resolved "a.py" ["print"; "len"] 1000 example_tree) !! 16
            = Some "identifier | f_1") as H16 by (vm_compute; reflexivity).
  split; [exact H10|]. split.
  { apply (node_type_read_back "a.py" ["print"; "len"] 1000 example_tree
             "module | a.py" Hparse 10
             (named_node "attribute" "os.getcwd"
                [named_leaf "identifier" "os"; token ".";
                 named_leaf "identifier" "getcwd"]));
      [reflexivity|exact H10|reflexivity]. }
  split; [exact H16|].
  apply (node_type_read_back "a.py" ["print"; "len"] 1000 example_tree
           "module | a.py" Hparse 16 (named_leaf "identifier" "f"));
    [reflexivity|exact H16|reflexivity].
Defined.

(** X29: [get_node_text] reads the text of a node back from its id: when
    [parse] returns, it maps the id of the object of each visited node
    other than the root to the text captured for the node, and to the empty
    string when none was, provided the kind and the text hold no vertical
    bar and the text no newline. *)
Theorem node_text_read_back (fp : string) (B : list string)
    (depth : nat) (root : ts_node)
    (id : string) :
  (parse fp B depth root parser_init).1 = Ok id →
  ∀ k node x text,
    visited root !! k = Some node →
    ids (resolved fp B depth root) !! k = Some x →
    ts_type node ≠ "module" →
    text_of node = Ok text →
    str_in "|" (ts_type node) = false →
    str_in "|" (default "" text) = false →
    str_in newline (default "" text) = false →
    get_node_text x = Ok (default "" text).
Proof.
  intros Hparse k node x text Hk Hx Hm Htext Hty Hbar Hnl.
  rewrite (resolved_ids_labels _ _ _ _ _ _ _ _ Hparse Hk Hx).
  by apply get_node_text_label.
Qed.

Lemma node_text_read_back_witness :
  ids (resolved "a.py" ["print"; "len"] 1000 example_tree) !! 10
    = Some "attribute | os.getcwd_0" ∧
  get_node_text "attribute | os.getcwd_0" = Ok "os.getcwd" ∧
  ids (resolved "a.py" ["print"; "len"] 1000 example_tree) !! 13
    = Some "argument_list_0" ∧
  get_node_text "argument_list_0" = Ok "".
Proof.
  assert ((parse "a.py" ["print"; "len"] 1000 example_tree parser_init).1
            = Ok "module | a.py") as Hparse by (vm_compute; reflexivity).
  assert (ids (resolved "a.py" ["print"; "len"] 1000 example_tree) !! 10
            = Some "attribute | os.getcwd_0") as H10 by (vm_compute; reflexivity).
  assert (ids (resolved "a.py" ["print"; "len"] 1000 example_tree) !! 13
            = Some "argument_list_0") as H13 by (vm_compute; reflexivity).
  split; [exact H10|]. split.
  { apply (node_text_read_back "a.py" ["print"; "len"] 1000 example_tree
             "module | a.py" Hparse 10
             (named_node "attribute" "os.getcwd"
                [named_leaf "identifier" "os"; token ".";
                 named_leaf "identifier" "getcwd"])
             _ (Some "os.getcwd"));
      [reflexivity|exact H10|done|reflexivity..]. }
  split; [exact H13|].
  apply (node_text_read_back "a.py" ["print"; "len"] 1000 example_tree
           "module | a.py" Hparse 13
           (named_node "argument_list" "()" [token "("; token ")"])
           _ None);
    [reflexivity|exact H13|done|reflexivity..].
Defined.

(** ** When the walk returns *)

Lemma returns_seq {S} (m1 m2 : M (S := S) unit) (c1 c2 : bool) :
  (∀ s, (∃ s', m1 s = (Ok tt, s')) ↔ c1 = true) →
  (∀ s, (∃ s', m2 s = (Ok tt, s')) ↔ c2 = true) →
  ∀ s, (∃ s', (m1;; m2) s = (Ok tt, s')) ↔ c1 && c2 = true.
Proof.
  intros H1 H2 s. rewrite andb_true_iff. split.
  - intros [s' Hrun]. apply bind_inv_Ok in Hrun as ([] & s1 & Hr1 & Hr2).
    split; [apply (H1 s)|apply (H2 s1)]; eauto.
  - intros [Hc1 Hc2]. apply (H1 s) in Hc1 as [s1 Hr1].
    apply (H2 s1) in Hc2 as [s2 Hr2]. exists s2.
    by rewrite (bind_Ok _ _ _ _ _ Hr1).
Qed.

Section returns.
Context (fp : string) (B : list string).

Lemma definition_part_returns node name p :
  (∃ p', (if decide (ts_type node = "function_definition"
                     ∨ ts_type node = "class_definition") then
            _handle_definition fp node name
          else ret tt) p = (Ok tt, p')) ↔
  (if decide (ts_type node = "function_definition"
              ∨ ts_type node = "class_definition")
   then has_child 1 node else true) = true.
Proof.
  case_decide; [|by split; eauto].
  unfold has_child, _handle_definition, child. unfold_M.
  destruct (ts_children node !! 1) as [c|]; simpl.
  - split; [done|by eexists].
  - split; [by intros [? ?]|done].
Qed.

Lemma import_part_returns node up idx name p :
  (∃ p', (if decide (ts_type node = "aliased_import") then
            _handle_import fp node up idx name
          else if decide (ts_type node = "dotted_name") then
            let* q := parent_of up in
            if String.prefix "import" (ts_type q)
            then _handle_import fp node up idx name
            else ret tt
          else ret tt) p = (Ok tt, p')) ↔
  import_ok node up = true.
Proof.
  unfold import_ok, _handle_import, has_child, child, parent_of. unfold_M.
  repeat (case_decide || case_match); simplify_eq/=;
    rewrite ?andb_true_iff, ?bool_decide_eq_true;
    split; try (by intros [? ?]); try done; eauto;
    try (intros; split_and?; eauto; done);
    try (by intros ([? ?] & ?)); try (by intros (? & [? ?]));
    try (by intros (? & [? ?] & ?)); try (by intros (? & ? & [? ?])).
  all: repeat match goal with
       | H : bool_decide _ = true |- _ => apply bool_decide_eq_true in H
       | H : bool_decide _ = false |- _ => apply bool_decide_eq_false in H
       end.
  all: try (intros (? & ? & ?)); try (intros _).
  all: repeat match goal with
       | H : ?l !! ?i = None, H' : is_Some (?l !! ?i) |- _ =>
           rewrite H in H'; by destruct H'
       | H : ?l !! ?i = Some _ |- is_Some (?l !! ?i) => by rewrite H
       end.
  all: try done; congruence.
Qed.

(** The handlers of the imports and of the definitions, which follow that
    of the calls. *)
Lemma later_handlers_return node up idx name p :
  (∃ p', ((if decide (ts_type node = "aliased_import") then
             _handle_import fp node up idx name
           else if decide (ts_type node = "dotted_name") then
             let* q := parent_of up in
             if String.prefix "import" (ts_type q)
             then _handle_import fp node up idx name
             else ret tt
           else ret tt);;
          (if decide (ts_type node = "function_definition"
                      ∨ ts_type node = "class_definition") then
             _handle_definition fp node name
           else ret tt)) p = (Ok tt, p')) ↔
  import_ok node up &&
  (if decide (ts_type node = "function_definition"
              ∨ ts_type node = "class_definition")
   then has_child 1 node else true) = true.
Proof.
  revert p. apply returns_seq; intros s.
  - apply import_part_returns.
  - apply definition_part_returns.
Qed.

Lemma dispatch_returned depth node up idx name p p' :
  dispatch_handlers fp B depth node up idx name p = (Ok tt, p') →
  (if decide (ts_type node = "call") then has_child 0 node else true) &&
  (import_ok node up &&
   (if decide (ts_type node = "function_definition"
               ∨ ts_type node = "class_definition")
    then has_child 1 node else true)) = true.
Proof.
  unfold dispatch_handlers. intros Hrun.
  apply bind_inv_Ok in Hrun as ([] & p1 & Hcall & Hrest).
  apply andb_true_iff. split.
  - destruct (decide (ts_type node = "call")); [|done].
    unfold has_child. apply bool_decide_eq_true.
    unfold child in Hcall. unfold bind at 1 in Hcall.
    by destruct (ts_children node !! 0).
  - apply (later_handlers_return node up idx name p1). eauto.
Qed.

(** On a node that has what the handlers index, they return, unless the
    recursion of [_call_to_import] runs out of frames. *)
Lemma dispatch_outcome depth node up idx name p :
  (if decide (ts_type node = "call") then has_child 0 node else true) &&
  (import_ok node up &&
   (if decide (ts_type node = "function_definition"
               ∨ ts_type node = "class_definition")
    then has_child 1 node else true)) = true →
  (∃ p', dispatch_handlers fp B depth node up idx name p = (Ok tt, p')) ∨
  (∃ g p', handled_callee B node = Some g ∧ depth ≤ String.length g ∧
           dispatch_handlers fp B depth node up idx name p
             = (Raise RecursionError, p')).
Proof.
  intros [Hc Hrest]%andb_true_iff.
  assert ((∃ p1, (if decide (ts_type node = "call") then
                    let* callee := child 0 node in
                    if decide (ts_text callee ∈ B) then ret tt
                    else _handle_call fp depth node name
                  else ret tt) p = (Ok tt, p1)) ∨
          (∃ g p1, handled_callee B node = Some g ∧ depth ≤ String.length g ∧
                   (if decide (ts_type node = "call") then
                      let* callee := child 0 node in
                      if decide (ts_text callee ∈ B) then ret tt
                      else _handle_call fp depth node name
                    else ret tt) p = (Raise RecursionError, p1)))
    as [[p1 Hcall]|(g & p1 & Hg & Hlen & Hcall)].
  { unfold handled_callee.
    destruct (decide (ts_type node = "call")); [|left; by eexists].
    unfold has_child in Hc. apply bool_decide_eq_true in Hc as [callee Hc].
    unfold child. rewrite !Hc. unfold bind. simpl.
    destruct (decide (ts_text callee ∈ B)); [left; by eexists|].
    pose proof (handle_call_spec fp depth node name p) as Hsp.
    rewrite Hc in Hsp.
    destruct Hsp as (r & p1 & Hrun & [->| ->] & Hlen & _);
      [left; by eexists|].
    right. exists (ts_text callee), p1. split_and!; [done| |done].
    destruct (decide (String.length (ts_text callee) < depth)) as [Hlt|];
      [|lia].
    by specialize (Hlen Hlt). }
  - destruct (proj2 (later_handlers_return node up idx name p1) Hrest)
      as [p' Hlater].
    left. exists p'. unfold dispatch_handlers.
    by rewrite (bind_Ok _ _ _ _ _ Hcall).
  - right. exists g, p1. split_and!; [done..|]. unfold dispatch_handlers.
    by rewrite (bind_Raise _ _ _ _ _ Hcall).
Qed.

Lemma text_of_returns node :
  (∃ text, text_of node = Ok text) ↔
  (if decide (ts_type node = "binary_operator") then has_child 1 node
   else true) = true.
Proof.
  unfold text_of, has_child. case_decide.
  - rewrite bool_decide_eq_true.
    destruct (ts_children node !! 1); split; eauto.
    + by intros [? ?].
    + by intros [? ?].
  - repeat case_match; split; eauto.
Qed.

Lemma last_ok_keeps p p' last : last_ok p last → keeps p p' → last_ok p' last.
Proof.
  intros Hl [Hreg Hobj] l Hlast. destruct (Hl l Hlast) as (n & Hn & Hr).
  destruct (Hobj l n Hn) as (n' & Hn' & Hid). exists n'.
  split; [done|]. rewrite Hid. by apply Hreg.
Qed.

Lemma keeps_refl p : keeps p p.
Proof. split; eauto. Qed.

Lemma keeps_trans p1 p2 p3 : keeps p1 p2 → keeps p2 p3 → keeps p1 p3.
Proof.
  intros [R1 O1] [R2 O2]. split; [eauto|]. intros k n Hn.
  destruct (O1 k n Hn) as (n' & Hn' & Hid).
  destruct (O2 k n' Hn') as (n'' & Hn'' & Hid'). exists n''.
  split; [done|congruence].
Qed.

Lemma grows_keeps p p' : grows p p' → keeps p p'.
Proof.
  intros (_ & _ & _ & _ & _ & Hg & Hids & _). split.
  - intros x. unfold registered. by rewrite Hg.
  - intros k n Hn.
    pose proof (f_equal (λ l, l !! k) Hids) as Hk. simpl in Hk.
    rewrite !list_lookup_fmap, Hn in Hk. simpl in Hk.
    destruct (objs (_AST p') !! k) as [n'|]; simplify_eq/=. eauto.
Qed.

Lemma on_AST_add_vertex_Ok r p n :
  objs (_AST p) !! r = Some n → last_ok p (_parent n) →
  ∃ p', on_AST (add_vertex r) p = (Ok (_id n), p').
Proof.
  intros Hn Hl. rewrite on_AST_eq. eexists. f_equal.
  unfold add_vertex. unfold_M. rewrite Hn. simpl.
  destruct (_parent n) as [l|]; simpl; [|done].
  destruct (Hl l eq_refl) as (pn & -> & Hreg). simpl.
  by rewrite decide_True.
Qed.

Lemma insert_node_returns node last fn p text :
  text_of node = Ok text → last_ok p last →
  ∃ r p', insert_node fp node last fn p = (Ok r, p').
Proof.
  intros Htext Hl. unfold insert_node. unfold bind at 1.
  rewrite capture_text_eq, Htext.
  unfold bind at 1. rewrite assign_id_eq.
  set (id0 := node_id fp node (display_name node text) (_counts p)) in *.
  set (p0 := if decide (ts_type node = "module") then p else _) in *.
  assert (_AST p0 = _AST p) as HA.
  { unfold p0. by destruct (decide (ts_type node = "module")). }
  clearbody p0.
  set (n0 := Node_init id0 (ts_start_point node) (ts_end_point node) fn None
               (Some (ts_type node)) None last) in *.
  set (h := objs (_AST p)) in *.
  destruct (new_node_spec n0 p0) as (p1 & Hrun1 & Ho1 & Hg1 & Ht1).
  rewrite (bind_Ok _ _ _ _ _ Hrun1). rewrite HA in *.
  fold h in Ho1 |- *.
  set (n1 := if truthy text then set_text text n0 else n0).
  assert (∃ p2, (if truthy text
      then on_AST (modify (upd_objs (alter (set_text text) (length h))))
      else ret ()) p1 = (Ok tt, p2) ∧
      objs (_AST p2) = h ++ [n1] ∧ graph (_AST p2) = graph (_AST p))
    as (p2 & Hrun2 & Ho2 & Hg2).
  { unfold n1. destruct (truthy text).
    - destruct (alter_obj_spec (set_text text) (length h) p1)
        as (p2 & Hrun' & Ho & Hg & Ht).
      exists p2. split; [done|]. split; [|congruence].
      rewrite Ho, Ho1, (alter_app_r_alt _ h) by done. by rewrite Nat.sub_diag.
    - by exists p1. }
  rewrite (bind_Ok _ _ _ _ _ Hrun2).
  assert (_parent n1 = last) as Hpar.
  { unfold n1. by destruct (truthy text). }
  destruct (on_AST_add_vertex_Ok (length h) p2 n1) as (p3 & Hrun3).
  { rewrite Ho2, lookup_app_r by done. by rewrite Nat.sub_diag. }
  { rewrite Hpar. intros l Hlast. destruct (Hl l Hlast) as (n & Hn & Hreg).
    exists n. split.
    - rewrite Ho2. by apply lookup_app_l_Some.
    - unfold registered. by rewrite Hg2. }
  rewrite (bind_Ok _ _ _ _ _ Hrun3).
  destruct (decide (ts_type node = "identifier")).
  - destruct (alter_obj_spec (set_var_name (Some (ts_text node)))
                (length h) p3) as (p4 & Hrun' & _).
    rewrite (bind_Ok _ _ _ _ _ Hrun'). by do 2 eexists.
  - by do 2 eexists.
Qed.

Lemma visit_outcome depth node up idx last fn p :
  node_ok node up = true → last_ok p last →
  (∃ r p', visit fp B depth node up idx last fn p = (Ok r, p')) ∨
  (∃ g p', handled_callee B node = Some g ∧ depth ≤ String.length g ∧
           visit fp B depth node up idx last fn p
             = (Raise RecursionError, p')).
Proof.
  unfold node_ok. rewrite !andb_true_iff. intros [[[Ht Hc] Hi] Hd] Hl.
  apply text_of_returns in Ht as [text Ht].
  destruct (insert_node_returns node last fn p text Ht Hl)
    as ([[n_ id] name] & p1 & Hrun1).
  unfold visit. rewrite (bind_Ok _ _ _ _ _ Hrun1).
  destruct (dispatch_outcome depth node up idx name p1)
    as [[p2 Hrun2]|(g & p2 & Hg & Hlen & Hrun2)].
  { by rewrite Hc, Hi, Hd. }
  - left. rewrite (bind_Ok _ _ _ _ _ Hrun2). by do 2 eexists.
  - right. exists g, p2. split_and!; [done..|].
    by rewrite (bind_Raise _ _ _ _ _ Hrun2).
Qed.

Lemma visit_returned depth node up idx last fn p r p' :
  visit fp B depth node up idx last fn p = (Ok r, p') → node_ok node up = true.
Proof.
  unfold visit. intros Hrun.
  apply bind_inv_Ok in Hrun as ([[n_ id] name] & p1 & Hrun1 & Hrun).
  apply bind_inv_Ok in Hrun as ([] & p2 & Hrun2 & _).
  apply insert_node_Ok in Hrun1 as (text & Ht & _).
  unfold node_ok.
  rewrite (proj1 (text_of_returns node)) by eauto.
  rewrite <-!andb_assoc. simpl. by eapply dispatch_returned.
Qed.

Lemma visit_keeps depth node up idx last fn p n_ id p' :
  visit fp B depth node up idx last fn p = (Ok (n_, id), p') →
  keeps p p' ∧ registered (_AST p') id ∧ last_ok p' (Some n_).
Proof.
  intros Hrun. apply visit_Ok in Hrun as (text & _ & -> & _ & Ho & Hg).
  assert (registered (_AST p') id) as Hreg.
  { unfold registered. rewrite Hg. simpl. by rewrite lookup_insert_eq. }
  split_and!; [split|done|].
  - intros x [r Hx]. unfold registered. rewrite Hg. simpl.
    destruct (decide (id = x)) as [->|Hne].
    + by rewrite lookup_insert_eq.
    + rewrite lookup_insert_ne by done. eauto.
  - intros k n Hn. exists n. split; [|done]. rewrite Ho.
    by apply lookup_app_l_Some.
  - intros l [= <-]. eexists. split.
    + rewrite Ho, lookup_app_r by done. by rewrite Nat.sub_diag.
    + done.
Qed.

Lemma frames_unfold own node :
  frames own node =
    S (own node `max`
       max_list_with (λ c, if ts_is_named c then frames own c else 0)
         (ts_children node)).
Proof. by destruct node. Qed.

Lemma child_step_outcome depth c node i fn p n_ :
  (∀ up idx last fn p,
     last_ok p last → tree_ok c up = true →
     (∃ id p', _parse_node fp B depth c up idx last fn p = (Ok id, p') ∧
               keeps p p' ∧ registered (_AST p') id) ∨
     (depth < frames (call_frames B) c ∧
      ∃ p', _parse_node fp B depth c up idx last fn p
              = (Raise RecursionError, p'))) →
  last_ok p (Some n_) → tree_ok c (Some node) = true →
  (∃ p', (let* to_id_ := _parse_node fp B depth c (Some node) i (Some n_) fn in
          let* n_id := on_AST (let* n := read n_ in ret (_id n)) in
          on_AST (add_edge n_id to_id_ 1%Z false)) p = (Ok tt, p') ∧
         keeps p p') ∨
  (depth < frames (call_frames B) c ∧
   ∃ p', (let* to_id_ := _parse_node fp B depth c (Some node) i (Some n_) fn in
          let* n_id := on_AST (let* n := read n_ in ret (_id n)) in
          on_AST (add_edge n_id to_id_ 1%Z false)) p
           = (Raise RecursionError, p')).
Proof.
  intros IH Hl Hok.
  destruct (IH (Some node) i (Some n_) fn p Hl Hok)
    as [(to_id & p1 & Hrun1 & Hk1 & Hreg1)|(Hlt & p1 & Hrun1)].
  2:{ right. split; [done|]. exists p1.
      by rewrite (bind_Raise _ _ _ _ _ Hrun1). }
  left. rewrite (bind_Ok _ _ _ _ _ Hrun1).
  destruct (last_ok_keeps _ _ _ Hl Hk1 n_ eq_refl) as (n & Hn & [rn Hregn]).
  assert (on_AST (let* n := read n_ in ret (_id n)) p1 = (Ok (_id n), p1))
    as Hread.
  { rewrite on_AST_eq. unfold_M. rewrite Hn. simpl. by rewrite upd_AST_id. }
  rewrite (bind_Ok _ _ _ _ _ Hread).
  destruct Hreg1 as [rt Hregt].
  pose proof (on_AST_add_edge_grows (_id n) to_id 1%Z p1) as Hg.
  unfold on_AST in Hg |- *.
  rewrite (add_edge_Ok _ _ _ _ rn rt) in Hg |- * by done.
  eexists. split; [done|]. eapply keeps_trans; [done|].
  by apply grows_keeps.
Qed.

Lemma children_outcome depth node fn cs :
  Forall (λ c, ∀ up idx last fn p,
     last_ok p last → tree_ok c up = true →
     (∃ id p', _parse_node fp B depth c up idx last fn p = (Ok id, p') ∧
               keeps p p' ∧ registered (_AST p') id) ∨
     (depth < frames (call_frames B) c ∧
      ∃ p', _parse_node fp B depth c up idx last fn p
              = (Raise RecursionError, p'))) cs →
  ∀ i p n_,
    last_ok p (Some n_) →
    forallb (λ c, if ts_is_named c then tree_ok c (Some node) else true) cs
      = true →
    (∃ p', for_each_child (λ c i,
             if ts_is_named c then
               let* to_id_ := _parse_node fp B depth c (Some node) i (Some n_) fn in
               let* n_id := on_AST (let* n := read n_ in ret (_id n)) in
               on_AST (add_edge n_id to_id_ 1%Z false)
             else ret tt) cs i p = (Ok tt, p') ∧
           keeps p p') ∨
    (depth < max_list_with
               (λ c, if ts_is_named c then frames (call_frames B) c else 0) cs ∧
     ∃ p', for_each_child (λ c i,
             if ts_is_named c then
               let* to_id_ := _parse_node fp B depth c (Some node) i (Some n_) fn in
               let* n_id := on_AST (let* n := read n_ in ret (_id n)) in
               on_AST (add_edge n_id to_id_ 1%Z false)
             else ret tt) cs i p = (Raise RecursionError, p')).
Proof.
  induction cs as [|c cs IH]; intros IHcs i p n_ Hl Hok.
  { left. exists p. split; [done|apply keeps_refl]. }
  apply Forall_cons in IHcs as [IHc IHcs].
  cbn [forallb] in Hok. apply andb_true_iff in Hok as [Hc Hcs].
  cbn [for_each_child max_list_with].
  assert ((∃ p1, (if ts_is_named c then
              let* to_id_ := _parse_node fp B depth c (Some node) i (Some n_) fn in
              let* n_id := on_AST (let* n := read n_ in ret (_id n)) in
              on_AST (add_edge n_id to_id_ 1%Z false)
            else ret tt) p = (Ok tt, p1) ∧ keeps p p1) ∨
          (depth < (if ts_is_named c then frames (call_frames B) c else 0) ∧
           ∃ p1, (if ts_is_named c then
              let* to_id_ := _parse_node fp B depth c (Some node) i (Some n_) fn in
              let* n_id := on_AST (let* n := read n_ in ret (_id n)) in
              on_AST (add_edge n_id to_id_ 1%Z false)
            else ret tt) p = (Raise RecursionError, p1)))
    as [(p1 & Hrun1 & Hk1)|(Hlt & p1 & Hrun1)].
  { destruct (ts_is_named c).
    - by apply child_step_outcome.
    - left. exists p. split; [done|apply keeps_refl]. }
  2:{ right. split; [lia|]. exists p1.
      by rewrite (bind_Raise _ _ _ _ _ Hrun1). }
  rewrite (bind_Ok _ _ _ _ _ Hrun1).
  destruct (IH IHcs (S i) p1 n_) as [(p' & Hrun' & Hk')|(Hlt & p' & Hrun')];
    [by eapply last_ok_keeps|done| |].
  - left. exists p'. split; [done|]. by eapply keeps_trans.
  - right. split; [lia|]. by exists p'.
Qed.

(** On a tree that has what the walk indexes, the walk returns, unless it
    runs out of frames. *)
Lemma parse_node_outcome node :
  ∀ depth up idx last fn p,
    last_ok p last → tree_ok node up = true →
    (∃ id p', _parse_node fp B depth node up idx last fn p = (Ok id, p') ∧
              keeps p p' ∧ registered (_AST p') id) ∨
    (depth < frames (call_frames B) node ∧
     ∃ p', _parse_node fp B depth node up idx last fn p
             = (Raise RecursionError, p')).
Proof.
  induction node as [ty named txt sp ep cs IH] using ts_node_ind'.
  intros [|depth] up idx last fn p Hl Hok.
  { right. rewrite frames_unfold, parse_node_exhausted.
    split; [lia|by eexists]. }
  set (node := TSNode ty named txt sp ep cs) in *.
  cbn [tree_ok] in Hok. fold node in Hok.
  apply andb_true_iff in Hok as [Hnode Hcs].
  rewrite parse_node_unfold, frames_unfold.
  destruct (visit_outcome depth node up idx last fn p Hnode Hl)
    as [([n_ id] & p0 & Hvisit)|(g & p0 & Hg & Hlen & Hvisit)].
  2:{ right. split.
      - unfold call_frames at 1. rewrite Hg. lia.
      - exists p0. by rewrite (bind_Raise _ _ _ _ _ Hvisit). }
  rewrite (bind_Ok _ _ _ _ _ Hvisit).
  destruct (visit_keeps _ _ _ _ _ _ _ _ _ _ Hvisit) as (Hk0 & Hreg0 & Hl0).
  change (ts_children node) with cs.
  destruct (children_outcome depth node fn cs
              (Forall_impl _ _ _ IH (λ c H, H depth)) 0 p0 n_ Hl0 Hcs)
    as [(p' & Hloop & Hk')|(Hlt & p' & Hloop)].
  - left. rewrite (bind_Ok _ _ _ _ _ Hloop).
    exists id, p'. split_and!; [done| |].
    + by eapply keeps_trans.
    + by apply Hk'.
  - right. split; [lia|]. exists p'.
    by rewrite (bind_Raise _ _ _ _ _ Hloop).
Qed.

Lemma children_returned depth node fn n_ cs :
  Forall (λ c, ∀ up idx last fn p id p',
     _parse_node fp B depth c up idx last fn p = (Ok id, p') →
     tree_ok c up = true ∧ frames (λ _, 0) c ≤ depth) cs →
  ∀ i p p',
    for_each_child (λ c i,
      if ts_is_named c then
        let* to_id_ := _parse_node fp B depth c (Some node) i (Some n_) fn in
        let* n_id := on_AST (let* n := read n_ in ret (_id n)) in
        on_AST (add_edge n_id to_id_ 1%Z false)
      else ret tt) cs i p = (Ok tt, p') →
    forallb (λ c, if ts_is_named c then tree_ok c (Some node) else true) cs
      = true ∧
    max_list_with (λ c, if ts_is_named c then frames (λ _, 0) c else 0) cs
      ≤ depth.
Proof.
  induction cs as [|c cs IH]; intros IHcs i p p' Hrun.
  { split; [done|]. cbn [max_list_with]. lia. }
  apply Forall_cons in IHcs as [IHc IHcs].
  cbn [for_each_child] in Hrun.
  apply bind_inv_Ok in Hrun as ([] & p1 & Hbody & Hrest).
  destruct (IH IHcs (S i) p1 p' Hrest) as [Hcs Hmax].
  cbn [forallb max_list_with]. rewrite andb_true_iff.
  destruct (ts_is_named c).
  - apply bind_inv_Ok in Hbody as (to_id & p2 & Hc & _).
    destruct (IHc _ _ _ _ _ _ _ Hc). split; [done|lia].
  - split; [done|lia].
Qed.

(** A walk that returns has found what it indexes, and one frame for each
    level of the tree. *)
Lemma parse_node_returned node :
  ∀ depth up idx last fn p id p',
    _parse_node fp B depth node up idx last fn p = (Ok id, p') →
    tree_ok node up = true ∧ frames (λ _, 0) node ≤ depth.
Proof.
  induction node as [ty named txt sp ep cs IH] using ts_node_ind'.
  intros [|depth] up idx last fn p id p' Hrun.
  { by rewrite parse_node_exhausted in Hrun. }
  set (node := TSNode ty named txt sp ep cs) in *.
  rewrite parse_node_unfold in Hrun.
  apply bind_inv_Ok in Hrun as ([n_ id'] & p0 & Hvisit & Hrun).
  apply bind_inv_Ok in Hrun as ([] & p2 & Hloop & _).
  change (ts_children node) with cs in Hloop.
  destruct (children_returned depth node fn n_ cs
              (Forall_impl _ _ _ IH (λ c H, H depth)) 0 p0 p2 Hloop)
    as [Hcs Hmax].
  rewrite frames_unfold. change (ts_children node) with cs.
  split; [|lia]. unfold node at 1. cbn [tree_ok]. fold node.
  apply andb_true_iff. split; [by eapply visit_returned|done].
Qed.
End returns.

(** X30: when [parse] returns.  It returns only on a tree in which every
    visited node has what the walk indexes ([tree_ok]: child 1 of a binary
    operator, child 0 of a call, child 1 of a function or class definition,
    children 0 and 2 of an aliased import, child 1 of an
    [import_from_statement] above an aliased import or a dotted name; every
    aliased import directly under an [import_statement] or an
    [import_from_statement]; no dotted name at the root or under a node
    whose type starts with [import] other than these two), and only when
    the interpreter grants one frame for each level of the tree.  On such a
    tree it does return when the frames also cover, below each call that
    is handled, the recursion of [_call_to_import] (one frame more than the
    callee text has characters); and when it does not return, it ends in a
    [RecursionError] and in no other exception. *)
Theorem parse_returns_on_ok_tree (fp : string) (B : list string) (depth : nat)
    (root : ts_node) :
  ((∃ id, (parse fp B depth root parser_init).1 = Ok id) →
   tree_ok root None = true ∧ frames (λ _, 0) root ≤ depth) ∧
  (tree_ok root None = true → frames (call_frames B) root ≤ depth →
   ∃ id, (parse fp B depth root parser_init).1 = Ok id) ∧
  (tree_ok root None = true →
   (∃ id, (parse fp B depth root parser_init).1 = Ok id) ∨
   (parse fp B depth root parser_init).1 = Raise RecursionError).
Proof.
  rewrite parse_outcome.
  assert (tree_ok root None = true →
          (∃ id, (_parse_node fp B depth root None 0 None fp parser_init).1
                   = Ok id) ∨
          (depth < frames (call_frames B) root ∧
           (_parse_node fp B depth root None 0 None fp parser_init).1
             = Raise RecursionError)) as Hout.
  { intros Hok.
    destruct (parse_node_outcome fp B root depth None 0 None fp parser_init)
      as [(id & p' & Hrun & _)|(Hlt & p' & Hrun)]; [by intros l|done| |].
    - left. exists id. by rewrite Hrun.
    - right. by rewrite Hrun. }
  split_and!.
  - intros [id Hid].
    destruct (_parse_node fp B depth root None 0 None fp parser_init)
      as [r p'] eqn:Hrun.
    simpl in Hid. subst r. by eapply parse_node_returned.
  - intros Hok Hdepth. destruct (Hout Hok) as [?|[Hlt _]]; [done|lia].
  - intros Hok. destruct (Hout Hok) as [?|[_ ?]]; [by left|by right].
Qed.

Lemma parse_returns_on_ok_tree_witness :
  (∃ id, (parse "a.py" ["print"; "len"] 1000 example_tree parser_init).1
           = Ok id) ∧
  (parse "a.py" ["print"; "len"] 5 example_tree parser_init).1
    = Raise RecursionError.
Proof.
  split.
  - destruct (parse_returns_on_ok_tree "a.py" ["print"; "len"] 1000
                example_tree) as (_ & Hret & _).
    apply Hret; [vm_compute; reflexivity|vm_compute; lia].
  - destruct (parse_returns_on_ok_tree "a.py" ["print"; "len"] 5
                example_tree) as (Hinv & _ & Hout).
    destruct Hout as [Hid|Hraise]; [vm_compute; reflexivity| |done].
    apply Hinv in Hid as [_ Hlevels]. vm_compute in Hlevels. lia.
Defined.
